(** * The connection handle of gorm: clone-on-chain builder, error set,
      settings, transactions and terminal operations (main.go)

    A shallow embedding of [gormDB] and its methods.  Go objects that are
    reached through pointers ([*gormDB], [*Search], [*Callback], settings
    maps, dialects) live in a store that every method threads through; a
    method call that would dereference nil, or write into a nil map, is a
    panic of the model. *)

From stdpp Require Import base option numbers list gmap strings.

Set Warnings "-register-all".

Open Scope string_scope.
Open Scope list_scope.

(** ** Values *)

(** Addresses of heap objects.  A nullable Go pointer or interface is an
    [option loc]. *)
Definition loc := nat.

(** Go [error] values.  A nil error is [None : option error].  The three
    package-level sentinels used by main.go are distinct values; [Errors]
    is the slice type [Errors []error] that [GetErrors] tests for. *)
Inductive error : Type :=
| ErrRecordNotFound
| ErrInvalidTransaction
| ErrCantStartTransaction
| ErrOther (msg : string)
| Errors (errs : list error).

(** Go's [==] on two error interfaces, as main.go uses it: always against a
    value that is not an [Errors] slice, so the comparison never panics; an
    [Errors] value has another dynamic type than any plain error. *)
Definition error_eqb (a b : error) : bool :=
  match a, b with
  | ErrRecordNotFound, ErrRecordNotFound => true
  | ErrInvalidTransaction, ErrInvalidTransaction => true
  | ErrCantStartTransaction, ErrCantStartTransaction => true
  | ErrOther x, ErrOther y => bool_decide (x = y)
  | _, _ => false
  end.

Definition isErrors (e : error) : bool :=
  match e with Errors _ => true | _ => false end.

(** The underlying connection, an [SQLCommon] interface value.  What the
    type assertions of main.go can tell apart: the nil interface, a
    [*sql.DB] (it has [Begin], no [Commit]/[Rollback]), a [*sql.Tx] (it has
    [Commit]/[Rollback]); either pointer may be nil; and any other
    implementation, with the method sets it offers. *)
Inductive SQLCommon : Type :=
| NoConn
| SqlDB (p : option nat)
| SqlTx (tx : option nat)
| UserConn (id : nat) (hasCommitRollback hasBegin : bool).

(** Values travelling as [interface{}]. *)
Inductive iface : Type :=
| Nil
| Int (n : Z)
| Str (s : string)
| Bool (b : bool)
| Struct (type : string) (primaryKey : Z)
| Map (kv : list (string * iface))
| Slice (l : list iface).

Definition Logger := nat.

(** ** The condition set *)

Inductive condKind := KWhere | KNot | KOr | KHaving | KJoins.

Record fragment := Fragment {
  frag_kind : condKind;
  frag_query : iface;
  frag_args : list iface
}.

(** Modelled from the spec: the [Search] struct (search.go is not among the
    sources; main.go shows its fields [db], [limit], [offset] and
    [assignAttrs]).  Section 3 of the spec: an ordered list of condition
    fragments tagged with their kind, the scalars limit and offset, a
    table-name override, order clauses, a group clause, the raw and the
    unscoped flag, the attrs and assign maps, preload directives, and the
    select and omit lists. *)
Record Search := mkSearch {
  search_db : option loc;
  conditions : list fragment;
  limit : iface;
  offset : iface;
  tableName : string;
  orders : list iface;
  group : string;
  raw : bool;
  unscopedFlag : bool;
  initAttrs : gmap string iface;
  assignAttrs : gmap string iface;
  preload : list (string * list iface);
  selects : option (iface * list iface);
  omits : list string
}.

(** ** The handle *)

Record gormDB := mkDB {
  value : iface;
  err : option error;
  rowsAffected : Z;
  (* single db *)
  db : SQLCommon;
  blockGlobalUpdate : bool;
  logMode : Z;
  logger : Logger;
  search : option loc;
  values : option loc;
  (* global db *)
  parent : option loc;
  callbacks : option loc;
  dialect : option loc;
  singularTable : bool
}.

Definition callbackFn := string.

(** Modelled from the spec: the [Callback] registry (callback.go is not
    among the sources; main.go reads its fields [creates], [updates],
    [deletes] and [queries]).  Section 3: five named chains, each an
    ordered sequence of steps; a step is identified by the name it was
    registered under. *)
Record Callback := mkCallback {
  creates : list callbackFn;
  updates : list callbackFn;
  deletes : list callbackFn;
  queries : list callbackFn;
  rowQueries : list callbackFn
}.

(** Modelled from the spec: the [Dialect] collaborator (dialect.go is not
    among the sources): an object with a name, bound to a connection. *)
Record Dialect := mkDialect {
  dialect_name : string;
  dialect_db : SQLCommon
}.

(** A [Scope] (scope.go is not among the sources; [NewScope] builds it as
    [&Scope{db: dbClone, Search: ..., Value: value}]).  The instance-local
    settings of section 3 of the spec are [scope_instance]. *)
Record Scope := mkScope {
  scope_db : loc;
  scope_Search : loc;
  scope_Value : iface;
  scope_instance : gmap string iface
}.

(** ** The store *)

(** What a collaborator (a callback step, a schema statement, a call on the
    connection) reports back: an error or nil, and, when it executed a
    statement, the number of rows affected. *)
Record outcome := mkOutcome {
  out_err : option error;
  out_rows : option Z
}.

Inductive schemaOp :=
| createTable | dropTable | autoMigrate
| modifyColumn (column typ : string) | dropColumn (column : string)
| addIndex (unique : bool) (indexName : string) (columns : list string)
| removeIndex (indexName : string)
| addForeignKey (field dest onDelete onUpdate : string)
| removeForeignKey (field dest : string).

Inductive scopeCall :=
| CallCallback (fn : callbackFn)
| CallInitialize
| CallUpdatedAttrs (attrs : gmap string iface)
| CallSchema (op : schemaOp).

(** One call into scope.go, with the scope it ran against and the
    condition set that scope held at that moment. *)
Record event := mkEvent {
  ev_call : scopeCall;
  ev_scope : Scope;
  ev_search : Search
}.

Inductive logArg := LStr (s : string) | LErr (e : error) | LFileLine.

Record logEntry := mkLog {
  log_logger : Logger;
  log_async : bool;
  log_args : list logArg
}.

Inductive connMethod := mCommit | mRollback | mBegin.

Record World := mkWorld {
  dbs : list gormDB;
  searches : list Search;
  settings : list (gmap string iface);
  registries : list Callback;
  dialects : list Dialect;
  (* what the collaborators are going to report, in call order *)
  script : list outcome;
  (* what has been observed so far *)
  connCalls : list (SQLCommon * connMethod);
  printed : list logEntry;
  trace : list event
}.

(** ** The store monad: state passing, [None] is a panic *)

Definition M (A : Type) : Type := World → option (A * World).

Global Instance M_ret : MRet M := λ A a w, Some (a, w).
Global Instance M_bind : MBind M :=
  λ A B k m w, match m w with Some (a, w') => k a w' | None => None end.
Definition panic {A} : M A := λ _, None.

(** Dereferencing a nullable pointer. *)
Definition nonnil {A} (o : option A) : M A :=
  match o with Some a => mret a | None => panic end.

Definition get {A} (proj : World → list A) (p : loc) : M A :=
  λ w, match proj w !! p with Some a => Some (a, w) | None => None end.

Definition set_dbs (l : list gormDB) (w : World) : World :=
  mkWorld l (searches w) (settings w) (registries w) (dialects w)
          (script w) (connCalls w) (printed w) (trace w).
Definition set_searches (l : list Search) (w : World) : World :=
  mkWorld (dbs w) l (settings w) (registries w) (dialects w)
          (script w) (connCalls w) (printed w) (trace w).
Definition set_settings (l : list (gmap string iface)) (w : World) : World :=
  mkWorld (dbs w) (searches w) l (registries w) (dialects w)
          (script w) (connCalls w) (printed w) (trace w).
Definition set_registries (l : list Callback) (w : World) : World :=
  mkWorld (dbs w) (searches w) (settings w) l (dialects w)
          (script w) (connCalls w) (printed w) (trace w).
Definition set_dialects (l : list Dialect) (w : World) : World :=
  mkWorld (dbs w) (searches w) (settings w) (registries w) l
          (script w) (connCalls w) (printed w) (trace w).
Definition set_script (l : list outcome) (w : World) : World :=
  mkWorld (dbs w) (searches w) (settings w) (registries w) (dialects w)
          l (connCalls w) (printed w) (trace w).
Definition set_connCalls (l : list (SQLCommon * connMethod)) (w : World) : World :=
  mkWorld (dbs w) (searches w) (settings w) (registries w) (dialects w)
          (script w) l (printed w) (trace w).
Definition set_printed (l : list logEntry) (w : World) : World :=
  mkWorld (dbs w) (searches w) (settings w) (registries w) (dialects w)
          (script w) (connCalls w) l (trace w).
Definition set_trace (l : list event) (w : World) : World :=
  mkWorld (dbs w) (searches w) (settings w) (registries w) (dialects w)
          (script w) (connCalls w) (printed w) l.

(** Reading, writing and allocating objects.  A write needs the object to
    exist; an allocation returns the next free address. *)
Definition getDB (s : loc) : M gormDB := get dbs s.
Definition updDB (s : loc) (f : gormDB → gormDB) : M unit :=
  λ w, match dbs w !! s with
       | Some h => Some (tt, set_dbs (<[s := f h]> (dbs w)) w)
       | None => None
       end.
Definition allocDB (h : gormDB) : M loc :=
  λ w, Some (length (dbs w), set_dbs (dbs w ++ [h]) w).

Definition getSearch (p : loc) : M Search := get searches p.
Definition updSearch (p : loc) (f : Search → Search) : M unit :=
  λ w, match searches w !! p with
       | Some x => Some (tt, set_searches (<[p := f x]> (searches w)) w)
       | None => None
       end.
Definition allocSearch (x : Search) : M loc :=
  λ w, Some (length (searches w), set_searches (searches w ++ [x]) w).

Definition getSettings (p : loc) : M (gmap string iface) := get settings p.
Definition updSettings (p : loc) (f : gmap string iface → gmap string iface) : M unit :=
  λ w, match settings w !! p with
       | Some x => Some (tt, set_settings (<[p := f x]> (settings w)) w)
       | None => None
       end.
Definition allocSettings (x : gmap string iface) : M loc :=
  λ w, Some (length (settings w), set_settings (settings w ++ [x]) w).

Definition getRegistry (p : loc) : M Callback := get registries p.
Definition updRegistry (p : loc) (f : Callback → Callback) : M unit :=
  λ w, match registries w !! p with
       | Some x => Some (tt, set_registries (<[p := f x]> (registries w)) w)
       | None => None
       end.
Definition allocRegistry (x : Callback) : M loc :=
  λ w, Some (length (registries w), set_registries (registries w ++ [x]) w).

Definition getDialect (p : loc) : M Dialect := get dialects p.
Definition updDialect (p : loc) (f : Dialect → Dialect) : M unit :=
  λ w, match dialects w !! p with
       | Some x => Some (tt, set_dialects (<[p := f x]> (dialects w)) w)
       | None => None
       end.
Definition allocDialect (x : Dialect) : M loc :=
  λ w, Some (length (dialects w), set_dialects (dialects w ++ [x]) w).

Definition emit (e : logEntry) : M unit :=
  λ w, Some (tt, set_printed (printed w ++ [e]) w).
Definition record (e : event) : M unit :=
  λ w, Some (tt, set_trace (trace w ++ [e]) w).
Definition called (c : SQLCommon) (m : connMethod) : M unit :=
  λ w, Some (tt, set_connCalls (connCalls w ++ [(c, m)]) w).

(** The next report of a collaborator; once the script is used up every
    further call succeeds and affects no row. *)
Definition nextOutcome : M outcome :=
  λ w, match script w with
       | o :: rest => Some (o, set_script rest w)
       | [] => Some (mkOutcome None None, w)
       end.

(** Field updates of a handle. *)
Definition set_value (v : iface) (h : gormDB) : gormDB :=
  mkDB v (err h) (rowsAffected h) (db h) (blockGlobalUpdate h) (logMode h)
       (logger h) (search h) (values h) (parent h) (callbacks h) (dialect h)
       (singularTable h).
Definition set_err (e : option error) (h : gormDB) : gormDB :=
  mkDB (value h) e (rowsAffected h) (db h) (blockGlobalUpdate h) (logMode h)
       (logger h) (search h) (values h) (parent h) (callbacks h) (dialect h)
       (singularTable h).
Definition set_rowsAffected (n : Z) (h : gormDB) : gormDB :=
  mkDB (value h) (err h) n (db h) (blockGlobalUpdate h) (logMode h)
       (logger h) (search h) (values h) (parent h) (callbacks h) (dialect h)
       (singularTable h).
Definition set_db (c : SQLCommon) (h : gormDB) : gormDB :=
  mkDB (value h) (err h) (rowsAffected h) c (blockGlobalUpdate h) (logMode h)
       (logger h) (search h) (values h) (parent h) (callbacks h) (dialect h)
       (singularTable h).
Definition set_blockGlobalUpdate (b : bool) (h : gormDB) : gormDB :=
  mkDB (value h) (err h) (rowsAffected h) (db h) b (logMode h)
       (logger h) (search h) (values h) (parent h) (callbacks h) (dialect h)
       (singularTable h).
Definition set_logMode (n : Z) (h : gormDB) : gormDB :=
  mkDB (value h) (err h) (rowsAffected h) (db h) (blockGlobalUpdate h) n
       (logger h) (search h) (values h) (parent h) (callbacks h) (dialect h)
       (singularTable h).
Definition set_logger (l : Logger) (h : gormDB) : gormDB :=
  mkDB (value h) (err h) (rowsAffected h) (db h) (blockGlobalUpdate h) (logMode h)
       l (search h) (values h) (parent h) (callbacks h) (dialect h)
       (singularTable h).
Definition set_search (p : option loc) (h : gormDB) : gormDB :=
  mkDB (value h) (err h) (rowsAffected h) (db h) (blockGlobalUpdate h) (logMode h)
       (logger h) p (values h) (parent h) (callbacks h) (dialect h)
       (singularTable h).
Definition set_values (p : option loc) (h : gormDB) : gormDB :=
  mkDB (value h) (err h) (rowsAffected h) (db h) (blockGlobalUpdate h) (logMode h)
       (logger h) (search h) p (parent h) (callbacks h) (dialect h)
       (singularTable h).
Definition set_parent (p : option loc) (h : gormDB) : gormDB :=
  mkDB (value h) (err h) (rowsAffected h) (db h) (blockGlobalUpdate h) (logMode h)
       (logger h) (search h) (values h) p (callbacks h) (dialect h)
       (singularTable h).
Definition set_callbacks (p : option loc) (h : gormDB) : gormDB :=
  mkDB (value h) (err h) (rowsAffected h) (db h) (blockGlobalUpdate h) (logMode h)
       (logger h) (search h) (values h) (parent h) p (dialect h)
       (singularTable h).
Definition set_dialect (p : option loc) (h : gormDB) : gormDB :=
  mkDB (value h) (err h) (rowsAffected h) (db h) (blockGlobalUpdate h) (logMode h)
       (logger h) (search h) (values h) (parent h) (callbacks h) p
       (singularTable h).
Definition set_singularTable (b : bool) (h : gormDB) : gormDB :=
  mkDB (value h) (err h) (rowsAffected h) (db h) (blockGlobalUpdate h) (logMode h)
       (logger h) (search h) (values h) (parent h) (callbacks h) (dialect h) b.

(** ** Methods of [Search] *)

(** search.go is not among the sources: the methods of [Search] that
    main.go calls are modelled from section 4.2 of the spec.  Each is an
    update of the fields of the receiver, which is returned for chaining.
    First the field updates, then the methods. *)

(** Modelled from the spec: a condition-accumulating method "appends a
    tagged fragment". *)
Definition addCondition (k : condKind) (query : iface) (args : list iface)
    (x : Search) : Search :=
  mkSearch (search_db x) (conditions x ++ [Fragment k query args]) (limit x)
    (offset x) (tableName x) (orders x) (group x) (raw x) (unscopedFlag x)
    (initAttrs x) (assignAttrs x) (preload x) (selects x) (omits x).
(** The field [db] of a [Search], set by [Clone]. *)
Definition withSearchDB (d : option loc) (x : Search) : Search :=
  mkSearch d (conditions x) (limit x) (offset x) (tableName x) (orders x)
    (group x) (raw x) (unscopedFlag x) (initAttrs x) (assignAttrs x)
    (preload x) (selects x) (omits x).
(** Modelled from the spec: [Limit] and [Offset] "simply overwrite the scalar". *)
Definition withLimit (l : iface) (x : Search) : Search :=
  mkSearch (search_db x) (conditions x) l (offset x) (tableName x) (orders x)
    (group x) (raw x) (unscopedFlag x) (initAttrs x) (assignAttrs x)
    (preload x) (selects x) (omits x).
(** Modelled from the spec: see [withLimit]. *)
Definition withOffset (o : iface) (x : Search) : Search :=
  mkSearch (search_db x) (conditions x) (limit x) o (tableName x) (orders x)
    (group x) (raw x) (unscopedFlag x) (initAttrs x) (assignAttrs x)
    (preload x) (selects x) (omits x).
(** Modelled from the spec: the table-name override. *)
Definition withTable (name : string) (x : Search) : Search :=
  mkSearch (search_db x) (conditions x) (limit x) (offset x) name (orders x)
    (group x) (raw x) (unscopedFlag x) (initAttrs x) (assignAttrs x)
    (preload x) (selects x) (omits x).
(** Modelled from the spec: "[Order] with reorder=true replaces all previously
    accumulated order fragments; otherwise it appends". *)
Definition withOrder (v : iface) (reorder : list bool) (x : Search) : Search :=
  mkSearch (search_db x) (conditions x) (limit x) (offset x) (tableName x)
    (match reorder with true :: _ => [v] | _ => orders x ++ [v] end)
    (group x) (raw x) (unscopedFlag x) (initAttrs x) (assignAttrs x)
    (preload x) (selects x) (omits x).
(** Modelled from the spec: the group clause, the raw-mode flag and the
    unscoped flag. *)
Definition withGroup (g : string) (x : Search) : Search :=
  mkSearch (search_db x) (conditions x) (limit x) (offset x) (tableName x)
    (orders x) g (raw x) (unscopedFlag x) (initAttrs x) (assignAttrs x)
    (preload x) (selects x) (omits x).
(** Modelled from the spec: see [withGroup]. *)
Definition withRaw (b : bool) (x : Search) : Search :=
  mkSearch (search_db x) (conditions x) (limit x) (offset x) (tableName x)
    (orders x) (group x) b (unscopedFlag x) (initAttrs x) (assignAttrs x)
    (preload x) (selects x) (omits x).
(** Modelled from the spec: see [withGroup]. *)
Definition withUnscoped (x : Search) : Search :=
  mkSearch (search_db x) (conditions x) (limit x) (offset x) (tableName x)
    (orders x) (group x) (raw x) true (initAttrs x) (assignAttrs x)
    (preload x) (selects x) (omits x).

(** The key/value pairs a map argument contributes. *)
Definition attrPairs (v : iface) : list (string * iface) :=
  match v with Map kv => kv | _ => [] end.
(** Modelled from the spec: [Attrs] and [Assign] "merge their map/struct
    arguments into the respective stored map, later keys overwriting
    earlier ones on conflict". *)
Definition mergeAttrs (attrs : list iface) (m : gmap string iface) : gmap string iface :=
  fold_left (λ acc kv, <[kv.1 := kv.2]> acc) (concat (map attrPairs attrs)) m.

(** Modelled from the spec: see [mergeAttrs]. *)
Definition withAttrs (attrs : list iface) (x : Search) : Search :=
  mkSearch (search_db x) (conditions x) (limit x) (offset x) (tableName x)
    (orders x) (group x) (raw x) (unscopedFlag x)
    (mergeAttrs attrs (initAttrs x)) (assignAttrs x)
    (preload x) (selects x) (omits x).
(** Modelled from the spec: see [mergeAttrs]. *)
Definition withAssign (attrs : list iface) (x : Search) : Search :=
  mkSearch (search_db x) (conditions x) (limit x) (offset x) (tableName x)
    (orders x) (group x) (raw x) (unscopedFlag x)
    (initAttrs x) (mergeAttrs attrs (assignAttrs x))
    (preload x) (selects x) (omits x).
(** Modelled from the spec: preload directives are an "ordered sequence of
    (association-path, extra-condition) pairs"; the select and omit lists. *)
Definition withPreload (column : string) (conds : list iface) (x : Search) : Search :=
  mkSearch (search_db x) (conditions x) (limit x) (offset x) (tableName x)
    (orders x) (group x) (raw x) (unscopedFlag x) (initAttrs x) (assignAttrs x)
    (preload x ++ [(column, conds)]) (selects x) (omits x).
(** Modelled from the spec: see [withPreload]. *)
Definition withSelect (query : iface) (args : list iface) (x : Search) : Search :=
  mkSearch (search_db x) (conditions x) (limit x) (offset x) (tableName x)
    (orders x) (group x) (raw x) (unscopedFlag x) (initAttrs x) (assignAttrs x)
    (preload x) (Some (query, args)) (omits x).
(** Modelled from the spec: see [withPreload]. *)
Definition withOmit (columns : list string) (x : Search) : Search :=
  mkSearch (search_db x) (conditions x) (limit x) (offset x) (tableName x)
    (orders x) (group x) (raw x) (unscopedFlag x) (initAttrs x) (assignAttrs x)
    (preload x) (selects x) columns.

(** An in-place update of the [Search] object at [p], returning [p]. *)
Definition onSearch (f : Search → Search) (p : loc) : M loc :=
  updSearch p f ;; mret p.

(** Modelled from the spec: [Search.Where] appends a where fragment. *)
Definition Search_Where (p : loc) (query : iface) (args : list iface) : M loc :=
  onSearch (addCondition KWhere query args) p.
(** Modelled from the spec: [Search.Not] appends a not fragment. *)
Definition Search_Not (p : loc) (query : iface) (args : list iface) : M loc :=
  onSearch (addCondition KNot query args) p.
(** Modelled from the spec: [Search.Or] appends an or fragment. *)
Definition Search_Or (p : loc) (query : iface) (args : list iface) : M loc :=
  onSearch (addCondition KOr query args) p.
(** Modelled from the spec: [Search.Having] appends a having fragment. *)
Definition Search_Having (p : loc) (query : iface) (args : list iface) : M loc :=
  onSearch (addCondition KHaving query args) p.
(** Modelled from the spec: [Search.Joins] appends a joins fragment. *)
Definition Search_Joins (p : loc) (query : string) (args : list iface) : M loc :=
  onSearch (addCondition KJoins (Str query) args) p.
(** Modelled from the spec: [Search.Limit] overwrites the limit. *)
Definition Search_Limit (p : loc) (l : iface) : M loc := onSearch (withLimit l) p.
(** Modelled from the spec: [Search.Offset] overwrites the offset. *)
Definition Search_Offset (p : loc) (o : iface) : M loc := onSearch (withOffset o) p.
(** Modelled from the spec: [Search.Order] appends an order clause, or replaces
    them all when reorder is set. *)
Definition Search_Order (p : loc) (v : iface) (reorder : list bool) : M loc :=
  onSearch (withOrder v reorder) p.
(** Modelled from the spec: [Search.Select] sets the select list. *)
Definition Search_Select (p : loc) (query : iface) (args : list iface) : M loc :=
  onSearch (withSelect query args) p.
(** Modelled from the spec: [Search.Omit] sets the omit list. *)
Definition Search_Omit (p : loc) (columns : list string) : M loc :=
  onSearch (withOmit columns) p.
(** Modelled from the spec: [Search.Group] sets the group clause. *)
Definition Search_Group (p : loc) (query : string) : M loc := onSearch (withGroup query) p.
(** Modelled from the spec: [Search.Preload] appends a preload directive. *)
Definition Search_Preload (p : loc) (column : string) (conds : list iface) : M loc :=
  onSearch (withPreload column conds) p.
(** Modelled from the spec: [Search.Attrs] merges into the attrs map. *)
Definition Search_Attrs (p : loc) (attrs : list iface) : M loc :=
  onSearch (withAttrs attrs) p.
(** Modelled from the spec: [Search.Assign] merges into the assign map. *)
Definition Search_Assign (p : loc) (attrs : list iface) : M loc :=
  onSearch (withAssign attrs) p.
(** Modelled from the spec: [Search.unscoped] sets the unscoped flag. *)
Definition Search_unscoped (p : loc) : M loc := onSearch withUnscoped p.
(** Modelled from the spec: [Search.Table] sets the table-name override. *)
Definition Search_Table (p : loc) (name : string) : M loc := onSearch (withTable name) p.
(** Modelled from the spec: [Search.Raw] sets the raw-mode flag. *)
Definition Search_Raw (p : loc) (b : bool) : M loc := onSearch (withRaw b) p.

(** Modelled from the spec: [Search.clone] (search.go).  Section 3: cloning
    a condition set produces structurally independent condition storage, so
    the clone is a new object holding a copy of every field. *)
Definition Search_clone (p : loc) : M loc :=
  x ← getSearch p; allocSearch x.

(** The field [db] of the [Search] at [p]. *)
Definition Search_db (p : loc) : M (option loc) :=
  x ← getSearch p; mret (search_db x).

(** [&Search{limit: -1, offset: -1}] *)
Definition emptySearch : Search :=
  mkSearch None [] (Int (-1)%Z) (Int (-1)%Z) "" [] "" false false ∅ ∅ [] None [].

(** Modelled from the spec: [Callback.clone] (callback.go): a new registry
    object with the same five chains. *)
Definition Callback_clone (p : loc) : M loc :=
  x ← getRegistry p; allocRegistry x.

Inductive chainKind := kCreate | kUpdate | kDelete | kQuery | kRowQuery.

(** Modelled from the spec: the chains of a registry (callback.go) after a step
    was appended to one of them. *)
Definition registered (k : chainKind) (name : callbackFn) (x : Callback) : Callback :=
  match k with
  | kCreate => mkCallback (creates x ++ [name]) (updates x) (deletes x) (queries x) (rowQueries x)
  | kUpdate => mkCallback (creates x) (updates x ++ [name]) (deletes x) (queries x) (rowQueries x)
  | kDelete => mkCallback (creates x) (updates x) (deletes x ++ [name]) (queries x) (rowQueries x)
  | kQuery => mkCallback (creates x) (updates x) (deletes x) (queries x ++ [name]) (rowQueries x)
  | kRowQuery => mkCallback (creates x) (updates x) (deletes x) (queries x) (rowQueries x ++ [name])
  end.

(** Modelled from the spec: registering a step on a chain of the registry
    at [p] (callback.go).  Section 4.3: "Register(name, fn) appends". *)
Definition Callback_Register (p : loc) (k : chainKind) (name : callbackFn) : M unit :=
  updRegistry p (registered k name).

(** Modelled from the spec: [newDialect] and [Dialect.SetDB] (dialect.go):
    [newDialect] builds a dialect object of the given name bound to the
    given connection; [SetDB] rebinds a dialect (section 4.4, [Begin]). *)
Definition newDialect (name : string) (c : SQLCommon) : M loc :=
  allocDialect (mkDialect name c).
(** Modelled from the spec: [Dialect.SetDB] (dialect.go) rebinds the dialect. *)
Definition Dialect_SetDB (d : loc) (c : SQLCommon) : M unit :=
  updDialect d (λ x, mkDialect (dialect_name x) c).
(** Modelled from the spec: [Dialect.GetName] (dialect.go). *)
Definition Dialect_GetName (d : loc) : M string :=
  x ← getDialect d; mret (dialect_name x).

(** Modelled from the spec: [Errors.Add] (errors.go is not among the
    sources).  Section 4.1: distinct errors coalesce into an aggregate,
    "duplicate identical errors are not re-added". *)
Definition Errors_Add (errs : list error) (err : error) : list error :=
  if existsb (error_eqb err) errs then errs else errs ++ [err].

(** ** Methods of [gormDB] (main.go)

    A method that only reads its receiver is a function of the receiver's
    fields; a method that writes, allocates or calls out runs in the store
    monad on the receiver's address. *)
Module DB.

Definition Value (h : gormDB) : iface := value h.
Definition Error (h : gormDB) : option error := err h.
Definition RowsAffected (h : gormDB) : Z := rowsAffected h.
Definition Search (h : gormDB) : option loc := search h.
Definition Parent (h : gormDB) : option loc := parent h.
Definition SQLCommonDB (h : gormDB) : SQLCommon := db h.
Definition CommonDB (h : gormDB) : SQLCommon := db h.
Definition Callbacks (h : gormDB) : option loc := callbacks h.
Definition IsSingularTable (h : gormDB) : bool := singularTable h.
Definition Values (h : gormDB) : option loc := values h.
Definition Dialect (h : gormDB) : option loc := dialect h.
Definition HasBlockGlobalUpdate (h : gormDB) : bool := blockGlobalUpdate h.

Definition SetValue (s : loc) (v : iface) : M loc := updDB s (set_value v) ;; mret s.
Definition SetError (s : loc) (e : option error) : M loc := updDB s (set_err e) ;; mret s.
Definition SetRowsAffected (s : loc) (row : Z) : M loc :=
  updDB s (set_rowsAffected row) ;; mret s.
Definition SetSearch (s : loc) (p : option loc) : M loc := updDB s (set_search p) ;; mret s.
Definition SetParent (s : loc) (p : option loc) : M loc := updDB s (set_parent p) ;; mret s.
Definition SetSQLCommonDB (s : loc) (sc : SQLCommon) : M loc := updDB s (set_db sc) ;; mret s.
Definition SetCallbacks (s : loc) (cb : option loc) : M loc :=
  updDB s (set_callbacks cb) ;; mret s.
Definition SetIsSingularTable (s : loc) (b : bool) : M loc :=
  updDB s (set_singularTable b) ;; mret s.
Definition SetValues (s : loc) (vals : option loc) : M loc :=
  updDB s (set_values vals) ;; mret s.
Definition SetDialect (s : loc) (d : option loc) : M loc := updDB s (set_dialect d) ;; mret s.
Definition SetLogger (s : loc) (log : Logger) : M loc := updDB s (set_logger log) ;; mret s.

Definition LogMode (s : loc) (enable : bool) : M loc :=
  (if enable then updDB s (set_logMode 2) else updDB s (set_logMode 1)) ;; mret s.

Definition BlockGlobalUpdate (s : loc) (enable : bool) : M loc :=
  updDB s (set_blockGlobalUpdate enable) ;; mret s.

(** [s.logger.Print(v...)]; the entry notes whether the call was started
    with a [go] statement. *)
Definition printVia (async : bool) (s : loc) (v : list logArg) : M unit :=
  h ← getDB s; emit (mkLog (logger h) async v).
Definition Print (s : loc) (v : list logArg) : M unit := printVia false s v.
Definition go_Print (s : loc) (v : list logArg) : M unit := printVia true s v.

Definition Log (s : loc) (v : list logArg) : M unit :=
  h ← getDB s;
  if bool_decide (logMode h = 2%Z) then Print s (LStr "log" :: LFileLine :: v)
  else mret tt.

Definition GetErrors (h : gormDB) : list error :=
  match Error h with
  | Some (Errors errs) => errs
  | Some e => [e]
  | None => []
  end.

Definition AddError (s : loc) (err : option error) : M (option error) :=
  match err with
  | Some e =>
      if negb (error_eqb e ErrRecordNotFound) then
        h ← getDB s;
        (if bool_decide (logMode h = 0%Z)
         then go_Print s [LFileLine; LErr e]
         else Log s [LErr e]) ;;
        h ← getDB s;
        let errors := Errors_Add (GetErrors h) e in
        let err := if bool_decide (1 < length errors) then Errors errors else e in
        SetError s (Some err) ;; mret (Some err)
      else
        SetError s (Some e) ;; mret (Some e)
  | None => mret None
  end.

Definition RecordNotFound (h : gormDB) : bool :=
  existsb (λ err, error_eqb err ErrRecordNotFound) (GetErrors h).

Definition Clone (s : loc) : M loc :=
  h ← getDB s;
  vals ← allocSettings ∅;
  d ← nonnil (dialect h);
  name ← Dialect_GetName d;
  nd ← newDialect name (db h);
  c ← allocDB (mkDB (value h) (Error h) 0 (db h) (blockGlobalUpdate h)
                    (logMode h) (logger h) None (Some vals) (parent h) None
                    (Some nd) false);
  (* for key, value := range s.values { db.values[key] = value } *)
  match values h with
  | Some m => src ← getSettings m; updSettings vals (λ dst, src ∪ dst)
  | None => mret tt
  end ;;
  match search h with
  | None => p ← allocSearch emptySearch; SetSearch c (Some p)
  | Some sp => p ← Search_clone sp; SetSearch c (Some p)
  end ;;
  (* db.Search().db = db *)
  ch ← getDB c;
  p ← nonnil (Search ch);
  updSearch p (withSearchDB (Some c)) ;;
  mret c.

(** [s.X().Search()] of a handle address. *)
Definition searchOf (s : loc) : M loc := h ← getDB s; nonnil (Search h).
(** [p.db] of a [Search] address, a handle. *)
Definition dbOf (p : loc) : M loc := o ← Search_db p; nonnil o.

Definition New (s : loc) : M loc :=
  clone ← Clone s;
  SetSearch clone None ;;
  SetValue clone Nil ;;
  mret clone.

Definition Where (s : loc) (query : iface) (args : list iface) : M loc :=
  c ← Clone s; p ← searchOf c; p ← Search_Where p query args; dbOf p.
Definition Or (s : loc) (query : iface) (args : list iface) : M loc :=
  c ← Clone s; p ← searchOf c; p ← Search_Or p query args; dbOf p.
Definition Not (s : loc) (query : iface) (args : list iface) : M loc :=
  c ← Clone s; p ← searchOf c; p ← Search_Not p query args; dbOf p.
Definition Limit (s : loc) (limit : iface) : M loc :=
  c ← Clone s; p ← searchOf c; p ← Search_Limit p limit; dbOf p.
Definition Offset (s : loc) (offset : iface) : M loc :=
  c ← Clone s; p ← searchOf c; p ← Search_Offset p offset; dbOf p.
Definition Order (s : loc) (value : iface) (reorder : list bool) : M loc :=
  c ← Clone s; p ← searchOf c; p ← Search_Order p value reorder; dbOf p.
Definition Select (s : loc) (query : iface) (args : list iface) : M loc :=
  c ← Clone s; p ← searchOf c; p ← Search_Select p query args; dbOf p.
Definition Omit (s : loc) (columns : list string) : M loc :=
  c ← Clone s; p ← searchOf c; p ← Search_Omit p columns; dbOf p.
Definition Group (s : loc) (query : string) : M loc :=
  c ← Clone s; p ← searchOf c; p ← Search_Group p query; dbOf p.
Definition Having (s : loc) (query : iface) (values : list iface) : M loc :=
  c ← Clone s; p ← searchOf c; p ← Search_Having p query values; dbOf p.
Definition Joins (s : loc) (query : string) (args : list iface) : M loc :=
  c ← Clone s; p ← searchOf c; p ← Search_Joins p query args; dbOf p.
Definition Unscoped (s : loc) : M loc :=
  c ← Clone s; p ← searchOf c; p ← Search_unscoped p; dbOf p.
Definition Attrs (s : loc) (attrs : list iface) : M loc :=
  c ← Clone s; p ← searchOf c; p ← Search_Attrs p attrs; dbOf p.
Definition Assign (s : loc) (attrs : list iface) : M loc :=
  c ← Clone s; p ← searchOf c; p ← Search_Assign p attrs; dbOf p.
Definition Preload (s : loc) (column : string) (conditions : list iface) : M loc :=
  c ← Clone s; p ← searchOf c; p ← Search_Preload p column conditions; dbOf p.
Definition Raw (s : loc) (sql : string) (values : list iface) : M loc :=
  c ← Clone s; p ← searchOf c; p ← Search_Raw p true;
  p ← Search_Where p (Str sql) values; dbOf p.

Definition Model (s : loc) (value : iface) : M loc :=
  c ← Clone s;
  SetValue c value ;;
  mret c.

Definition Table (s : loc) (name : string) : M loc :=
  clone ← Clone s;
  p ← searchOf clone;
  Search_Table p name ;;
  SetValue clone Nil ;;
  mret clone.

Definition Debug (s : loc) : M loc :=
  c ← Clone s; LogMode c true.

Definition InstantSet (s : loc) (name : string) (value : iface) : M loc :=
  h ← getDB s;
  m ← nonnil (values h);
  updSettings m (λ vals, <[name := value]> vals) ;;
  mret s.

Definition Set_ (s : loc) (name : string) (value : iface) : M loc :=
  c ← Clone s; InstantSet c name value.

Definition Get (s : loc) (name : string) : M (iface * bool) :=
  h ← getDB s;
  match values h with
  | None => mret (Nil, false)
  | Some m =>
      vals ← getSettings m;
      match vals !! name with
      | Some value => mret (value, true)
      | None => mret (Nil, false)
      end
  end.

(** *** Transactions *)

(** Modelled from the spec: the interface [sqlDb] (interface.go is not
    among the sources).  Section 6: the connection provider offers
    [Begin]. *)
Definition implementsSqlDb (c : SQLCommon) : bool :=
  match c with SqlDB _ => true | UserConn _ _ b => b | _ => false end.
(** Modelled from the spec: the interface [sqlTx] (interface.go).  Section 6: a
    transaction offers [Commit] and [Rollback]. *)
Definition implementsSqlTx (c : SQLCommon) : bool :=
  match c with SqlTx _ => true | UserConn _ b _ => b | _ => false end.

(** [var emptySQLTx *sql.Tx]: comparing an interface value with it. *)
Definition isEmptySQLTx (c : SQLCommon) : bool :=
  match c with SqlTx None => true | _ => false end.
Definition isNilInterface (c : SQLCommon) : bool :=
  match c with NoConn => true | _ => false end.

(** A call of [Commit] or [Rollback] on the connection (database/sql, or
    the caller's own type): it panics through a nil pointer and is recorded
    otherwise; the connection reports the next outcome. *)
Definition connCall (c : SQLCommon) (m : connMethod) : M (option error) :=
  match c with
  | NoConn | SqlTx None | SqlDB None => panic
  | _ => called c m ;; o ← nextOutcome; mret (out_err o)
  end.

(** [db.Begin()]: a new transaction on success, the nil [*sql.Tx] with the
    error otherwise. *)
Definition connBegin (c : SQLCommon) : M (SQLCommon * option error) :=
  match c with
  | NoConn | SqlTx None | SqlDB None => panic
  | _ =>
      called c mBegin ;;
      o ← nextOutcome;
      match out_err o with
      | None => λ w, Some ((SqlTx (Some (length (connCalls w))), None), w)
      | Some e => mret (SqlTx None, Some e)
      end
  end.

Definition Begin (s : loc) : M loc :=
  c ← Clone s;
  ch ← getDB c;
  (if implementsSqlDb (SQLCommonDB ch) && negb (isNilInterface (SQLCommonDB ch)) then
     '(tx, err) ← connBegin (SQLCommonDB ch);
     SetSQLCommonDB c tx ;;
     ch ← getDB c;
     d ← nonnil (Dialect ch);
     Dialect_SetDB d (SQLCommonDB ch) ;;
     AddError c err
   else
     AddError c (Some ErrCantStartTransaction)) ;;
  mret c.

Definition Commit (s : loc) : M loc :=
  h ← getDB s;
  (if implementsSqlTx (db h) && negb (isNilInterface (db h)) && negb (isEmptySQLTx (db h)) then
     r ← connCall (db h) mCommit; AddError s r
   else
     AddError s (Some ErrInvalidTransaction)) ;;
  mret s.

Definition Rollback (s : loc) : M loc :=
  h ← getDB s;
  (if implementsSqlTx (db h) && negb (isNilInterface (db h)) && negb (isEmptySQLTx (db h)) then
     r ← connCall (db h) mRollback; AddError s r
   else
     AddError s (Some ErrInvalidTransaction)) ;;
  mret s.

(** *** Scopes *)

Definition NewScope (s : loc) (value : iface) : M Scope :=
  dbClone ← Clone s;
  SetValue dbClone value ;;
  p ← searchOf dbClone;
  sp ← Search_clone p;
  mret (mkScope dbClone sp value ∅).

(** scope.go and the callback files are not among the sources: the
    methods of [Scope] that main.go calls are modelled from the spec.  Each
    call is recorded with the scope and the condition set the scope holds
    at that moment. *)

(** Modelled from the spec: the record of one call into a scope. *)
Definition observe (call : scopeCall) (scope : Scope) : M unit :=
  snap ← getSearch (scope_Search scope);
  record (mkEvent call scope snap).

(** Modelled from the spec: a step that talks to the database reports through
    the scope's handle.  Section 4.3: "any step may set the Scope/handle's
    error"; section 3: rowsAffected is the "result of the last mutating
    statement". *)
Definition report (scope : Scope) (o : outcome) : M unit :=
  AddError (scope_db scope) (out_err o) ;;
  match out_rows o with
  | Some n => SetRowsAffected (scope_db scope) n ;; mret tt
  | None => mret tt
  end.

(** Modelled from the spec: [Scope.callCallbacks].  Section 4.3: "steps
    run strictly in order against one Scope", and the contract is
    continue-on-error. *)
Fixpoint callCallbacks (funcs : list callbackFn) (scope : Scope) : M Scope :=
  match funcs with
  | [] => mret scope
  | f :: rest =>
      observe (CallCallback f) scope ;;
      o ← nextOutcome;
      report scope o ;;
      callCallbacks rest scope
  end.

(** Modelled from the spec: [Scope.Set] stores a setting on the scope's
    handle. *)
Definition Scope_Set (scope : Scope) (name : string) (value : iface) : M Scope :=
  InstantSet (scope_db scope) name value ;; mret scope.
(** Modelled from the spec: [Scope.InstanceSet] stores a setting in the scope's
    instance-local settings (section 3). *)
Definition InstanceSet (scope : Scope) (name : string) (value : iface) : Scope :=
  mkScope (scope_db scope) (scope_Search scope) (scope_Value scope)
          (<[name := value]> (scope_instance scope)).

(** Modelled from the spec: [Scope.inlineCondition].  The inline
    conditions of a terminal call are one more where-fragment of the
    scope's own condition set. *)
Definition inlineCondition (scope : Scope) (values : list iface) : M Scope :=
  match values with
  | [] => mret scope
  | query :: args => Search_Where (scope_Search scope) query args ;; mret scope
  end.

(** Modelled from the spec: [Scope.PrimaryKeyZero].  Section 4.4: "the
    value's primary key is non-zero"; a value that is not a model struct
    has no primary key. *)
Definition PrimaryKeyZero (scope : Scope) : bool :=
  match scope_Value scope with
  | Struct _ pk => bool_decide (pk = 0%Z)
  | _ => true
  end.

(** Modelled from the spec: [Scope.initialize] fills fields of the scope's
    value in memory and executes no statement (section 8: "no persistence
    side effect"). *)
Definition initialize (scope : Scope) : M Scope :=
  observe CallInitialize scope ;; mret scope.
(** Modelled from the spec: [Scope.updatedAttrsWithValues] applies attribute
    values to the scope's value in memory. *)
Definition updatedAttrsWithValues (scope : Scope) (attrs : gmap string iface) : M unit :=
  observe (CallUpdatedAttrs attrs) scope.

(** Modelled from the spec: the schema methods of [Scope] ([createTable],
    [dropTable], [autoMigrate], ...).  Section 4.4: each executes its
    statement directly ("these do not go through the callback chains"). *)
Definition schema (op : schemaOp) (scope : Scope) : M Scope :=
  observe (CallSchema op) scope ;;
  o ← nextOutcome;
  report scope o ;;
  mret scope.

(** *** Terminal operations *)

(** [s.parent.Callbacks()], dereferenced. *)
Definition parentCallbacks (s : loc) : M Callback :=
  h ← getDB s;
  p ← nonnil (Parent h);
  ph ← getDB p;
  r ← nonnil (Callbacks ph);
  getRegistry r.

Definition First (s : loc) (out : iface) (where_ : list iface) : M loc :=
  newScope ← NewScope s out;
  Search_Limit (scope_Search newScope) (Int 1) ;;
  scope ← Scope_Set newScope "gorm:order_by_primary_key" (Str "ASC");
  scope ← inlineCondition scope where_;
  cb ← parentCallbacks s;
  scope ← callCallbacks (queries cb) scope;
  mret (scope_db scope).

Definition Take (s : loc) (out : iface) (where_ : list iface) : M loc :=
  newScope ← NewScope s out;
  Search_Limit (scope_Search newScope) (Int 1) ;;
  scope ← inlineCondition newScope where_;
  cb ← parentCallbacks s;
  scope ← callCallbacks (queries cb) scope;
  mret (scope_db scope).

Definition Last (s : loc) (out : iface) (where_ : list iface) : M loc :=
  newScope ← NewScope s out;
  Search_Limit (scope_Search newScope) (Int 1) ;;
  scope ← Scope_Set newScope "gorm:order_by_primary_key" (Str "DESC");
  scope ← inlineCondition scope where_;
  cb ← parentCallbacks s;
  scope ← callCallbacks (queries cb) scope;
  mret (scope_db scope).

Definition Find (s : loc) (out : iface) (where_ : list iface) : M loc :=
  scope ← NewScope s out;
  scope ← inlineCondition scope where_;
  cb ← parentCallbacks s;
  scope ← callCallbacks (queries cb) scope;
  mret (scope_db scope).

Definition FirstOrInit (s : loc) (out : iface) (where_ : list iface) : M loc :=
  c ← Clone s;
  result ← First c out where_;
  rh ← getDB result;
  match Error rh with
  | Some _ =>
      if negb (RecordNotFound rh) then mret result
      else
        scope ← NewScope c out;
        scope ← inlineCondition scope where_;
        initialize scope ;;
        mret c
  | None =>
      scope ← NewScope c out;
      p ← searchOf c;
      cs ← getSearch p;
      updatedAttrsWithValues scope (assignAttrs cs) ;;
      mret c
  end.

Definition FirstOrCreate (s : loc) (out : iface) (where_ : list iface) : M loc :=
  c ← Clone s;
  result ← First s out where_;
  rh ← getDB result;
  match Error rh with
  | Some _ =>
      if negb (RecordNotFound rh) then mret result
      else
        scope ← NewScope c out;
        scope ← inlineCondition scope where_;
        scope ← initialize scope;
        cb ← parentCallbacks c;
        scope ← callCallbacks (creates cb) scope;
        mret (scope_db scope)
  | None =>
      p ← searchOf c;
      cs ← getSearch p;
      if bool_decide (0 < size (assignAttrs cs)) then
        scope ← NewScope c out;
        p ← searchOf c;
        cs ← getSearch p;
        let scope := InstanceSet scope "gorm:update_interface"
                                 (Map (map_to_list (assignAttrs cs))) in
        cb ← parentCallbacks c;
        scope ← callCallbacks (updates cb) scope;
        mret (scope_db scope)
      else mret c
  end.

Definition Save (s : loc) (value : iface) : M loc :=
  scope ← NewScope s value;
  if negb (PrimaryKeyZero scope) then
    cb ← parentCallbacks s;
    scope ← callCallbacks (updates cb) scope;
    let newDB := scope_db scope in
    nh ← getDB newDB;
    if bool_decide (Error nh = None) && bool_decide (RowsAffected nh = 0%Z) then
      n ← New s; FirstOrCreate n value []
    else mret newDB
  else
    cb ← parentCallbacks s;
    scope ← callCallbacks (creates cb) scope;
    mret (scope_db scope).

Definition Create (s : loc) (value : iface) : M loc :=
  scope ← NewScope s value;
  cb ← parentCallbacks s;
  scope ← callCallbacks (creates cb) scope;
  mret (scope_db scope).

Definition Delete (s : loc) (value : iface) (where_ : list iface) : M loc :=
  scope ← NewScope s value;
  scope ← inlineCondition scope where_;
  cb ← parentCallbacks s;
  scope ← callCallbacks (deletes cb) scope;
  mret (scope_db scope).

(** *** Schema operations *)

Fixpoint CreateTable_loop (db : loc) (models : list iface) : M loc :=
  match models with
  | [] => mret db
  | model :: rest =>
      scope ← NewScope db model;
      scope ← schema createTable scope;
      CreateTable_loop (scope_db scope) rest
  end.

Definition CreateTable (s : loc) (models : list iface) : M loc :=
  db ← Unscoped s;
  CreateTable_loop db models.

Fixpoint DropTable_loop (db : loc) (values : list iface) : M loc :=
  match values with
  | [] => mret db
  | value :: rest =>
      db ← match value with
           | Str tableName => Table db tableName
           | _ => mret db
           end;
      scope ← NewScope db value;
      scope ← schema dropTable scope;
      DropTable_loop (scope_db scope) rest
  end.

Definition DropTable (s : loc) (values : list iface) : M loc :=
  db ← Clone s;
  DropTable_loop db values.

Fixpoint AutoMigrate_loop (db : loc) (values : list iface) : M loc :=
  match values with
  | [] => mret db
  | value :: rest =>
      scope ← NewScope db value;
      scope ← schema autoMigrate scope;
      AutoMigrate_loop (scope_db scope) rest
  end.

Definition AutoMigrate (s : loc) (values : list iface) : M loc :=
  db ← Unscoped s;
  AutoMigrate_loop db values.

Definition ModifyColumn (s : loc) (column typ : string) : M loc :=
  h ← getDB s;
  scope ← NewScope s (value h);
  scope ← schema (modifyColumn column typ) scope;
  mret (scope_db scope).

Definition DropColumn (s : loc) (column : string) : M loc :=
  h ← getDB s;
  scope ← NewScope s (value h);
  scope ← schema (dropColumn column) scope;
  mret (scope_db scope).

Definition AddIndex (s : loc) (indexName : string) (columns : list string) : M loc :=
  u ← Unscoped s;
  h ← getDB s;
  scope ← NewScope u (value h);
  scope ← schema (addIndex false indexName columns) scope;
  mret (scope_db scope).

Definition AddUniqueIndex (s : loc) (indexName : string) (columns : list string) : M loc :=
  u ← Unscoped s;
  h ← getDB s;
  scope ← NewScope u (value h);
  scope ← schema (addIndex true indexName columns) scope;
  mret (scope_db scope).

Definition RemoveIndex (s : loc) (indexName : string) : M loc :=
  h ← getDB s;
  scope ← NewScope s (value h);
  scope ← schema (removeIndex indexName) scope;
  mret (scope_db scope).

Definition AddForeignKey (s : loc) (field dest onDelete onUpdate : string) : M loc :=
  h ← getDB s;
  scope ← NewScope s (value h);
  scope ← schema (addForeignKey field dest onDelete onUpdate) scope;
  mret (scope_db scope).

Definition RemoveForeignKey (s : loc) (field dest : string) : M loc :=
  c ← Clone s;
  h ← getDB s;
  scope ← NewScope c (value h);
  scope ← schema (removeForeignKey field dest) scope;
  mret (scope_db scope).

(** *** The callback registry of a handle *)

Definition Callback (s : loc) : M (option loc) :=
  h ← getDB s;
  p ← nonnil (parent h);
  ph ← getDB p;
  old ← nonnil (Callbacks ph);
  new ← Callback_clone old;
  SetCallbacks p (Some new) ;;
  ph ← getDB p;
  mret (Callbacks ph).

End DB.

(** ** Observations on the store *)

(** A handle whose dialect, settings map and condition set exist
    (every handle made by [Open] or [Clone] is such a handle). *)
Definition wf_handle (w : World) (h : gormDB) : Prop :=
  (∃ d, dialect h = Some d ∧ is_Some (dialects w !! d)) ∧
  (∀ m, values h = Some m → is_Some (settings w !! m)) ∧
  (∀ p, search h = Some p → is_Some (searches w !! p)).

Definition wf_handleb (w : World) (h : gormDB) : bool :=
  match dialect h with
  | Some d => bool_decide (d < length (dialects w))
  | None => false
  end &&
  match values h with
  | Some m => bool_decide (m < length (settings w))
  | None => true
  end &&
  match search h with
  | Some p => bool_decide (p < length (searches w))
  | None => true
  end.

(** The condition set a handle shows, and the entries of its settings. *)
Definition conditionSet (w : World) (h : gormDB) : option Search :=
  p ← search h; searches w !! p.
Definition settingsOf (w : World) (h : gormDB) : gmap string iface :=
  match values h with
  | Some m => default ∅ (settings w !! m)
  | None => ∅
  end.
Definition dialectName (w : World) (h : gormDB) : string :=
  default "" (d ← dialect h; x ← dialects w !! d; Some (dialect_name x)).

(** The objects [Clone] allocates for a receiver with fields [h]. *)
Definition clonedDB (w : World) (h : gormDB) : gormDB :=
  mkDB (value h) (err h) 0 (db h) (blockGlobalUpdate h) (logMode h) (logger h)
       (Some (length (searches w))) (Some (length (settings w))) (parent h)
       None (Some (length (dialects w))) false.
Definition clonedSearch (w : World) (h : gormDB) : Search :=
  withSearchDB (Some (length (dbs w))) (default emptySearch (conditionSet w h)).

Definition cloned (w : World) (h : gormDB) : World :=
  mkWorld (dbs w ++ [clonedDB w h]) (searches w ++ [clonedSearch w h])
          (settings w ++ [settingsOf w h]) (registries w)
          (dialects w ++ [mkDialect (dialectName w h) (db h)])
          (script w) (connCalls w) (printed w) (trace w).

(** What [AddError] leaves in the field [err], and what it prints. *)
Definition addedError (h : gormDB) (eo : option error) : option error :=
  match eo with
  | None => err h
  | Some e =>
      if error_eqb e ErrRecordNotFound then Some e
      else
        let errors := Errors_Add (DB.GetErrors h) e in
        Some (if bool_decide (1 < length errors) then Errors errors else e)
  end.

Definition addedLog (h : gormDB) (eo : option error) : list logEntry :=
  match eo with
  | None => []
  | Some e =>
      if error_eqb e ErrRecordNotFound then []
      else if bool_decide (logMode h = 0%Z)
           then [mkLog (logger h) true [LFileLine; LErr e]]
           else if bool_decide (logMode h = 2%Z)
                then [mkLog (logger h) false [LStr "log"; LFileLine; LErr e]]
                else []
  end.

(** *** A sample store

    The store right after [Open]: the root handle is its own parent and
    holds a registry, a dialect and an empty settings map; [script] is what
    the database is going to answer. *)
Definition sampleChains : Callback :=
  mkCallback
    ["begin-transaction"; "build-insert-sql"; "execute"; "commit-transaction"]
    ["begin-transaction"; "build-update-sql"; "execute"; "commit-transaction"]
    ["begin-transaction"; "build-delete-sql"; "execute"; "commit-transaction"]
    ["build-select-sql"; "execute"; "preload"]
    ["build-select-sql"].
Definition root0 : gormDB :=
  mkDB Nil None 0 (SqlDB (Some 0)) false 0 0 None (Some 0) (Some 0) (Some 0)
       (Some 0) false.
Definition opened (script : list outcome) : World :=
  mkWorld [root0] [] [∅] [sampleChains] [mkDialect "sqlite3" (SqlDB (Some 0))]
          script [] [] [].

(** An active, non-nil transaction handle: a [*sql.Tx] that is not the
    nil pointer, or another connection type offering [Commit] and
    [Rollback]. *)
Definition activeTx (c : SQLCommon) : bool :=
  match c with
  | SqlTx (Some _) => true
  | UserConn _ true _ => true
  | _ => false
  end.

(** The condition-building calls of a handle. *)
Inductive builderCall :=
| bWhere (query : iface) (args : list iface)
| bOr (query : iface) (args : list iface)
| bNot (query : iface) (args : list iface)
| bLimit (limit : iface)
| bOffset (offset : iface)
| bOrder (value : iface) (reorder : list bool)
| bSelect (query : iface) (args : list iface)
| bOmit (columns : list string)
| bGroup (query : string)
| bHaving (query : iface) (values : list iface)
| bJoins (query : string) (args : list iface)
| bPreload (column : string) (conditions : list iface)
| bAttrs (attrs : list iface)
| bAssign (attrs : list iface)
| bUnscoped
| bTable (name : string)
| bRaw (sql : string) (values : list iface)
| bModel (value : iface).

Definition call (b : builderCall) (s : loc) : M loc :=
  match b with
  | bWhere query args => DB.Where s query args
  | bOr query args => DB.Or s query args
  | bNot query args => DB.Not s query args
  | bLimit limit => DB.Limit s limit
  | bOffset offset => DB.Offset s offset
  | bOrder value reorder => DB.Order s value reorder
  | bSelect query args => DB.Select s query args
  | bOmit columns => DB.Omit s columns
  | bGroup query => DB.Group s query
  | bHaving query values => DB.Having s query values
  | bJoins query args => DB.Joins s query args
  | bPreload column conditions => DB.Preload s column conditions
  | bAttrs attrs => DB.Attrs s attrs
  | bAssign attrs => DB.Assign s attrs
  | bUnscoped => DB.Unscoped s
  | bTable name => DB.Table s name
  | bRaw sql values => DB.Raw s sql values
  | bModel value => DB.Model s value
  end.

(** What a call does to the condition set of the clone, and the value the
    clone ends up with. *)
Definition mutation (b : builderCall) (x : Search) : Search :=
  match b with
  | bWhere query args => addCondition KWhere query args x
  | bOr query args => addCondition KOr query args x
  | bNot query args => addCondition KNot query args x
  | bLimit limit => withLimit limit x
  | bOffset offset => withOffset offset x
  | bOrder value reorder => withOrder value reorder x
  | bSelect query args => withSelect query args x
  | bOmit columns => withOmit columns x
  | bGroup query => withGroup query x
  | bHaving query values => addCondition KHaving query values x
  | bJoins query args => addCondition KJoins (Str query) args x
  | bPreload column conditions => withPreload column conditions x
  | bAttrs attrs => withAttrs attrs x
  | bAssign attrs => withAssign attrs x
  | bUnscoped => withUnscoped x
  | bTable name => withTable name x
  | bRaw sql values => addCondition KWhere (Str sql) values (withRaw true x)
  | bModel _ => x
  end.

Definition targetValue (b : builderCall) (v : iface) : iface :=
  match b with
  | bTable _ => Nil
  | bModel value => value
  | _ => v
  end.

Definition built (b : builderCall) (w : World) (h : gormDB) : World :=
  mkWorld (dbs w ++ [set_value (targetValue b (value h)) (clonedDB w h)])
          (searches w ++ [mutation b (clonedSearch w h)])
          (settings w ++ [settingsOf w h]) (registries w)
          (dialects w ++ [mkDialect (dialectName w h) (db h)])
          (script w) (connCalls w) (printed w) (trace w).

(** Two states of a handle that differ at most in the error and the
    rows-affected count. *)
Definition sameSkeleton (a b : gormDB) : Prop :=
  set_rowsAffected 0 (set_err None a) = set_rowsAffected 0 (set_err None b).

(** The handle a collaborator leaves behind when it reports [o]. *)
Definition reported (ch : gormDB) (o : outcome) : gormDB :=
  match out_rows o with
  | Some n => set_rowsAffected n (set_err (addedError ch (out_err o)) ch)
  | None => set_err (addedError ch (out_err o)) ch
  end.

(** The condition set of a scope after its inline conditions. *)
Definition inlined (where_ : list iface) (x : Search) : Search :=
  match where_ with
  | [] => x
  | query :: args => addCondition KWhere query args x
  end.

(** A handle whose parent holds the registry [reg]. *)
Definition rooted (w : World) (h : gormDB) (reg : Callback) : Prop :=
  ∃ p ph r, parent h = Some p ∧ dbs w !! p = Some ph ∧
            callbacks ph = Some r ∧ registries w !! r = Some reg.

(** The events of one chain run against [scope]. *)
Definition chainEvents (funcs : list callbackFn) (scope : Scope) (snap : Search) : list event :=
  map (λ f, mkEvent (CallCallback f) scope snap) funcs.

(** The store and the scope [NewScope] produces for a receiver with
    fields [h]. *)
Definition scoped (w : World) (h : gormDB) (v : iface) : World :=
  mkWorld (dbs w ++ [set_value v (clonedDB w h)])
          (searches w ++ [clonedSearch w h; clonedSearch w h])
          (settings w ++ [settingsOf w h]) (registries w)
          (dialects w ++ [mkDialect (dialectName w h) (db h)])
          (script w) (connCalls w) (printed w) (trace w).
Definition scopeOf (w : World) (v : iface) : Scope :=
  mkScope (length (dbs w)) (S (length (searches w))) v ∅.

(** The condition set [First] queries with. *)
Definition firstSearch (w : World) (h : gormDB) (where_ : list iface) : Search :=
  inlined where_ (withLimit (Int 1) (clonedSearch w h)).

(** A condition set that carries the conditions, the Attrs and Assign
    values and the unscoped flag of [base]. *)
Definition agrees (base x : Search) : Prop :=
  conditions x = conditions base ∧ initAttrs x = initAttrs base ∧
  assignAttrs x = assignAttrs base ∧ unscopedFlag x = unscopedFlag base.

(** What the scope of a fallback is seeded with: the conditions of the
    receiver followed by the inline conditions, and the receiver's Attrs
    and Assign values. *)
Definition seeded (base : Search) (where_ : list iface) (snap : Search) : Prop :=
  conditions snap = conditions (inlined where_ base) ∧
  initAttrs snap = initAttrs base ∧ assignAttrs snap = assignAttrs base ∧
  unscopedFlag snap = unscopedFlag base.

(** [First] ran: the query chain, against a scope for [out] limited to one
    row. *)
Definition ranFirst (w w1 : World) (reg : Callback) (out : iface)
    (base : Search) (where_ : list iface) : Prop :=
  ∃ sc snap,
    trace w1 = trace w ++ chainEvents (queries reg) sc snap ∧
    scope_Value sc = out ∧ limit snap = Int 1 ∧ seeded base where_ snap.

(** The handle [New] allocates. *)
Definition newDB (w : World) (h : gormDB) : gormDB :=
  set_value Nil (set_search None (clonedDB w h)).

(** The unscoped flag of the condition set a handle shows (a handle with
    no condition set is cloned with an empty one). *)
Definition flagOf (w : World) (h : gormDB) : bool :=
  unscopedFlag (default emptySearch (conditionSet w h)).

(** From [w] to [w'] exactly the schema statements [ops] were executed,
    one scope per target value, each scope with unscoped flag [flag]; no
    other call into a scope, so no callback chain, was made. *)
Definition ranSchema (ops : list schemaOp) (targets : list iface) (flag : bool)
    (w w' : World) : Prop :=
  ∃ evs,
    trace w' = trace w ++ evs ∧
    map ev_call evs = map CallSchema ops ∧
    map (λ e, scope_Value (ev_scope e)) evs = targets ∧
    Forall (λ e, unscopedFlag (ev_search e) = flag) evs.

(** ** Further functions of main.go *)

(** The first argument of [Open], as its type switch sees it: a string, an
    [SQLCommon] value, or anything else (the nil interface included). *)
Inductive openArg :=
| ArgString (s : string)
| ArgConn (c : SQLCommon)
| ArgOther (v : iface).

(** The calls [Open] makes into database/sql. *)
Inductive driverCall :=
| sqlOpen (driver source : string)
| dbPing (c : SQLCommon)
| dbClose (c : SQLCommon).

(** Modelled from the spec: the package-level registry [DefaultCallback]
    (callback.go) and the package-level [defaultLogger] (logger.go), which
    are not among the sources.  Section 5 has it as the registry of a
    shared root that handles reference until they clone it; it is the
    object at address 0 of the store. *)
Definition DefaultCallback : loc := 0.
Definition defaultLogger : Logger := 0.

(** [new(gormDB)] *)
Definition zeroDB : gormDB :=
  mkDB Nil None 0 NoConn false 0 0 None None None None None false.

(** [sql.Open(driver, source)] of database/sql: a new [*sql.DB], or the nil
    pointer with the error the driver reports; the number only names the
    connection. *)
Definition sql_Open (driver source : string) : M (SQLCommon * option error) :=
  o ← nextOutcome;
  match out_err o with
  | None => λ w, Some ((SqlDB (Some (length (connCalls w))), None), w)
  | Some e => mret (SqlDB None, Some e)
  end.

Module Gorm.

(** The part of [Open] after the type switch: build the root handle, then
    ping a [*sql.DB]. *)
Definition root (dialect : string) (dbSQL : SQLCommon) (err : option error)
    (ownDbSQL : bool) (calls : list driverCall)
    : M (option loc * option error * list driverCall) :=
  db ← allocDB zeroDB;
  DB.SetSQLCommonDB db dbSQL ;;
  DB.SetLogger db defaultLogger ;;
  vals ← allocSettings ∅;
  DB.SetValues db (Some vals) ;;
  DB.SetCallbacks db (Some DefaultCallback) ;;
  nd ← newDialect dialect dbSQL;
  DB.SetDialect db (Some nd) ;;
  DB.SetParent db (Some db) ;;
  match err with
  | Some _ => mret (Some db, err, calls)
  | None =>
      match dbSQL with
      | SqlDB (Some _) =>
          o ← nextOutcome;
          match out_err o with
          | Some e =>
              mret (Some db, Some e,
                    calls ++ dbPing dbSQL :: (if ownDbSQL then [dbClose dbSQL] else []))
          | None => mret (Some db, None, calls ++ [dbPing dbSQL])
          end
      | SqlDB None => panic
      | _ => mret (Some db, None, calls)
      end
  end.

Definition Open (dialect : string) (args : list openArg)
    : M (option loc * option error * list driverCall) :=
  match args with
  | [] => mret (None, Some (ErrOther "invalid database source"), [])
  | ArgString value :: rest =>
      '(driver, source) ← match rest with
                          | [] => mret (dialect, value)
                          | ArgString source :: _ => mret (value, source)
                          | _ => panic
                          end;
      '(dbSQL, err) ← sql_Open driver source;
      root dialect dbSQL err true [sqlOpen driver source]
  | ArgConn NoConn :: _ | ArgOther _ :: _ =>
      mret (None, Some (ErrOther "invalid database source: not a valid type"), [])
  | ArgConn value :: _ => root dialect value None false []
  end.

(** [Scopes]: each function takes the handle the previous one returned. *)
Fixpoint Scopes (s : loc) (funcs : list (loc → M loc)) : M loc :=
  match funcs with
  | [] => mret s
  | fn :: rest => db ← fn s; Scopes db rest
  end.

Definition Scan (s : loc) (dest : iface) : M loc :=
  h ← getDB s;
  scope ← DB.NewScope s (value h);
  scope ← DB.Scope_Set scope "gorm:query_destination" dest;
  cb ← DB.parentCallbacks s;
  scope ← DB.callCallbacks (queries cb) scope;
  mret (scope_db scope).

Definition Updates (s : loc) (values : iface) (ignoreProtectedAttrs : list bool) : M loc :=
  h ← getDB s;
  scope ← DB.NewScope s (value h);
  scope ← DB.Scope_Set scope "gorm:ignore_protected_attrs"
             (Bool (bool_decide (0 < length ignoreProtectedAttrs)));
  let scope := DB.InstanceSet scope "gorm:update_interface" values in
  cb ← DB.parentCallbacks s;
  scope ← DB.callCallbacks (updates cb) scope;
  mret (scope_db scope).

Definition UpdateColumns (s : loc) (values : iface) : M loc :=
  h ← getDB s;
  scope ← DB.NewScope s (value h);
  scope ← DB.Scope_Set scope "gorm:update_column" (Bool true);
  scope ← DB.Scope_Set scope "gorm:save_associations" (Bool false);
  let scope := DB.InstanceSet scope "gorm:update_interface" values in
  cb ← DB.parentCallbacks s;
  scope ← DB.callCallbacks (updates cb) scope;
  mret (scope_db scope).

Definition NewRecord (s : loc) (value : iface) : M bool :=
  scope ← DB.NewScope s value;
  mret (DB.PrimaryKeyZero scope).

End Gorm.

(** The store and the handle [Begin] leaves behind on a connection that
    offers [Begin]: the clone holds the transaction (the nil [*sql.Tx] when
    the connection reports an error) and its own dialect is rebound. *)
Definition begun (w : World) (h : gormDB) : World * gormDB :=
  let o := default (mkOutcome None None) (head (script w)) in
  let tx := match out_err o with
            | None => SqlTx (Some (S (length (connCalls w))))
            | Some _ => SqlTx None
            end in
  let ch := set_db tx (clonedDB w h) in
  (mkWorld (dbs w ++ [set_err (addedError ch (out_err o)) ch])
     (searches w ++ [clonedSearch w h]) (settings w ++ [settingsOf w h])
     (registries w) (dialects w ++ [mkDialect (dialectName w h) tx])
     (tail (script w)) (connCalls w ++ [(db h, mBegin)])
     (printed w ++ addedLog ch (out_err o)) (trace w),
   set_err (addedError ch (out_err o)) ch).


(** The conditions a handle shows, without the back pointer to the handle
    that owns the object; a handle with no condition set shows the empty
    one. *)
Definition conditionsOf (w : World) (h : gormDB) : Search :=
  withSearchDB None (default emptySearch (conditionSet w h)).

(** The mutations and the values of a sequence of condition-building calls,
    in call order. *)
Definition mutations (bs : list builderCall) (x : Search) : Search :=
  fold_left (λ x b, mutation b x) bs x.
Definition targetValues (bs : list builderCall) (v : iface) : iface :=
  fold_left (λ v b, targetValue b v) bs v.

(** The calls that run one callback chain against a scope. *)
Inductive terminalCall :=
| tFirst (out : iface) (where_ : list iface)
| tTake (out : iface) (where_ : list iface)
| tLast (out : iface) (where_ : list iface)
| tFind (out : iface) (where_ : list iface)
| tScan (dest : iface)
| tCreate (value : iface)
| tDelete (value : iface) (where_ : list iface)
| tUpdates (values : iface) (ignoreProtectedAttrs : list bool)
| tUpdateColumns (values : iface).

Definition run (t : terminalCall) (s : loc) : M loc :=
  match t with
  | tFirst out where_ => DB.First s out where_
  | tTake out where_ => DB.Take s out where_
  | tLast out where_ => DB.Last s out where_
  | tFind out where_ => DB.Find s out where_
  | tScan dest => Gorm.Scan s dest
  | tCreate value => DB.Create s value
  | tDelete value where_ => DB.Delete s value where_
  | tUpdates values ignore => Gorm.Updates s values ignore
  | tUpdateColumns values => Gorm.UpdateColumns s values
  end.

(** The chain a call runs, the value its scope is for ([v] is the
    receiver's own value), and what the call does to the scope's condition
    set, to the settings of the scope's handle and to the scope's own
    settings before the chain starts. *)
Definition chainOf (t : terminalCall) (reg : Callback) : list callbackFn :=
  match t with
  | tFirst _ _ | tTake _ _ | tLast _ _ | tFind _ _ | tScan _ => queries reg
  | tCreate _ => creates reg
  | tDelete _ _ => deletes reg
  | tUpdates _ _ | tUpdateColumns _ => updates reg
  end.

Definition targetOf (t : terminalCall) (v : iface) : iface :=
  match t with
  | tFirst out _ | tTake out _ | tLast out _ | tFind out _ => out
  | tCreate value | tDelete value _ => value
  | tScan _ | tUpdates _ _ | tUpdateColumns _ => v
  end.

Definition scopeSearchOf (t : terminalCall) (x : Search) : Search :=
  match t with
  | tFirst _ where_ | tTake _ where_ | tLast _ where_ =>
      inlined where_ (withLimit (Int 1) x)
  | tFind _ where_ | tDelete _ where_ => inlined where_ x
  | tScan _ | tCreate _ | tUpdates _ _ | tUpdateColumns _ => x
  end.

Definition scopeSettingsOf (t : terminalCall) (m : gmap string iface) : gmap string iface :=
  match t with
  | tFirst _ _ => <["gorm:order_by_primary_key" := Str "ASC"]> m
  | tLast _ _ => <["gorm:order_by_primary_key" := Str "DESC"]> m
  | tScan dest => <["gorm:query_destination" := dest]> m
  | tUpdates _ ignore =>
      <["gorm:ignore_protected_attrs" := Bool (bool_decide (0 < length ignore))]> m
  | tUpdateColumns _ =>
      <["gorm:save_associations" := Bool false]> (<["gorm:update_column" := Bool true]> m)
  | tTake _ _ | tFind _ _ | tCreate _ | tDelete _ _ => m
  end.

Definition scopeInstanceOf (t : terminalCall) : gmap string iface :=
  match t with
  | tUpdates values _ | tUpdateColumns values => {["gorm:update_interface" := values]}
  | _ => ∅
  end.

(** The table override of the conditions a handle shows, and the table
    overrides under which [DropTable] drops its targets, one after the
    other, when it starts from the override [t]. *)
Definition tableOf (w : World) (h : gormDB) : string :=
  tableName (default emptySearch (conditionSet w h)).
Fixpoint droppedTables (t : string) (values : list iface) : list string :=
  match values with
  | [] => []
  | value :: rest =>
      let t' := match value with Str name => name | _ => t end in
      t' :: droppedTables t' rest
  end.

(** The root handle [Open] builds on the connection [dbSQL], and the store
    that holds it. *)
Definition rootDB (w : World) (dbSQL : SQLCommon) : gormDB :=
  mkDB Nil None 0 dbSQL false 0 defaultLogger None (Some (length (settings w)))
       (Some (length (dbs w))) (Some DefaultCallback) (Some (length (dialects w)))
       false.
Definition rootWorld (w : World) (dialect : string) (dbSQL : SQLCommon) : World :=
  mkWorld (dbs w ++ [rootDB w dbSQL]) (searches w) (settings w ++ [∅])
          (registries w) (dialects w ++ [mkDialect dialect dbSQL])
          (script w) (connCalls w) (printed w) (trace w).

(** The sources [Open] builds a handle from: one string, a string followed
    by a string, or a connection other than the nil interface and the nil
    [*sql.DB]. *)
Definition validSource (args : list openArg) : bool :=
  match args with
  | [ArgString _] | ArgString _ :: ArgString _ :: _ => true
  | ArgConn (SqlDB (Some _)) :: _ | ArgConn (SqlTx _) :: _
  | ArgConn (UserConn _ _ _) :: _ => true
  | _ => false
  end.
(** ** Running store computations *)

Lemma run_bind {A B} (m : M A) (k : A → M B) w a w' :
  m w = Some (a, w') → (m ≫= k) w = k a w'.
Proof. intros H. unfold mbind, M_bind. by rewrite H. Qed.

Lemma run_ret {A} (a : A) w : (mret a : M A) w = Some (a, w).
Proof. done. Qed.

Lemma run_get {A} (proj : World → list A) p w x :
  proj w !! p = Some x → get proj p w = Some (x, w).
Proof. intros H. unfold get. by rewrite H. Qed.

Lemma lookup_snoc_new {A} (l : list A) x : (l ++ [x]) !! length l = Some x.
Proof. by rewrite list_lookup_middle. Qed.

Lemma insert_snoc_new {A} (l : list A) x y : <[length l := y]> (l ++ [x]) = l ++ [y].
Proof.
  replace (length l) with (length l + 0) at 1 by lia.
  by rewrite insert_app_r.
Qed.

Lemma insert_snoc_old {A} (l : list A) i x y :
  i < length l → <[i := y]> (l ++ [x]) = <[i := y]> l ++ [x].
Proof. intros. by rewrite insert_app_l. Qed.

Lemma snoc2 {A} (l : list A) a b : (l ++ [a]) ++ [b] = l ++ [a; b].
Proof. by rewrite <- app_assoc. Qed.

Lemma length_snoc {A} (l : list A) a : length (l ++ [a]) = S (length l).
Proof. rewrite length_app. cbn. lia. Qed.

Lemma lookup_snoc2_fst {A} (l : list A) a b : (l ++ [a; b]) !! length l = Some a.
Proof. by rewrite list_lookup_middle. Qed.

Lemma lookup_snoc2_snd {A} (l : list A) a b : (l ++ [a; b]) !! S (length l) = Some b.
Proof. rewrite <- snoc2, <- (length_snoc l a). apply lookup_snoc_new. Qed.

Lemma insert_snoc2_snd {A} (l : list A) a b y :
  <[S (length l) := y]> (l ++ [a; b]) = l ++ [a; y].
Proof. rewrite <- !snoc2, <- (length_snoc l a). apply insert_snoc_new. Qed.

Ltac munfold :=
  unfold getDB, getSearch, getSettings, getRegistry, getDialect,
    updDB, updSearch, updSettings, updRegistry, updDialect,
    allocDB, allocSearch, allocSettings, allocRegistry, allocDialect,
    emit, record, called, nonnil;
  unfold mbind, M_bind, mret, M_ret, panic, get.

Ltac heap_simpl :=
  repeat (progress
    (cbn; rewrite ?lookup_snoc_new, ?insert_snoc_new, ?lookup_snoc2_fst,
       ?lookup_snoc2_snd, ?insert_snoc2_snd;
     repeat match goal with
       | H : ?l !! ?i = Some _ |- context [?l !! ?i] => rewrite H
       | H : ?l !! ?i = Some _ |- context [(?l ++ _) !! ?i] =>
           rewrite (lookup_app_l_Some _ _ _ _ H)
       end)).

Lemma Clone_run w s h :
  dbs w !! s = Some h → wf_handle w h →
  DB.Clone s w = Some (length (dbs w), cloned w h).
Proof.
  intros Hs ([d [Hd [dl Hdl]]] & Hv & Hp).
  unfold DB.Clone, Dialect_GetName, newDialect, Search_clone, DB.SetSearch,
    DB.Search.
  munfold.
  rewrite Hs; cbn. rewrite Hd; cbn. rewrite Hdl; cbn.
  unfold cloned, clonedDB, clonedSearch, settingsOf, conditionSet, dialectName.
  rewrite Hd; cbn. rewrite Hdl; cbn.
  destruct (values h) as [m|] eqn:Em; destruct (search h) as [sp|] eqn:Es; cbn;
    try (destruct (Hv m eq_refl) as [vm Hvm]);
    try (destruct (Hp sp eq_refl) as [sx Hsx]);
    heap_simpl; rewrite ?(right_id_L ∅ (∪)); done.
Qed.

(** *** The error set *)

Lemma error_eqb_eq a b : isErrors a = false → error_eqb a b = true ↔ a = b.
Proof.
  intros Ha. destruct a, b; cbn in *; try done; try (split; [done|congruence]).
  rewrite bool_decide_eq_true. split; congruence.
Qed.

Lemma existsb_error_eqb e l :
  isErrors e = false → existsb (error_eqb e) l = true ↔ e ∈ l.
Proof.
  intros He. rewrite existsb_exists. split.
  - intros (x & Hx & Heq). apply error_eqb_eq in Heq; [|done]. subst.
    by apply list_elem_of_In.
  - intros Hin. exists e. split; [by apply list_elem_of_In|].
    by apply error_eqb_eq.
Qed.

Lemma Errors_Add_old e l : isErrors e = false → e ∈ l → Errors_Add l e = l.
Proof.
  intros He Hin. unfold Errors_Add.
  by rewrite (proj2 (existsb_error_eqb e l He) Hin).
Qed.

Lemma Errors_Add_new e l : isErrors e = false → e ∉ l → Errors_Add l e = l ++ [e].
Proof.
  intros He Hin. unfold Errors_Add.
  destruct (existsb (error_eqb e) l) eqn:E; [|done].
  by apply existsb_error_eqb in E.
Qed.

Lemma set_err_id h : set_err (err h) h = h.
Proof. by destruct h. Qed.

Lemma AddError_run w s h eo :
  dbs w !! s = Some h →
  DB.AddError s eo w =
    Some (match eo with None => None | Some _ => addedError h eo end,
          set_printed (printed w ++ addedLog h eo)
            (set_dbs (<[s := set_err (addedError h eo) h]> (dbs w)) w)).
Proof.
  intros Hs. destruct eo as [e|]; cbn.
  - unfold DB.SetError, DB.go_Print, DB.Log, DB.Print, DB.printVia.
    destruct (error_eqb e ErrRecordNotFound) eqn:E; cbn; munfold.
    + heap_simpl. by rewrite app_nil_r.
    + heap_simpl.
      destruct (bool_decide (logMode h = 0%Z)); heap_simpl; [done|].
      destruct (bool_decide (logMode h = 2%Z)); heap_simpl; [done|].
      by rewrite app_nil_r.
  - rewrite set_err_id, list_insert_id, app_nil_r by done. by destruct w.
Qed.

Lemma GetErrors_plain h e : err h = Some e → isErrors e = false → DB.GetErrors h = [e].
Proof. unfold DB.GetErrors, DB.Error. intros -> He. by destruct e. Qed.

Lemma GetErrors_Errors h l : err h = Some (Errors l) → DB.GetErrors h = l.
Proof. unfold DB.GetErrors, DB.Error. by intros ->. Qed.

(** After [AddError] of a plain error other than the sentinel, [GetErrors]
    is what [Errors.Add] returned, whether or not the handle's error
    became an aggregate. *)
Lemma GetErrors_added h e :
  isErrors e = false → error_eqb e ErrRecordNotFound = false →
  DB.GetErrors (set_err (addedError h (Some e)) h) = Errors_Add (DB.GetErrors h) e.
Proof.
  intros He E. unfold addedError. rewrite E. cbn zeta.
  case_bool_decide as Hlen.
  { by apply GetErrors_Errors. }
  rewrite (GetErrors_plain _ e) by done.
  unfold Errors_Add in *. destruct (existsb (error_eqb e) (DB.GetErrors h)) eqn:Ex.
  - apply existsb_error_eqb in Ex; [|done].
    destruct (DB.GetErrors h) as [|x [|y l]]; cbn in Hlen; try lia.
    + by apply elem_of_nil in Ex.
    + apply list_elem_of_singleton in Ex. by subst.
  - rewrite length_app in Hlen. cbn in Hlen.
    destruct (DB.GetErrors h); cbn in *; [done|lia].
Qed.

(** C5: for every handle and every non-nil error [e] (one error value,
    not itself an [Errors] aggregate), [AddError] returns what it stored.
    The record-not-found sentinel is stored as it is: the handle's error is
    the bare sentinel and nothing is printed.  Any other error is appended
    to the errors the handle had accumulated, unless an identical one is
    among them, in which case the list stays as it was; and once the list
    has more than one entry the handle's error is the [Errors] aggregate
    of that list. *)
Theorem AddError_accumulates w s h (e : error) :
  dbs w !! s = Some h →
  isErrors e = false →
  ∃ r h' w',
    DB.AddError s (Some e) w = Some (r, w') ∧ dbs w' !! s = Some h' ∧
    r = DB.Error h' ∧
    (e = ErrRecordNotFound →
       DB.Error h' = Some ErrRecordNotFound ∧ printed w' = printed w) ∧
    (e ≠ ErrRecordNotFound →
       (e ∈ DB.GetErrors h → DB.GetErrors h' = DB.GetErrors h) ∧
       (e ∉ DB.GetErrors h → DB.GetErrors h' = DB.GetErrors h ++ [e]) ∧
       (1 < length (DB.GetErrors h') →
          DB.Error h' = Some (Errors (DB.GetErrors h')))).
Proof.
  intros Hs He.
  assert (Hlt : s < length (dbs w)) by by eapply lookup_lt_Some.
  exists (addedError h (Some e)), (set_err (addedError h (Some e)) h).
  eexists. split; [by rewrite (AddError_run _ _ _ _ Hs)|].
  split; [by apply list_lookup_insert_eq|].
  split; [done|]. split.
  - intros ->. split; [done|]. apply app_nil_r.
  - intros Hne.
    destruct (error_eqb e ErrRecordNotFound) eqn:E.
    { apply error_eqb_eq in E; done. }
    rewrite GetErrors_added by done. split; [|split].
    + intros Hin. by apply Errors_Add_old.
    + intros Hin. by apply Errors_Add_new.
    + intros Hlen. unfold DB.Error, addedError. cbn. rewrite E.
      by rewrite bool_decide_eq_true_2.
Qed.

Lemma AddError_accumulates_witness :
  ∃ r h' w',
    DB.AddError 0 (Some (ErrOther "syntax error")) (opened []) = Some (r, w') ∧
    dbs w' !! 0 = Some h' ∧ r = DB.Error h'.
Proof.
  destruct (AddError_accumulates (opened []) 0 root0 (ErrOther "syntax error")
              eq_refl eq_refl) as (r & h' & w' & H1 & H2 & H3 & _).
  exact (ex_intro _ r (ex_intro _ h' (ex_intro _ w' (conj H1 (conj H2 H3))))).
Defined.

Lemma error_eqb_sentinel x :
  error_eqb x ErrRecordNotFound = true ↔ x = ErrRecordNotFound.
Proof. destruct x; cbn; split; congruence. Qed.

Lemma RecordNotFound_elem h :
  DB.RecordNotFound h = true ↔ ErrRecordNotFound ∈ DB.GetErrors h.
Proof.
  unfold DB.RecordNotFound. rewrite existsb_exists. split.
  - intros (x & Hx & Heq). apply error_eqb_sentinel in Heq. subst.
    by apply list_elem_of_In.
  - intros Hin. exists ErrRecordNotFound. split; [by apply list_elem_of_In|done].
Qed.

Lemma Errors_Add_elem x l e : x ∈ Errors_Add l e → x ∈ l ∨ x = e.
Proof.
  unfold Errors_Add. destruct (existsb _ l); [by left|].
  rewrite elem_of_app, list_elem_of_singleton. tauto.
Qed.

Lemma Errors_Add_last l e : isErrors e = false → e ∈ Errors_Add l e.
Proof.
  intros He. unfold Errors_Add. destruct (existsb _ l) eqn:Ex.
  - by apply existsb_error_eqb in Ex.
  - apply elem_of_app. right. by apply list_elem_of_singleton.
Qed.

(** C6: [RecordNotFound] is true exactly when the sentinel is among the
    errors [GetErrors] returns.  Adding the sentinel makes it true; after
    any other failure (a plain error other than the sentinel, added to a
    handle that does not already hold the sentinel) [Error] is non-nil
    and [RecordNotFound] is false. *)
Theorem RecordNotFound_sentinel w s h (e : error) :
  dbs w !! s = Some h →
  (DB.RecordNotFound h = true ↔ ErrRecordNotFound ∈ DB.GetErrors h) ∧
  (∃ r h' w',
     DB.AddError s (Some ErrRecordNotFound) w = Some (r, w') ∧
     dbs w' !! s = Some h' ∧ DB.RecordNotFound h' = true) ∧
  (isErrors e = false → e ≠ ErrRecordNotFound →
   ErrRecordNotFound ∉ DB.GetErrors h →
   ∃ r h' w',
     DB.AddError s (Some e) w = Some (r, w') ∧ dbs w' !! s = Some h' ∧
     DB.Error h' ≠ None ∧ DB.RecordNotFound h' = false).
Proof.
  intros Hs.
  assert (Hlt : s < length (dbs w)) by by eapply lookup_lt_Some.
  split; [apply RecordNotFound_elem|]. split.
  - eexists _, (set_err (Some ErrRecordNotFound) h), _.
    split; [by rewrite (AddError_run _ _ _ _ Hs)|].
    split; [by apply list_lookup_insert_eq|done].
  - intros He Hne Hnot.
    destruct (error_eqb e ErrRecordNotFound) eqn:E.
    { by apply error_eqb_sentinel in E. }
    eexists _, (set_err (addedError h (Some e)) h), _.
    split; [by rewrite (AddError_run _ _ _ _ Hs)|].
    split; [by apply list_lookup_insert_eq|]. split.
    + unfold DB.Error, addedError. cbn. by rewrite E.
    + apply not_true_is_false. rewrite RecordNotFound_elem.
      rewrite GetErrors_added by done.
      intros [Hin | Heq]%Errors_Add_elem; [done|]. by subst.
Qed.

Lemma RecordNotFound_sentinel_witness :
  ∃ r h' w',
    DB.AddError 0 (Some (ErrOther "syntax error")) (opened []) = Some (r, w') ∧
    dbs w' !! 0 = Some h' ∧ DB.Error h' ≠ None ∧ DB.RecordNotFound h' = false.
Proof.
  apply (proj2 (proj2 (RecordNotFound_sentinel (opened []) 0 root0
                         (ErrOther "syntax error") eq_refl))).
  - reflexivity.
  - discriminate.
  - cbn. apply not_elem_of_nil.
Defined.

(** *** Transactions *)

Lemma guard_activeTx c :
  DB.implementsSqlTx c && negb (DB.isNilInterface c) && negb (DB.isEmptySQLTx c)
  = activeTx c.
Proof. by destruct c as [| |[?|]|? [] ?]. Qed.

Lemma connCall_active c m w :
  activeTx c = true →
  DB.connCall c m w =
    Some (out_err (default (mkOutcome None None) (head (script w))),
          set_script (tail (script w)) (set_connCalls (connCalls w ++ [(c, m)]) w)).
Proof.
  intros Hc. destruct c as [| |[?|]|? [] ?]; try done;
    unfold DB.connCall, nextOutcome; munfold; cbn;
    destruct (script w) eqn:E; cbn; try done;
    unfold set_script, set_connCalls; cbn; by rewrite E.
Qed.

Lemma AddError_elem w s h e :
  dbs w !! s = Some h → isErrors e = false →
  e ≠ ErrRecordNotFound →
  ∃ r h' w',
    DB.AddError s (Some e) w = Some (r, w') ∧ dbs w' !! s = Some h' ∧
    e ∈ DB.GetErrors h' ∧ connCalls w' = connCalls w ∧ script w' = script w.
Proof.
  intros Hs He Hne.
  assert (Hlt : s < length (dbs w)) by by eapply lookup_lt_Some.
  destruct (error_eqb e ErrRecordNotFound) eqn:E.
  { by apply error_eqb_sentinel in E. }
  eexists _, (set_err (addedError h (Some e)) h), _.
  split; [by rewrite (AddError_run _ _ _ _ Hs)|].
  split; [by apply list_lookup_insert_eq|].
  rewrite GetErrors_added by done. split; [by apply Errors_Add_last|done].
Qed.

Lemma AddError_total w s h eo :
  dbs w !! s = Some h → is_Some (DB.AddError s eo w).
Proof. intros Hs. rewrite (AddError_run _ _ _ _ Hs). eauto. Qed.

Lemma tx_end_total (m : connMethod) w s h :
  dbs w !! s = Some h →
  is_Some (((if activeTx (db h)
             then r ← DB.connCall (db h) m; DB.AddError s r
             else DB.AddError s (Some ErrInvalidTransaction)) ;; mret s) w).
Proof.
  intros Hs. unfold mbind, M_bind. destruct (activeTx (db h)) eqn:Ha.
  - rewrite (connCall_active _ _ _ Ha).
    erewrite AddError_run by (cbn; exact Hs). eauto.
  - rewrite (AddError_run _ _ _ _ Hs). eauto.
Qed.

Lemma tx_end_invalid (m : connMethod) w s h :
  dbs w !! s = Some h → activeTx (db h) = false →
  ∃ h' w',
    ((if activeTx (db h)
      then r ← DB.connCall (db h) m; DB.AddError s r
      else DB.AddError s (Some ErrInvalidTransaction)) ;; mret s) w = Some (s, w') ∧
    dbs w' !! s = Some h' ∧
    ErrInvalidTransaction ∈ DB.GetErrors h' ∧ connCalls w' = connCalls w.
Proof.
  intros Hs Ha. rewrite Ha.
  destruct (AddError_elem w s h ErrInvalidTransaction Hs eq_refl)
    as (r & h' & w' & Hrun & Hh' & Hin & Hcalls & _); [done|].
  exists h', w'. unfold mbind, M_bind. rewrite Hrun. done.
Qed.

(** C2: [Commit] and [Rollback] never panic.  On a handle whose
    connection is not an active, non-nil transaction handle (a plain
    [*sql.DB], the nil interface, the nil [*sql.Tx] a failed [Begin] leaves
    behind, a connection type without [Commit]/[Rollback]) they return the
    receiver with [ErrInvalidTransaction] among its errors and make no call
    on the connection. *)
Theorem Commit_Rollback_guard w s h :
  dbs w !! s = Some h →
  (is_Some (DB.Commit s w) ∧ is_Some (DB.Rollback s w)) ∧
  (activeTx (db h) = false →
   (∃ h' w', DB.Commit s w = Some (s, w') ∧ dbs w' !! s = Some h' ∧
      ErrInvalidTransaction ∈ DB.GetErrors h' ∧ connCalls w' = connCalls w) ∧
   (∃ h' w', DB.Rollback s w = Some (s, w') ∧ dbs w' !! s = Some h' ∧
      ErrInvalidTransaction ∈ DB.GetErrors h' ∧ connCalls w' = connCalls w)).
Proof.
  intros Hs. unfold DB.Commit, DB.Rollback.
  rewrite !(run_bind _ _ _ _ _ (run_get dbs s w h Hs)), guard_activeTx.
  split; [split; by apply tx_end_total|].
  intros Ha. split; by apply tx_end_invalid.
Qed.

Lemma Commit_Rollback_guard_witness :
  ∃ h' w', DB.Commit 0 (opened []) = Some (0, w') ∧ dbs w' !! 0 = Some h' ∧
    ErrInvalidTransaction ∈ DB.GetErrors h' ∧ connCalls w' = connCalls (opened []).
Proof.
  exact (proj1 (proj2 (Commit_Rollback_guard (opened []) 0 root0 eq_refl) eq_refl)).
Defined.

(** A transaction that starts and commits: the clone's connection becomes
    the transaction, its own dialect is rebound to it, the root's dialect
    stays bound to the database, and both calls reach the connection. *)
Example Begin_then_Commit :
  ('(r, w) ← (tx ← DB.Begin 0; DB.Commit tx) (opened []);
   h ← dbs w !! r; d ← dialect h; dl ← dialects w !! d; root ← dialects w !! 0;
   Some (db h, DB.Error h, dialect_db dl, dialect_db root, connCalls w))
  = Some (SqlTx (Some 1), None, SqlTx (Some 1), SqlDB (Some 0),
          [(SqlDB (Some 0), mBegin); (SqlTx (Some 1), mCommit)]).
Proof. vm_compute. reflexivity. Qed.

(** A [Begin] that fails leaves the nil [*sql.Tx] on the clone; [Commit]
    on it does not touch the connection again. *)
Example failed_Begin_then_Commit :
  ('(r, w) ← (tx ← DB.Begin 0; DB.Commit tx)
               (opened [mkOutcome (Some (ErrOther "connection refused")) None]);
   h ← dbs w !! r;
   Some (db h, DB.Error h, connCalls w))
  = Some (SqlTx None,
          Some (Errors [ErrOther "connection refused"; ErrInvalidTransaction]),
          [(SqlDB (Some 0), mBegin)]).
Proof. vm_compute. reflexivity. Qed.

(** *** Cloning and the condition-building calls *)

Lemma wf_handle_check w h : wf_handleb w h = true → wf_handle w h.
Proof.
  unfold wf_handleb, wf_handle. rewrite !andb_true_iff.
  intros [[Hd Hv] Hp]. split; [|split].
  - destruct (dialect h) as [d|]; [|done]. exists d. split; [done|].
    apply lookup_lt_is_Some. by apply bool_decide_eq_true in Hd.
  - intros m Hm. rewrite Hm in Hv. apply lookup_lt_is_Some.
    by apply bool_decide_eq_true in Hv.
  - intros p Hp'. rewrite Hp' in Hp. apply lookup_lt_is_Some.
    by apply bool_decide_eq_true in Hp.
Qed.

Lemma builder_run b w s h :
  dbs w !! s = Some h → wf_handle w h →
  call b s w = Some (length (dbs w), built b w h).
Proof.
  intros Hs Hwf.
  destruct b; cbn [call];
    unfold DB.Where, DB.Or, DB.Not, DB.Limit, DB.Offset, DB.Order, DB.Select,
      DB.Omit, DB.Group, DB.Having, DB.Joins, DB.Preload, DB.Attrs, DB.Assign,
      DB.Unscoped, DB.Table, DB.Raw, DB.Model;
    rewrite (run_bind _ _ _ _ _ (Clone_run w s h Hs Hwf));
    unfold DB.searchOf, DB.dbOf, Search_db, DB.Search, DB.SetValue,
      Search_Where, Search_Or, Search_Not, Search_Limit, Search_Offset,
      Search_Order, Search_Select, Search_Omit, Search_Group, Search_Having,
      Search_Joins, Search_Preload, Search_Attrs, Search_Assign,
      Search_unscoped, Search_Table, Search_Raw, onSearch;
    munfold; heap_simpl; done.
Qed.

Lemma conditionSet_app w w' h k :
  wf_handle w h → searches w' = searches w ++ k →
  conditionSet w' h = conditionSet w h.
Proof.
  intros (_ & _ & Hp) Hk. unfold conditionSet.
  destruct (search h) as [p|]; [|done]. cbn.
  destruct (Hp p eq_refl) as [x Hx]. rewrite Hk, Hx.
  by apply lookup_app_l_Some.
Qed.

Lemma wf_handle_built b w h :
  wf_handle (built b w h) (set_value (targetValue b (value h)) (clonedDB w h)).
Proof.
  split; [|split]; cbn.
  - eexists. split; [done|]. rewrite lookup_snoc_new. eauto.
  - intros m [= <-]. rewrite lookup_snoc_new. eauto.
  - intros p [= <-]. rewrite lookup_snoc_new. eauto.
Qed.

Lemma wf_handle_grow w w' h :
  wf_handle w h →
  (∃ k, dialects w' = dialects w ++ k) →
  (∃ k, settings w' = settings w ++ k) →
  (∃ k, searches w' = searches w ++ k) →
  wf_handle w' h.
Proof.
  intros ((d & Hd & [x Hx]) & Hv & Hp) [k1 H1] [k2 H2] [k3 H3].
  split; [|split].
  - exists d. split; [done|]. rewrite H1, (lookup_app_l_Some _ _ _ _ Hx). eauto.
  - intros m Hm. destruct (Hv m Hm) as [y Hy].
    rewrite H2, (lookup_app_l_Some _ _ _ _ Hy). eauto.
  - intros p Hp'. destruct (Hp p Hp') as [y Hy].
    rewrite H3, (lookup_app_l_Some _ _ _ _ Hy). eauto.
Qed.

Lemma conditionSet_built b w h :
  conditionSet (built b w h) (set_value (targetValue b (value h)) (clonedDB w h))
  = Some (mutation b (clonedSearch w h)).
Proof. unfold conditionSet. cbn. by rewrite lookup_snoc_new. Qed.

(** C1, as the code has it: every condition-building call returns a new
    handle [c] and touches no object that existed before.  The clone's
    condition set is a new object: a copy of the receiver's (or the empty
    set with limit and offset -1) with the call's mutation applied.  The
    connection and the parent are the receiver's; the dialect is not: it
    is a new object that [newDialect] builds from the receiver's dialect
    name and connection.  Consequently a mutation of the clone's condition
    set leaves the receiver's condition set as it was, a mutation of the
    receiver's leaves the clone's as it was, and so does any further
    condition-building call through either handle. *)
Theorem builder_clone_isolation (b : builderCall) w s h :
  dbs w !! s = Some h → wf_handle w h →
  ∃ c w1 ch x,
    call b s w = Some (c, w1) ∧
    c = length (dbs w) ∧ dbs w1 = dbs w ++ [ch] ∧
    search ch = Some (length (searches w)) ∧ searches w1 = searches w ++ [x] ∧
    x = mutation b (withSearchDB (Some c) (default emptySearch (conditionSet w h))) ∧
    db ch = db h ∧ parent ch = parent h ∧
    dialect ch = Some (length (dialects w)) ∧ dialect ch ≠ dialect h ∧
    dialects w1 = dialects w ++ [mkDialect (dialectName w h) (db h)] ∧
    conditionSet w1 h = conditionSet w h ∧
    (∀ f : Search → Search, ∃ w2,
       (p ← DB.searchOf c; onSearch f p) w1 = Some (length (searches w), w2) ∧
       conditionSet w2 ch = Some (f x) ∧ conditionSet w2 h = conditionSet w h) ∧
    (∀ (f : Search → Search) p y, search h = Some p → searches w !! p = Some y →
       ∃ w2, onSearch f p w1 = Some (p, w2) ∧
       conditionSet w2 h = Some (f y) ∧ conditionSet w2 ch = Some x) ∧
    (∀ b2, ∃ c2 w2, call b2 c w1 = Some (c2, w2) ∧
       dbs w2 !! s = Some h ∧ conditionSet w2 h = conditionSet w h ∧
       dbs w2 !! c = Some ch ∧ conditionSet w2 ch = Some x) ∧
    (∀ b2, ∃ c2 w2, call b2 s w1 = Some (c2, w2) ∧
       dbs w2 !! s = Some h ∧ conditionSet w2 h = conditionSet w h ∧
       dbs w2 !! c = Some ch ∧ conditionSet w2 ch = Some x).
Proof.
  intros Hs Hwf.
  pose proof Hwf as ((d & Hd & Hdl) & Hv & Hp).
  set (ch := set_value (targetValue b (value h)) (clonedDB w h)).
  assert (Hc : dbs (built b w h) !! length (dbs w) = Some ch)
    by apply lookup_snoc_new.
  assert (Hs1 : dbs (built b w h) !! s = Some h)
    by by apply lookup_app_l_Some.
  assert (Hwf1 : wf_handle (built b w h) h).
  { eapply wf_handle_grow; [done|..]; cbn; eauto. }
  assert (Hcs1 : conditionSet (built b w h) h = conditionSet w h).
  { by eapply conditionSet_app. }
  exists (length (dbs w)), (built b w h), ch, (mutation b (clonedSearch w h)).
  split; [by apply builder_run|].
  do 5 (split; [done|]). do 3 (split; [done|]).
  split. { rewrite Hd. cbn. intros [= E]. apply lookup_lt_is_Some in Hdl. lia. }
  split; [done|]. split; [done|]. split; [|split; [|split]].
  - intros f. eexists. split.
    + unfold DB.searchOf, onSearch, DB.Search. munfold. heap_simpl. done.
    + split.
      * unfold conditionSet. cbn. by rewrite lookup_snoc_new.
      * unfold conditionSet. destruct (search h) as [p|]; [|done]. cbn.
        destruct (Hp p eq_refl) as [y Hy].
        rewrite (lookup_app_l_Some _ _ _ _ Hy). done.
  - intros f p y Hsp Hy. eexists. split.
    + unfold onSearch. munfold. heap_simpl. done.
    + assert (p < length (searches w)) by by eapply lookup_lt_Some.
      split; unfold conditionSet; cbn; rewrite ?Hsp; cbn.
      * rewrite insert_snoc_old by done.
        rewrite lookup_app_l by by rewrite length_insert.
        by apply list_lookup_insert_eq.
      * rewrite list_lookup_insert_ne by lia. apply lookup_snoc_new.
  - intros b2. eexists _, _. split.
    { apply builder_run; [exact Hc|apply wf_handle_built]. }
    split; [by apply lookup_app_l_Some|].
    split.
    { rewrite <- Hcs1. eapply conditionSet_app; [done|]. cbn. done. }
    split; [by apply lookup_app_l_Some|].
    rewrite <- (conditionSet_built b w h).
    eapply conditionSet_app; [apply wf_handle_built|]. cbn. done.
  - intros b2. eexists _, _. split.
    { apply builder_run; [exact Hs1|done]. }
    split; [by apply lookup_app_l_Some|].
    split.
    { rewrite <- Hcs1. eapply conditionSet_app; [done|]. cbn. done. }
    split; [by apply lookup_app_l_Some|].
    rewrite <- (conditionSet_built b w h).
    eapply conditionSet_app; [apply wf_handle_built|]. cbn. done.
Qed.

Lemma builder_clone_isolation_witness :
  ∃ c w1, call (bWhere (Str "age > ?") [Int 30]) 0 (opened []) = Some (c, w1) ∧
    conditionSet w1 root0 = conditionSet (opened []) root0.
Proof.
  destruct (builder_clone_isolation (bWhere (Str "age > ?") [Int 30])
              (opened []) 0 root0 eq_refl (wf_handle_check (opened []) root0 eq_refl))
    as (c & w1 & ch & x & H1 & _ & _ & _ & _ & _ & _ & _ & _ & _ & _ & H2 & _).
  exact (ex_intro _ c (ex_intro _ w1 (conj H1 H2))).
Defined.

(** Against C1 as stated: the dialect of the handle [Where] returns is
    not the receiver's dialect object. *)
Lemma clone_dialect_not_shared :
  ∃ c w1 ch,
    DB.Where 0 (Str "age > ?") [Int 30] (opened []) = Some (c, w1) ∧
    dbs w1 !! c = Some ch ∧
    dialect root0 = Some 0 ∧ dialect ch = Some 1.
Proof. eexists _, _, _. vm_compute. done. Qed.

(** C10: [Clone], and with it every condition-building call, returns a
    handle whose rowsAffected is 0 whatever the receiver's was; the error,
    the settings entries, the log mode and the block-global-update flag of
    the receiver are carried over, and so is the value ([Table] then sets
    it to nil and [Model] to its argument). *)
Theorem Clone_resets_rowsAffected (b : builderCall) w s h :
  dbs w !! s = Some h → wf_handle w h →
  (∃ c w1 ch,
     DB.Clone s w = Some (c, w1) ∧ dbs w1 !! c = Some ch ∧
     DB.RowsAffected ch = 0%Z ∧
     DB.Error ch = DB.Error h ∧ DB.Value ch = DB.Value h ∧
     settingsOf w1 ch = settingsOf w h ∧ logMode ch = logMode h ∧
     DB.HasBlockGlobalUpdate ch = DB.HasBlockGlobalUpdate h) ∧
  (∃ c w1 ch,
     call b s w = Some (c, w1) ∧ dbs w1 !! c = Some ch ∧
     DB.RowsAffected ch = 0%Z ∧
     DB.Error ch = DB.Error h ∧ DB.Value ch = targetValue b (DB.Value h) ∧
     settingsOf w1 ch = settingsOf w h ∧ logMode ch = logMode h ∧
     DB.HasBlockGlobalUpdate ch = DB.HasBlockGlobalUpdate h).
Proof.
  intros Hs Hwf. split.
  - exists (length (dbs w)), (cloned w h), (clonedDB w h).
    split; [by apply Clone_run|]. split; [apply lookup_snoc_new|].
    do 3 (split; [done|]). split; [|done].
    unfold settingsOf at 1. cbn. by rewrite lookup_snoc_new.
  - exists (length (dbs w)), (built b w h),
      (set_value (targetValue b (value h)) (clonedDB w h)).
    split; [by apply builder_run|]. split; [apply lookup_snoc_new|].
    do 3 (split; [done|]). split; [|done].
    unfold settingsOf at 1. cbn. by rewrite lookup_snoc_new.
Qed.

Lemma Set_run w s h name v :
  dbs w !! s = Some h → wf_handle w h →
  DB.Set_ s name v w =
    Some (length (dbs w),
          set_settings (settings w ++ [<[name := v]> (settingsOf w h)]) (cloned w h)).
Proof.
  intros Hs Hwf. unfold DB.Set_.
  rewrite (run_bind _ _ _ _ _ (Clone_run w s h Hs Hwf)).
  unfold DB.InstantSet. munfold. heap_simpl. done.
Qed.

Lemma InstantSet_run w s h m vals name v :
  dbs w !! s = Some h → values h = Some m → settings w !! m = Some vals →
  DB.InstantSet s name v w =
    Some (s, set_settings (<[m := <[name := v]> vals]> (settings w)) w).
Proof.
  intros Hs Hm Hvals. unfold DB.InstantSet. munfold. heap_simpl.
  rewrite Hm. heap_simpl. done.
Qed.

Lemma Get_run w s h name :
  dbs w !! s = Some h → wf_handle w h →
  DB.Get s name w =
    Some (match settingsOf w h !! name with
          | Some x => (x, true)
          | None => (Nil, false)
          end, w).
Proof.
  intros Hs (_ & Hv & _). unfold DB.Get, settingsOf. munfold. heap_simpl.
  destruct (values h) as [m|]; [|done].
  destruct (Hv m eq_refl) as [vals Hvals]. heap_simpl.
  by destruct (vals !! name).
Qed.

(** C9: [Set] returns a new handle whose settings are the receiver's plus
    the new entry, and leaves the receiver and its settings as they were;
    [Get] on the returned handle yields the value and true.  [InstantSet]
    returns the receiver itself and writes the entry into the receiver's
    own settings map, allocating nothing.  [Get] changes nothing and
    reports a missing name through its second result. *)
Theorem settings_protocol w s h (name : string) (v : iface) :
  dbs w !! s = Some h → wf_handle w h →
  (∃ c w1 ch,
     DB.Set_ s name v w = Some (c, w1) ∧ c ≠ s ∧
     dbs w1 !! s = Some h ∧ settingsOf w1 h = settingsOf w h ∧
     dbs w1 !! c = Some ch ∧
     settingsOf w1 ch = <[name := v]> (settingsOf w h) ∧
     DB.Get c name w1 = Some ((v, true), w1)) ∧
  (∀ m vals, values h = Some m → settings w !! m = Some vals →
     ∃ w1,
       DB.InstantSet s name v w = Some (s, w1) ∧
       dbs w1 = dbs w ∧
       settings w1 = <[m := <[name := v]> vals]> (settings w) ∧
       settingsOf w1 h = <[name := v]> (settingsOf w h)) ∧
  (∃ r, DB.Get s name w = Some (r, w) ∧
     r = match settingsOf w h !! name with
         | Some x => (x, true)
         | None => (Nil, false)
         end).
Proof.
  intros Hs Hwf. pose proof Hwf as (_ & Hv & _).
  assert (Hlt : s < length (dbs w)) by by eapply lookup_lt_Some.
  split; [|split].
  - set (w1 := set_settings (settings w ++ [<[name := v]> (settingsOf w h)])
                 (cloned w h)).
    assert (Hc : dbs w1 !! length (dbs w) = Some (clonedDB w h))
      by apply lookup_snoc_new.
    assert (Hset : settingsOf w1 (clonedDB w h) = <[name := v]> (settingsOf w h)).
    { unfold settingsOf at 1. cbn. by rewrite lookup_snoc_new. }
    exists (length (dbs w)), w1, (clonedDB w h).
    split; [by apply Set_run|]. split; [lia|].
    split; [by apply lookup_app_l_Some|]. split.
    { unfold settingsOf. destruct (values h) as [m|]; [|done].
      destruct (Hv m eq_refl) as [vals Hvals]. cbn.
      by rewrite (lookup_app_l_Some _ _ _ _ Hvals), Hvals. }
    split; [done|]. split; [done|].
    rewrite (Get_run w1 _ _ name Hc).
    + by rewrite Hset, lookup_insert_eq.
    + split; [|split]; cbn.
      * eexists. split; [done|]. rewrite lookup_snoc_new. eauto.
      * intros m [= <-]. rewrite lookup_snoc_new. eauto.
      * intros p [= <-]. rewrite lookup_snoc_new. eauto.
  - intros m vals Hm Hvals. eexists.
    split; [by eapply InstantSet_run|]. split; [done|]. split; [done|].
    unfold settingsOf. rewrite Hm. cbn. rewrite Hvals.
    rewrite list_lookup_insert_eq by by eapply lookup_lt_Some. done.
  - eexists. split; [by apply Get_run|done].
Qed.

Lemma Clone_resets_rowsAffected_witness :
  ∃ c w1 ch,
    DB.Clone 0 (opened []) = Some (c, w1) ∧ dbs w1 !! c = Some ch ∧
    DB.RowsAffected ch = 0%Z.
Proof.
  destruct (proj1 (Clone_resets_rowsAffected bUnscoped (opened []) 0 root0 eq_refl
                     (wf_handle_check (opened []) root0 eq_refl)))
    as (c & w1 & ch & H1 & H2 & H3 & _).
  exact (ex_intro _ c (ex_intro _ w1 (ex_intro _ ch (conj H1 (conj H2 H3))))).
Defined.

Lemma settings_protocol_witness :
  ∃ c w1,
    DB.Set_ 0 "gorm:table_options" (Str "ENGINE=InnoDB") (opened []) = Some (c, w1) ∧
    c ≠ 0 ∧ dbs w1 !! 0 = Some root0 ∧
    settingsOf w1 root0 = settingsOf (opened []) root0.
Proof.
  destruct (proj1 (settings_protocol (opened []) 0 root0 "gorm:table_options"
                     (Str "ENGINE=InnoDB") eq_refl (wf_handle_check (opened []) root0 eq_refl)))
    as (c & w1 & ch & H1 & H2 & H3 & H4 & _).
  exact (ex_intro _ c (ex_intro _ w1 (conj H1 (conj H2 (conj H3 H4))))).
Defined.

(** *** The callback registry *)

Lemma parentCallbacks_run w s h p ph r reg :
  dbs w !! s = Some h → parent h = Some p → dbs w !! p = Some ph →
  callbacks ph = Some r → registries w !! r = Some reg →
  DB.parentCallbacks s w = Some (reg, w).
Proof.
  intros Hs Hp Hph Hr Hreg. unfold DB.parentCallbacks, DB.Parent, DB.Callbacks.
  munfold. heap_simpl. rewrite Hp. heap_simpl. rewrite Hr. heap_simpl. done.
Qed.

Lemma Callback_run w s h p ph r reg :
  dbs w !! s = Some h → parent h = Some p → dbs w !! p = Some ph →
  callbacks ph = Some r → registries w !! r = Some reg →
  DB.Callback s w =
    Some (Some (length (registries w)),
          set_dbs (<[p := set_callbacks (Some (length (registries w))) ph]> (dbs w))
            (set_registries (registries w ++ [reg]) w)).
Proof.
  intros Hs Hp Hph Hr Hreg.
  assert (p < length (dbs w)) by by eapply lookup_lt_Some.
  unfold DB.Callback, DB.Callbacks, Callback_clone, DB.SetCallbacks.
  munfold. heap_simpl. rewrite Hp. heap_simpl. rewrite Hr. heap_simpl.
  rewrite list_lookup_insert_eq by done. done.
Qed.

Lemma lookup_parent_after (l : list gormDB) p ph ph' s h :
  l !! p = Some ph → parent ph' = parent ph → l !! s = Some h →
  ∃ h', <[p := ph']> l !! s = Some h' ∧ parent h' = parent h.
Proof.
  intros Hp Hpar Hs. destruct (decide (p = s)) as [Heq|Hne].
  - exists ph'. subst s. split; [|congruence].
    apply list_lookup_insert_eq. by eapply lookup_lt_Some.
  - exists h. by rewrite list_lookup_insert_ne.
Qed.

(** C7, as the code has it: for two handles [s1] and [s2] with the same
    parent, [s1.Callback()] installs a copy of the parent's registry on
    that shared parent and returns it.  A mutation of the returned registry
    is therefore seen by the operations run through [s2]; what stays as it
    was is the registry object installed before, and with it every handle
    of another root that still refers to that object. *)
Theorem Callback_installs_on_parent w s1 s2 h1 h2 p ph r reg (f : Callback → Callback) :
  dbs w !! s1 = Some h1 → dbs w !! s2 = Some h2 →
  parent h1 = Some p → parent h2 = Some p →
  dbs w !! p = Some ph → callbacks ph = Some r → registries w !! r = Some reg →
  ∃ new w1,
    DB.Callback s1 w = Some (Some new, w1) ∧
    new = length (registries w) ∧ registries w1 = registries w ++ [reg] ∧
    DB.parentCallbacks s2 w1 = Some (reg, w1) ∧
    ∃ w2,
      updRegistry new f w1 = Some ((), w2) ∧
      DB.parentCallbacks s2 w2 = Some (f reg, w2) ∧
      registries w2 !! r = Some reg ∧
      (∀ s3 h3 p3 ph3,
         dbs w !! s3 = Some h3 → parent h3 = Some p3 → p3 ≠ p →
         dbs w !! p3 = Some ph3 → callbacks ph3 = Some r →
         DB.parentCallbacks s3 w2 = Some (reg, w2)).
Proof.
  intros Hs1 Hs2 Hp1 Hp2 Hph Hr Hreg.
  assert (Hplt : p < length (dbs w)) by by eapply lookup_lt_Some.
  assert (Hrlt : r < length (registries w)) by by eapply lookup_lt_Some.
  set (ph' := set_callbacks (Some (length (registries w))) ph).
  eexists _, _. split; [by eapply Callback_run|].
  split; [done|]. split; [done|].
  destruct (lookup_parent_after (dbs w) p ph ph' s2 h2 Hph eq_refl Hs2)
    as (h2' & Hs2' & Hp2').
  rewrite Hp2 in Hp2'.
  split.
  { eapply parentCallbacks_run; cbn;
      [exact Hs2'|exact Hp2'|by apply list_lookup_insert_eq|reflexivity|].
    apply lookup_snoc_new. }
  eexists. split.
  { unfold updRegistry. cbn. rewrite lookup_snoc_new. done. }
  split; [|split].
  - eapply parentCallbacks_run; cbn;
      [exact Hs2'|exact Hp2'|by apply list_lookup_insert_eq|reflexivity|].
    rewrite insert_snoc_new. apply lookup_snoc_new.
  - cbn. rewrite insert_snoc_new. by apply lookup_app_l_Some.
  - intros s3 h3 p3 ph3 Hs3 Hp3 Hne Hph3 Hr3.
    destruct (lookup_parent_after (dbs w) p ph ph' s3 h3 Hph eq_refl Hs3)
      as (h3' & Hs3' & Hp3').
    rewrite Hp3 in Hp3'.
    eapply parentCallbacks_run; cbn;
      [exact Hs3'|exact Hp3'|by rewrite list_lookup_insert_ne|exact Hr3|].
    rewrite insert_snoc_new. by apply lookup_app_l_Some.
Qed.

Lemma Callback_installs_on_parent_witness :
  ∃ new w1,
    DB.Callback 0 (opened []) = Some (Some new, w1) ∧
    new = length (registries (opened [])) ∧
    DB.parentCallbacks 0 w1 = Some (sampleChains, w1).
Proof.
  destruct (Callback_installs_on_parent (opened []) 0 0 root0 root0 0 root0 0
              sampleChains (registered kQuery "audit")
              eq_refl eq_refl eq_refl eq_refl eq_refl eq_refl eq_refl)
    as (new & w1 & H1 & H2 & _ & H3 & _).
  exact (ex_intro _ new (ex_intro _ w1 (conj H1 (conj H2 H3)))).
Defined.

(** Against C7 as stated: two clones of one root; a step registered
    through the registry that [h1.Callback()] returned is in the query
    chain the operations of [h2] read. *)
Lemma Callback_mutation_reaches_sibling :
  fst <$> (h1 ← DB.Clone 0;
           h2 ← DB.Clone 0;
           r ← DB.Callback h1;
           r ← nonnil r;
           before ← DB.parentCallbacks h2;
           Callback_Register r kQuery "audit" ;;
           after ← DB.parentCallbacks h2;
           mret (h1, h2, queries before, queries after)) (opened [])
  = Some (1, 2, ["build-select-sql"; "execute"; "preload"],
          ["build-select-sql"; "execute"; "preload"; "audit"]).
Proof. vm_compute. reflexivity. Qed.

(** *** Scopes, chains and terminal operations *)

Lemma sameSkeleton_refl a : sameSkeleton a a.
Proof. done. Qed.

Lemma sameSkeleton_trans a b c : sameSkeleton a b → sameSkeleton b c → sameSkeleton a c.
Proof. unfold sameSkeleton. congruence. Qed.

Lemma sameSkeleton_reported ch o : sameSkeleton ch (reported ch o).
Proof. unfold reported. by destruct (out_rows o). Qed.

Lemma sameSkeleton_fields a b :
  sameSkeleton a b →
  value a = value b ∧ db a = db b ∧ search a = search b ∧ values a = values b ∧
  parent a = parent b ∧ callbacks a = callbacks b ∧ dialect a = dialect b ∧
  logMode a = logMode b ∧ blockGlobalUpdate a = blockGlobalUpdate b.
Proof.
  unfold sameSkeleton. intros H.
  repeat split;
    [ apply (f_equal value) in H | apply (f_equal db) in H
    | apply (f_equal search) in H | apply (f_equal values) in H
    | apply (f_equal parent) in H | apply (f_equal callbacks) in H
    | apply (f_equal dialect) in H | apply (f_equal logMode) in H
    | apply (f_equal blockGlobalUpdate) in H ]; exact H.
Qed.

Lemma report_run w sc ch o :
  dbs w !! scope_db sc = Some ch →
  DB.report sc o w =
    Some ((), set_printed (printed w ++ addedLog ch (out_err o))
                (set_dbs (<[scope_db sc := reported ch o]> (dbs w)) w)).
Proof.
  intros Hc. assert (scope_db sc < length (dbs w)) by by eapply lookup_lt_Some.
  unfold DB.report, reported.
  rewrite (run_bind _ _ _ _ _ (AddError_run _ _ _ _ Hc)).
  destruct (out_rows o) as [n|]; [|done].
  unfold DB.SetRowsAffected. munfold. cbn.
  rewrite list_lookup_insert_eq by done. cbn.
  by rewrite list_insert_insert_eq.
Qed.

Lemma nextOutcome_run w :
  nextOutcome w = Some (default (mkOutcome None None) (head (script w)),
                        set_script (tail (script w)) w).
Proof.
  unfold nextOutcome. destruct w as [? ? ? ? ? scr ? ? ?]; cbn.
  by destruct scr.
Qed.

Lemma callCallbacks_run funcs : ∀ sc w ch snap,
  dbs w !! scope_db sc = Some ch → searches w !! scope_Search sc = Some snap →
  ∃ ch' lg scr,
    DB.callCallbacks funcs sc w =
      Some (sc, mkWorld (<[scope_db sc := ch']> (dbs w)) (searches w) (settings w)
                  (registries w) (dialects w) scr (connCalls w) (printed w ++ lg)
                  (trace w ++ chainEvents funcs sc snap)) ∧
    sameSkeleton ch ch'.
Proof.
  induction funcs as [|f rest IH]; intros sc w ch snap Hc Hsnap.
  - exists ch, [], (script w). split; [|done]. cbn.
    rewrite list_insert_id, !app_nil_r by done. by destruct w.
  - cbn [DB.callCallbacks]. unfold DB.observe.
    unfold getSearch. rewrite (run_bind _ _ _ _ _ (run_bind _ _ _ _ _ (run_get _ _ _ _ Hsnap))).
    unfold record. unfold mbind at 1, M_bind at 1. cbn [fst snd].
    rewrite nextOutcome_run.
    set (o := default (mkOutcome None None) _).
    erewrite run_bind by (apply report_run; cbn; exact Hc).
    assert (Hlt : scope_db sc < length (dbs w)) by by eapply lookup_lt_Some.
    edestruct (IH sc) as (ch' & lg & scr & Hrun & Hsk); [| |rewrite Hrun].
    { cbn. by apply list_lookup_insert_eq. }
    { cbn. exact Hsnap. }
    exists ch', (addedLog ch (out_err o) ++ lg), scr. split.
    + cbn. rewrite list_insert_insert_eq, <- !app_assoc. done.
    + eapply sameSkeleton_trans; [apply sameSkeleton_reported|done].
Qed.

Lemma observe_run call sc w snap :
  searches w !! scope_Search sc = Some snap →
  DB.observe call sc w = Some ((), set_trace (trace w ++ [mkEvent call sc snap]) w).
Proof. intros H. unfold DB.observe. munfold. by rewrite H. Qed.

Lemma schema_run op sc w ch snap :
  dbs w !! scope_db sc = Some ch → searches w !! scope_Search sc = Some snap →
  ∃ ch' lg scr,
    DB.schema op sc w =
      Some (sc, mkWorld (<[scope_db sc := ch']> (dbs w)) (searches w) (settings w)
                  (registries w) (dialects w) scr (connCalls w) (printed w ++ lg)
                  (trace w ++ [mkEvent (CallSchema op) sc snap])) ∧
    sameSkeleton ch ch'.
Proof.
  intros Hc Hsnap. unfold DB.schema.
  rewrite (run_bind _ _ _ _ _ (observe_run _ _ _ _ Hsnap)).
  unfold mbind at 1, M_bind at 1. rewrite nextOutcome_run.
  set (o := default (mkOutcome None None) _).
  erewrite run_bind by (apply report_run; cbn; exact Hc).
  eexists _, _, _. split; [reflexivity|]. apply sameSkeleton_reported.
Qed.


Lemma NewScope_run w s h v :
  dbs w !! s = Some h → wf_handle w h →
  DB.NewScope s v w = Some (scopeOf w v, scoped w h v).
Proof.
  intros Hs Hwf. unfold DB.NewScope.
  rewrite (run_bind _ _ _ _ _ (Clone_run w s h Hs Hwf)).
  unfold DB.SetValue, DB.searchOf, DB.Search, Search_clone. munfold. heap_simpl.
  unfold scopeOf, scoped. by rewrite snoc2, length_snoc.
Qed.

Lemma rooted_grow w w' h reg :
  rooted w h reg →
  (∃ k, dbs w' = dbs w ++ k) → (∃ k, registries w' = registries w ++ k) →
  rooted w' h reg.
Proof.
  intros (p & ph & r & Hp & Hph & Hr & Hreg) [k1 H1] [k2 H2].
  exists p, ph, r. rewrite H1, H2.
  repeat split; try done; by apply lookup_app_l_Some.
Qed.

Lemma parentCallbacks_rooted w s h reg :
  dbs w !! s = Some h → rooted w h reg →
  DB.parentCallbacks s w = Some (reg, w).
Proof.
  intros Hs (p & ph & r & Hp & Hph & Hr & Hreg). by eapply parentCallbacks_run.
Qed.

Lemma inlineCondition_run sc where_ w x :
  searches w !! scope_Search sc = Some x →
  DB.inlineCondition sc where_ w =
    Some (sc, set_searches (<[scope_Search sc := inlined where_ x]> (searches w)) w).
Proof.
  intros Hx. destruct where_ as [|query args]; cbn.
  - rewrite list_insert_id by done. by destruct w.
  - unfold Search_Where, onSearch. munfold. by rewrite Hx.
Qed.

Ltac grow :=
  cbn; first [ by eexists
             | by (exists []; rewrite app_nil_r)
             | by (eexists; rewrite <- app_assoc) ].

Lemma First_run w s h reg out where_ :
  dbs w !! s = Some h → wf_handle w h → rooted w h reg →
  ∃ rh lg scr,
    DB.First s out where_ w =
      Some (length (dbs w),
            mkWorld (dbs w ++ [rh])
              (searches w ++ [clonedSearch w h; firstSearch w h where_])
              (settings w ++ [<["gorm:order_by_primary_key" := Str "ASC"]> (settingsOf w h)])
              (registries w)
              (dialects w ++ [mkDialect (dialectName w h) (db h)])
              scr (connCalls w) (printed w ++ lg)
              (trace w ++ chainEvents (queries reg) (scopeOf w out) (firstSearch w h where_))) ∧
    sameSkeleton (set_value out (clonedDB w h)) rh.
Proof.
  intros Hs Hwf Hroot. unfold DB.First.
  rewrite (run_bind _ _ _ _ _ (NewScope_run w s h out Hs Hwf)).
  unfold Search_Limit, onSearch, DB.Scope_Set, DB.InstantSet.
  munfold. heap_simpl.
  erewrite inlineCondition_run by (cbn; apply lookup_snoc2_snd).
  cbn. rewrite insert_snoc2_snd.
  erewrite parentCallbacks_rooted;
    [|cbn; by apply lookup_app_l_Some
     |eapply rooted_grow; [exact Hroot|grow..]].
  edestruct (callCallbacks_run (queries reg) (scopeOf w out)) as (rh & lg & scr & Hrun & Hsk);
    [| |rewrite Hrun].
  { cbn. apply lookup_snoc_new. }
  { cbn. apply lookup_snoc2_snd. }
  exists rh, lg, scr. split; [|done].
  cbn. by rewrite insert_snoc_new.
Qed.

Lemma wf_cloned w h : wf_handle (cloned w h) (clonedDB w h).
Proof.
  split; [|split]; cbn.
  - eexists. split; [done|]. rewrite lookup_snoc_new. eauto.
  - intros m [= <-]. rewrite lookup_snoc_new. eauto.
  - intros p [= <-]. rewrite lookup_snoc_new. eauto.
Qed.

Lemma rooted_parent w a b reg : parent a = parent b → rooted w a reg → rooted w b reg.
Proof. intros Hab (p & ph & r & Hp & H). exists p, ph, r. by rewrite <- Hab. Qed.

Lemma rooted_cloned w h reg : rooted w h reg → rooted (cloned w h) (clonedDB w h) reg.
Proof.
  intros Hr. eapply (rooted_parent _ h); [done|].
  eapply rooted_grow; [done|grow..].
Qed.

Lemma conditionSet_cloned w h :
  conditionSet (cloned w h) (clonedDB w h) = Some (clonedSearch w h).
Proof. unfold conditionSet. cbn. apply lookup_snoc_new. Qed.



Lemma searchOf_run w s h p :
  dbs w !! s = Some h → search h = Some p → DB.searchOf s w = Some (p, w).
Proof.
  intros Hs Hp. unfold DB.searchOf, DB.Search. munfold. by rewrite Hs, Hp.
Qed.


Lemma seeded_inlined base where_ x :
  agrees base x → seeded base where_ (inlined where_ x).
Proof.
  intros (H1 & H2 & H3 & H4). unfold seeded.
  destruct where_ as [|q args]; cbn; by rewrite ?H1.
Qed.

Lemma agrees_clonedSearch base w h x :
  conditionSet w h = Some x → agrees base x → agrees base (clonedSearch w h).
Proof. intros Hx Ha. unfold clonedSearch. by rewrite Hx. Qed.

Lemma agrees_base w h :
  agrees (default emptySearch (conditionSet w h)) (clonedSearch w h).
Proof. done. Qed.

Lemma FirstOrInit_flow w s h reg out where_ :
  dbs w !! s = Some h → wf_handle w h → rooted w h reg →
  let base := default emptySearch (conditionSet w h) in
  ∃ c r w1 rh,
    (c ← DB.Clone s; r ← DB.First c out where_; mret (c, r)) w = Some ((c, r), w1) ∧
    dbs w1 !! r = Some rh ∧ ranFirst w w1 reg out base where_ ∧
    match DB.Error rh with
    | Some _ =>
        if DB.RecordNotFound rh
        then ∃ w2 sc snap,
               DB.FirstOrInit s out where_ w = Some (c, w2) ∧
               trace w2 = trace w1 ++ [mkEvent CallInitialize sc snap] ∧
               scope_Value sc = out ∧ seeded base where_ snap
        else DB.FirstOrInit s out where_ w = Some (r, w1)
    | None =>
        ∃ w2 sc snap,
          DB.FirstOrInit s out where_ w = Some (c, w2) ∧
          trace w2 = trace w1 ++ [mkEvent (CallUpdatedAttrs (assignAttrs base)) sc snap] ∧
          scope_Value sc = out
    end.
Proof.
  intros Hs Hwf Hroot base.
  set (w1 := cloned w h). set (hc := clonedDB w h).
  destruct (First_run w1 (length (dbs w)) hc reg out where_)
    as (rh & lg & scr & Hfirst & Hsk);
    [apply lookup_snoc_new|apply wf_cloned|by apply rooted_cloned|].
  set (w2 := mkWorld _ _ _ _ _ _ _ _ _) in Hfirst.
  assert (Hc2 : dbs w2 !! length (dbs w) = Some hc).
  { cbn. apply lookup_app_l_Some, lookup_snoc_new. }
  assert (Hr2 : dbs w2 !! length (dbs w1) = Some rh) by apply lookup_snoc_new.
  assert (Hwf2 : wf_handle w2 hc).
  { eapply wf_handle_grow; [apply wf_cloned|grow..]. }
  assert (Hcs2 : conditionSet w2 hc = Some (clonedSearch w h)).
  { rewrite <- (conditionSet_cloned w h).
    eapply conditionSet_app; [apply wf_cloned|]. cbn. reflexivity. }
  assert (Hbase2 : agrees base (clonedSearch w2 hc)).
  { eapply agrees_clonedSearch; [exact Hcs2|apply agrees_base]. }
  exists (length (dbs w)), (length (dbs w1)), w2, rh.
  split. { unfold DB.Clone. fold (DB.Clone s).
    rewrite (run_bind _ _ _ _ _ (Clone_run w s h Hs Hwf)).
    by rewrite (run_bind _ _ _ _ _ Hfirst). }
  split; [done|]. split.
  { eexists _, _. split; [reflexivity|]. split; [done|].
    unfold firstSearch. split.
    - by destruct where_.
    - apply seeded_inlined.
      assert (agrees base (clonedSearch w1 hc)) as (H1 & H2 & H3 & H4).
      { eapply agrees_clonedSearch; [apply conditionSet_cloned|apply agrees_base]. }
      done. }
  unfold DB.FirstOrInit.
  rewrite (run_bind _ _ _ _ _ (Clone_run w s h Hs Hwf)).
  rewrite (run_bind _ _ _ _ _ Hfirst).
  rewrite (run_bind _ _ _ _ _ (run_get dbs _ _ _ Hr2)).
  destruct (DB.Error rh) as [e|] eqn:Herr.
  - destruct (DB.RecordNotFound rh) eqn:Hnf; cbn [negb]; [|done].
    rewrite (run_bind _ _ _ _ _ (NewScope_run w2 _ hc out Hc2 Hwf2)).
    erewrite run_bind by (apply inlineCondition_run; cbn; apply lookup_snoc2_snd).
    unfold DB.initialize.
    erewrite run_bind; [|erewrite run_bind; [reflexivity|]].
    2:{ apply observe_run. cbn. rewrite insert_snoc2_snd. apply lookup_snoc2_snd. }
    eexists _, _, _. split; [reflexivity|]. split; [reflexivity|].
    split; [done|]. by apply seeded_inlined.
  - rewrite (run_bind _ _ _ _ _ (NewScope_run w2 _ hc out Hc2 Hwf2)).
    erewrite run_bind.
    2:{ eapply searchOf_run; [cbn; by apply lookup_app_l_Some|reflexivity]. }
    unfold getSearch. erewrite run_bind.
    2:{ apply run_get. cbn. apply lookup_app_l_Some, lookup_app_l_Some, lookup_snoc_new. }
    unfold DB.updatedAttrsWithValues.
    erewrite run_bind by (apply observe_run; cbn; apply lookup_snoc2_snd).
    eexists _, _, _. split; [reflexivity|]. split; [reflexivity|]. done.
Qed.

Lemma agrees_cloned_grow base w w' h :
  wf_handle w h → (∃ k, searches w' = searches w ++ k) →
  base = default emptySearch (conditionSet w h) →
  agrees base (clonedSearch w' h).
Proof.
  intros Hwf [k Hk] ->. unfold clonedSearch.
  by rewrite (conditionSet_app w w' h k Hwf Hk).
Qed.

Lemma FirstOrCreate_flow w s h reg out where_ :
  dbs w !! s = Some h → wf_handle w h → rooted w h reg →
  let base := default emptySearch (conditionSet w h) in
  ∃ c r w1 rh,
    (c ← DB.Clone s; r ← DB.First s out where_; mret (c, r)) w = Some ((c, r), w1) ∧
    dbs w1 !! r = Some rh ∧ ranFirst w w1 reg out base where_ ∧
    match DB.Error rh with
    | Some _ =>
        if DB.RecordNotFound rh
        then ∃ r2 w2 sc snap,
               DB.FirstOrCreate s out where_ w = Some (r2, w2) ∧
               trace w2 = trace w1 ++ mkEvent CallInitialize sc snap
                                      :: chainEvents (creates reg) sc snap ∧
               scope_db sc = r2 ∧ scope_Value sc = out ∧ seeded base where_ snap
        else DB.FirstOrCreate s out where_ w = Some (r, w1)
    | None =>
        if bool_decide (0 < size (assignAttrs base))
        then ∃ r2 w2 sc snap,
               DB.FirstOrCreate s out where_ w = Some (r2, w2) ∧
               trace w2 = trace w1 ++ chainEvents (updates reg) sc snap ∧
               scope_db sc = r2 ∧ scope_Value sc = out ∧
               scope_instance sc !! "gorm:update_interface"
                 = Some (Map (map_to_list (assignAttrs base)))
        else DB.FirstOrCreate s out where_ w = Some (c, w1)
    end.
Proof.
  intros Hs Hwf Hroot base.
  set (w1 := cloned w h). set (hc := clonedDB w h).
  assert (Hs1 : dbs w1 !! s = Some h) by by apply lookup_app_l_Some.
  assert (Hwf1 : wf_handle w1 h) by (eapply wf_handle_grow; [done|grow..]).
  assert (Hroot1 : rooted w1 h reg) by (eapply rooted_grow; [done|grow..]).
  destruct (First_run w1 s h reg out where_ Hs1 Hwf1 Hroot1)
    as (rh & lg & scr & Hfirst & Hsk).
  set (w2 := mkWorld _ _ _ _ _ _ _ _ _) in Hfirst.
  assert (Hc2 : dbs w2 !! length (dbs w) = Some hc).
  { cbn. apply lookup_app_l_Some, lookup_snoc_new. }
  assert (Hr2 : dbs w2 !! length (dbs w1) = Some rh) by apply lookup_snoc_new.
  assert (Hwf2 : wf_handle w2 hc).
  { eapply wf_handle_grow; [apply wf_cloned|grow..]. }
  assert (Hroot2 : rooted w2 hc reg).
  { eapply rooted_grow; [by apply rooted_cloned|grow..]. }
  assert (Hcs2 : conditionSet w2 hc = Some (clonedSearch w h)).
  { rewrite <- (conditionSet_cloned w h).
    eapply conditionSet_app; [apply wf_cloned|]. cbn. reflexivity. }
  assert (Hbase2 : agrees base (clonedSearch w2 hc)).
  { eapply agrees_clonedSearch; [exact Hcs2|apply agrees_base]. }
  exists (length (dbs w)), (length (dbs w1)), w2, rh.
  split. { unfold DB.Clone. fold (DB.Clone s).
    rewrite (run_bind _ _ _ _ _ (Clone_run w s h Hs Hwf)).
    by rewrite (run_bind _ _ _ _ _ Hfirst). }
  split; [done|]. split.
  { eexists _, _. split; [reflexivity|]. split; [done|].
    unfold firstSearch. split.
    - by destruct where_.
    - apply seeded_inlined. eapply agrees_cloned_grow; [exact Hwf|grow|done]. }
  unfold DB.FirstOrCreate.
  rewrite (run_bind _ _ _ _ _ (Clone_run w s h Hs Hwf)).
  rewrite (run_bind _ _ _ _ _ Hfirst).
  rewrite (run_bind _ _ _ _ _ (run_get dbs _ _ _ Hr2)).
  destruct (DB.Error rh) as [e|] eqn:Herr.
  - destruct (DB.RecordNotFound rh) eqn:Hnf; cbn [negb]; [|done].
    rewrite (run_bind _ _ _ _ _ (NewScope_run w2 _ hc out Hc2 Hwf2)).
    erewrite run_bind by (apply inlineCondition_run; cbn; apply lookup_snoc2_snd).
    unfold DB.initialize.
    erewrite run_bind; [|erewrite run_bind; [reflexivity|]].
    2:{ apply observe_run. cbn. rewrite insert_snoc2_snd. apply lookup_snoc2_snd. }
    erewrite run_bind.
    2:{ eapply parentCallbacks_rooted; [cbn; by apply lookup_app_l_Some|].
        eapply rooted_grow; [exact Hroot2|grow..]. }
    edestruct (callCallbacks_run (creates reg) (scopeOf w2 out))
      as (ch' & lg' & scr' & Hrun & Hsk'); [| |erewrite run_bind by exact Hrun].
    { cbn. apply lookup_snoc_new. }
    { cbn. rewrite insert_snoc2_snd. apply lookup_snoc2_snd. }
    eexists _, _, _, _. split; [reflexivity|]. split.
    { cbn. by rewrite <- app_assoc. }
    split; [done|]. split; [done|]. by apply seeded_inlined.
  - erewrite run_bind.
    2:{ eapply searchOf_run; [exact Hc2|reflexivity]. }
    unfold getSearch. erewrite run_bind.
    2:{ apply run_get. cbn. apply lookup_app_l_Some, lookup_snoc_new. }
    change (assignAttrs (clonedSearch w h)) with (assignAttrs base).
    case_bool_decide as Hsize; [|done].
    rewrite (run_bind _ _ _ _ _ (NewScope_run w2 _ hc out Hc2 Hwf2)).
    erewrite run_bind.
    2:{ eapply searchOf_run; [cbn; by apply lookup_app_l_Some|reflexivity]. }
    erewrite run_bind.
    2:{ apply run_get. cbn. apply lookup_app_l_Some, lookup_app_l_Some, lookup_snoc_new. }
    erewrite run_bind.
    2:{ eapply parentCallbacks_rooted; [cbn; by apply lookup_app_l_Some|].
        eapply rooted_grow; [exact Hroot2|grow..]. }
    edestruct (callCallbacks_run (updates reg)
                 (DB.InstanceSet (scopeOf w2 out) "gorm:update_interface"
                    (Map (map_to_list (assignAttrs (clonedSearch w h))))))
      as (ch' & lg' & scr' & Hrun & Hsk'); [| |erewrite run_bind by exact Hrun].
    { cbn. apply lookup_snoc_new. }
    { cbn. apply lookup_snoc2_snd. }
    eexists _, _, _, _. split; [reflexivity|]. split; [reflexivity|].
    split; [done|]. split; [done|]. cbn. by rewrite lookup_insert_eq.
Qed.


Lemma New_run w s h :
  dbs w !! s = Some h → wf_handle w h →
  DB.New s w = Some (length (dbs w), set_dbs (dbs w ++ [newDB w h]) (cloned w h)).
Proof.
  intros Hs Hwf. unfold DB.New.
  rewrite (run_bind _ _ _ _ _ (Clone_run w s h Hs Hwf)).
  unfold DB.SetSearch, DB.SetValue. munfold. heap_simpl. done.
Qed.

Lemma FirstOrCreate_total w s h reg out where_ :
  dbs w !! s = Some h → wf_handle w h → rooted w h reg →
  is_Some (DB.FirstOrCreate s out where_ w).
Proof.
  intros Hs Hwf Hroot.
  destruct (FirstOrCreate_flow w s h reg out where_ Hs Hwf Hroot)
    as (c & r & w1 & rh & _ & _ & _ & H).
  destruct (DB.Error rh).
  - destruct (DB.RecordNotFound rh); [|eauto].
    destruct H as (? & ? & ? & ? & -> & _). eauto.
  - case_bool_decide; [|eauto].
    destruct H as (? & ? & ? & ? & -> & _). eauto.
Qed.


(** C3, as the code has it: when the value's primary key is zero [Save]
    runs the create chain.  Otherwise it runs the update chain; when that
    update reports no error and zero rows affected, [Save] continues as
    [FirstOrCreate] on the value through a handle from [New], and in every
    other case it returns the handle of the update. *)
Theorem Save_flow w s h reg (value : iface) :
  dbs w !! s = Some h → wf_handle w h → rooted w h reg →
  let scope := scopeOf w value in
  if DB.PrimaryKeyZero scope
  then ∃ w1 snap,
         DB.Save s value w = Some (scope_db scope, w1) ∧
         trace w1 = trace w ++ chainEvents (creates reg) scope snap
  else ∃ w1 nh snap,
         (sc ← DB.NewScope s value;
          cb ← DB.parentCallbacks s;
          DB.callCallbacks (updates cb) sc) w = Some (scope, w1) ∧
         trace w1 = trace w ++ chainEvents (updates reg) scope snap ∧
         dbs w1 !! scope_db scope = Some nh ∧
         if bool_decide (DB.Error nh = None) && bool_decide (DB.RowsAffected nh = 0%Z)
         then DB.Save s value w = (n ← DB.New s; DB.FirstOrCreate n value []) w1 ∧
              is_Some (DB.Save s value w)
         else DB.Save s value w = Some (scope_db scope, w1).
Proof.
  intros Hs Hwf Hroot scope.
  set (w1 := scoped w h value).
  assert (Hs1 : dbs w1 !! s = Some h) by by apply lookup_app_l_Some.
  assert (Hwf1 : wf_handle w1 h) by (eapply wf_handle_grow; [done|grow..]).
  assert (Hroot1 : rooted w1 h reg) by (eapply rooted_grow; [done|grow..]).
  assert (Hsc1 : dbs w1 !! scope_db scope = Some (set_value value (clonedDB w h)))
    by apply lookup_snoc_new.
  assert (Hsn1 : searches w1 !! scope_Search scope = Some (clonedSearch w h))
    by apply lookup_snoc2_snd.
  unfold DB.Save.
  rewrite (run_bind _ _ _ _ _ (NewScope_run w s h value Hs Hwf)).
  fold scope.
  destruct (DB.PrimaryKeyZero scope) eqn:Hpk; cbn [negb].
  - rewrite (run_bind _ _ _ _ _ (parentCallbacks_rooted _ _ _ _ Hs1 Hroot1)).
    destruct (callCallbacks_run (creates reg) scope w1 _ _ Hsc1 Hsn1)
      as (ch' & lg & scr & Hrun & Hsk).
    rewrite (run_bind _ _ _ _ _ Hrun). eexists _, _. split; reflexivity.
  - rewrite !(run_bind _ _ _ _ _ (NewScope_run w s h value Hs Hwf)).
    fold scope.
    rewrite !(run_bind _ _ _ _ _ (parentCallbacks_rooted _ _ _ _ Hs1 Hroot1)).
    destruct (callCallbacks_run (updates reg) scope w1 _ _ Hsc1 Hsn1)
      as (ch' & lg & scr & Hrun & Hsk).
    set (w2 := mkWorld (dbs w ++ [ch']) (searches w1) (settings w1) (registries w1)
                 (dialects w1) scr (connCalls w1) (printed w1 ++ lg)
                 (trace w1 ++ chainEvents (updates reg) scope (clonedSearch w h))).
    assert (Hrun' : DB.callCallbacks (updates reg) scope w1 = Some (scope, w2)).
    { rewrite Hrun. unfold w2. cbn. by rewrite insert_snoc_new. }
    clear Hrun. rewrite Hrun'. rewrite (run_bind _ _ _ _ _ Hrun').
    assert (Hnh : dbs w2 !! scope_db scope = Some ch') by apply lookup_snoc_new.
    exists w2, ch', (clonedSearch w h).
    split; [done|]. split; [done|]. split; [done|].
    rewrite (run_bind _ _ _ _ _ (run_get dbs _ _ _ Hnh)).
    destruct (bool_decide (DB.Error ch' = None) && bool_decide (DB.RowsAffected ch' = 0%Z));
      [|done].
    split; [done|].
    assert (Hs2 : dbs w2 !! s = Some h) by by apply lookup_app_l_Some.
    assert (Hwf2 : wf_handle w2 h) by (eapply wf_handle_grow; [done|grow..]).
    rewrite (run_bind _ _ _ _ _ (New_run w2 s h Hs2 Hwf2)).
    eapply (FirstOrCreate_total _ _ (newDB w2 h) reg).
    + apply lookup_snoc_new.
    + split; [|split]; cbn.
      * eexists. split; [done|]. rewrite lookup_snoc_new. eauto.
      * intros m [= <-]. rewrite lookup_snoc_new. eauto.
      * done.
    + eapply (rooted_parent _ h); [done|].
      eapply rooted_grow; [exact Hroot|grow..].
Qed.

(** *** Schema operations *)

Lemma wf_handle_skeleton w a b : sameSkeleton a b → wf_handle w a → wf_handle w b.
Proof.
  intros Hsk Hwf. apply sameSkeleton_fields in Hsk as (_ & _ & Hs & Hv & _ & _ & Hd & _).
  unfold wf_handle in *. by rewrite <- Hs, <- Hv, <- Hd.
Qed.

Lemma conditionSet_skeleton w a b :
  sameSkeleton a b → conditionSet w a = conditionSet w b.
Proof.
  intros Hsk. apply sameSkeleton_fields in Hsk as (_ & _ & Hs & _).
  unfold conditionSet. by rewrite Hs.
Qed.

Lemma ranSchema_nil flag w : ranSchema [] [] flag w w.
Proof. exists []. rewrite app_nil_r. by repeat split. Qed.

Lemma ranSchema_cons op ops v vs flag w w1 w2 sc snap :
  trace w1 = trace w ++ [mkEvent (CallSchema op) sc snap] →
  scope_Value sc = v → unscopedFlag snap = flag →
  ranSchema ops vs flag w1 w2 →
  ranSchema (op :: ops) (v :: vs) flag w w2.
Proof.
  intros H1 Hv Hf (evs & Ht & Hc & Hvs & Hall).
  exists (mkEvent (CallSchema op) sc snap :: evs).
  rewrite Ht, H1, <- app_assoc. cbn. rewrite Hc, Hvs, Hv.
  repeat split; try done. by constructor.
Qed.

(** One iteration of the loops: a scope on a clone of [db], one schema
    statement. *)
Lemma schema_step op w d hd v :
  dbs w !! d = Some hd → wf_handle w hd →
  ∃ w' hd',
    (scope ← DB.NewScope d v; DB.schema op scope) w = Some (scopeOf w v, w') ∧
    trace w' = trace w ++ [mkEvent (CallSchema op) (scopeOf w v) (clonedSearch w hd)] ∧
    dbs w' !! length (dbs w) = Some hd' ∧ wf_handle w' hd' ∧
    flagOf w' hd' = flagOf w hd.
Proof.
  intros Hd Hwf.
  rewrite (run_bind _ _ _ _ _ (NewScope_run w d hd v Hd Hwf)).
  destruct (schema_run op (scopeOf w v) (scoped w hd v)
              (set_value v (clonedDB w hd)) (clonedSearch w hd))
    as (ch' & lg & scr & Hrun & Hsk);
    [apply lookup_snoc_new|apply lookup_snoc2_snd|].
  rewrite Hrun. eexists _, ch'. split; [reflexivity|]. split; [reflexivity|].
  cbn [dbs scope_db scopeOf scoped]. rewrite insert_snoc_new.
  split; [apply lookup_snoc_new|]. split.
  - eapply wf_handle_skeleton; [exact Hsk|].
    split; [|split]; cbn.
    + eexists. split; [done|]. rewrite lookup_snoc_new. eauto.
    + intros m [= <-]. rewrite lookup_snoc_new. eauto.
    + intros p [= <-]. rewrite lookup_snoc2_fst. eauto.
  - unfold flagOf. rewrite <- (conditionSet_skeleton _ _ _ Hsk).
    unfold conditionSet. cbn. by rewrite lookup_snoc2_fst.
Qed.

Lemma CreateTable_loop_run models : ∀ w d hd,
  dbs w !! d = Some hd → wf_handle w hd →
  ∃ r w',
    DB.CreateTable_loop d models w = Some (r, w') ∧
    ranSchema (map (λ _, createTable) models) models (flagOf w hd) w w'.
Proof.
  induction models as [|v rest IH]; intros w d hd Hd Hwf.
  - eexists _, _. split; [reflexivity|apply ranSchema_nil].
  - cbn [DB.CreateTable_loop].
    destruct (schema_step createTable w d hd v Hd Hwf)
      as (w1 & hd1 & Hrun & Htr & Hd1 & Hwf1 & Hflag).
    unfold mbind, M_bind in Hrun |- *.
    destruct (DB.NewScope d v w) as [[sc w0]|]; [|done].
    rewrite Hrun. cbn [scope_db scopeOf].
    destruct (IH w1 _ hd1 Hd1 Hwf1) as (r & w' & Hloop & Hran).
    exists r, w'. split; [done|].
    eapply ranSchema_cons; [exact Htr|done|done|]. by rewrite <- Hflag.
Qed.

Lemma AutoMigrate_loop_run values : ∀ w d hd,
  dbs w !! d = Some hd → wf_handle w hd →
  ∃ r w',
    DB.AutoMigrate_loop d values w = Some (r, w') ∧
    ranSchema (map (λ _, autoMigrate) values) values (flagOf w hd) w w'.
Proof.
  induction values as [|v rest IH]; intros w d hd Hd Hwf.
  - eexists _, _. split; [reflexivity|apply ranSchema_nil].
  - cbn [DB.AutoMigrate_loop].
    destruct (schema_step autoMigrate w d hd v Hd Hwf)
      as (w1 & hd1 & Hrun & Htr & Hd1 & Hwf1 & Hflag).
    unfold mbind, M_bind in Hrun |- *.
    destruct (DB.NewScope d v w) as [[sc w0]|]; [|done].
    rewrite Hrun. cbn [scope_db scopeOf].
    destruct (IH w1 _ hd1 Hd1 Hwf1) as (r & w' & Hloop & Hran).
    exists r, w'. split; [done|].
    eapply ranSchema_cons; [exact Htr|done|done|]. by rewrite <- Hflag.
Qed.

Lemma flagOf_built b w h :
  flagOf (built b w h) (set_value (targetValue b (value h)) (clonedDB w h))
  = match b with bUnscoped => true | _ => flagOf w h end.
Proof. unfold flagOf. rewrite conditionSet_built. by destruct b. Qed.

Lemma flagOf_cloned w h : flagOf (cloned w h) (clonedDB w h) = flagOf w h.
Proof. unfold flagOf. by rewrite conditionSet_cloned. Qed.

(** The table switch at the head of an iteration of [DropTable]. *)
Lemma DropTable_switch w d hd v :
  dbs w !! d = Some hd → wf_handle w hd →
  ∃ d1 w1 hd1,
    match v with
    | Str tableName => DB.Table d tableName
    | _ => mret d
    end w = Some (d1, w1) ∧
    trace w1 = trace w ∧ dbs w1 !! d1 = Some hd1 ∧ wf_handle w1 hd1 ∧
    flagOf w1 hd1 = flagOf w hd.
Proof.
  intros Hd Hwf.
  assert (Hid : ∃ d1 w1 hd1, (mret d : M loc) w = Some (d1, w1) ∧
            trace w1 = trace w ∧ dbs w1 !! d1 = Some hd1 ∧ wf_handle w1 hd1 ∧
            flagOf w1 hd1 = flagOf w hd) by (by exists d, w, hd).
  destruct v; try exact Hid.
  eexists _, _, _. split; [exact (builder_run (bTable s) w d hd Hd Hwf)|].
  split; [done|]. split; [apply lookup_snoc_new|].
  split; [apply wf_handle_built|]. by rewrite flagOf_built.
Qed.

Lemma DropTable_loop_run values : ∀ w d hd,
  dbs w !! d = Some hd → wf_handle w hd →
  ∃ r w',
    DB.DropTable_loop d values w = Some (r, w') ∧
    ranSchema (map (λ _, dropTable) values) values (flagOf w hd) w w'.
Proof.
  induction values as [|v rest IH]; intros w d hd Hd Hwf.
  - eexists _, _. split; [reflexivity|apply ranSchema_nil].
  - cbn [DB.DropTable_loop].
    destruct (DropTable_switch w d hd v Hd Hwf)
      as (d0 & w0 & hd0 & Hsw & Htr0 & Hd0 & Hwf0 & Hflag0).
    rewrite (run_bind _ _ _ _ _ Hsw).
    destruct (schema_step dropTable w0 d0 hd0 v Hd0 Hwf0)
      as (w1 & hd1 & Hrun & Htr & Hd1 & Hwf1 & Hflag).
    unfold mbind, M_bind in Hrun |- *.
    destruct (DB.NewScope d0 v w0) as [[sc wx]|]; [|done].
    rewrite Hrun. cbn [scope_db scopeOf].
    destruct (IH w1 _ hd1 Hd1 Hwf1) as (r & w' & Hloop & Hran).
    exists r, w'. split; [done|].
    eapply ranSchema_cons; [by rewrite Htr, Htr0|done|done|].
    by rewrite <- Hflag0, <- Hflag.
Qed.

Lemma ranSchema_one op v flag w w' sc snap :
  trace w' = trace w ++ [mkEvent (CallSchema op) sc snap] →
  scope_Value sc = v → unscopedFlag snap = flag →
  ranSchema [op] [v] flag w w'.
Proof.
  intros Ht Hv Hf. eapply ranSchema_cons; [exact Ht|done|done|apply ranSchema_nil].
Qed.

(** C8, as the code has it: every schema operation executes its
    statement directly against one scope per target value and makes no
    other call into a scope, so it runs no callback chain.  [CreateTable],
    [AutoMigrate], [AddIndex] and [AddUniqueIndex] work on a handle forced
    through [Unscoped]; [DropTable], [RemoveIndex], [AddForeignKey] and
    [RemoveForeignKey] work on a plain clone and keep the unscoped flag of
    the receiver. *)
Theorem schema_operations_direct w s h (targets : list iface)
    (indexName field dest onDelete onUpdate : string) (columns : list string) :
  dbs w !! s = Some h → wf_handle w h →
  (∃ r w', DB.CreateTable s targets w = Some (r, w') ∧
     ranSchema (map (λ _, createTable) targets) targets true w w') ∧
  (∃ r w', DB.AutoMigrate s targets w = Some (r, w') ∧
     ranSchema (map (λ _, autoMigrate) targets) targets true w w') ∧
  (∃ r w', DB.AddIndex s indexName columns w = Some (r, w') ∧
     ranSchema [addIndex false indexName columns] [value h] true w w') ∧
  (∃ r w', DB.AddUniqueIndex s indexName columns w = Some (r, w') ∧
     ranSchema [addIndex true indexName columns] [value h] true w w') ∧
  (∃ r w', DB.DropTable s targets w = Some (r, w') ∧
     ranSchema (map (λ _, dropTable) targets) targets (flagOf w h) w w') ∧
  (∃ r w', DB.RemoveIndex s indexName w = Some (r, w') ∧
     ranSchema [removeIndex indexName] [value h] (flagOf w h) w w') ∧
  (∃ r w', DB.AddForeignKey s field dest onDelete onUpdate w = Some (r, w') ∧
     ranSchema [addForeignKey field dest onDelete onUpdate] [value h] (flagOf w h) w w') ∧
  (∃ r w', DB.RemoveForeignKey s field dest w = Some (r, w') ∧
     ranSchema [removeForeignKey field dest] [value h] (flagOf w h) w w').
Proof.
  intros Hs Hwf.
  set (wu := built bUnscoped w h).
  set (hu := set_value (targetValue bUnscoped (value h)) (clonedDB w h)).
  assert (Hu : DB.Unscoped s w = Some (length (dbs w), wu))
    by exact (builder_run bUnscoped w s h Hs Hwf).
  assert (Hdu : dbs wu !! length (dbs w) = Some hu) by apply lookup_snoc_new.
  assert (Hwfu : wf_handle wu hu) by apply wf_handle_built.
  assert (Hfu : flagOf wu hu = true) by apply (flagOf_built bUnscoped).
  assert (Hsu : dbs wu !! s = Some h) by by apply lookup_app_l_Some.
  repeat split.
  - unfold DB.CreateTable. rewrite (run_bind _ _ _ _ _ Hu).
    destruct (CreateTable_loop_run targets wu (length (dbs w)) hu Hdu Hwfu) as (r & w' & Hrun & Hran).
    exists r, w'. split; [done|]. by rewrite Hfu in Hran.
  - unfold DB.AutoMigrate. rewrite (run_bind _ _ _ _ _ Hu).
    destruct (AutoMigrate_loop_run targets wu (length (dbs w)) hu Hdu Hwfu) as (r & w' & Hrun & Hran).
    exists r, w'. split; [done|]. by rewrite Hfu in Hran.
  - unfold DB.AddIndex. rewrite (run_bind _ _ _ _ _ Hu).
    rewrite (run_bind _ _ _ _ _ (run_get dbs _ _ _ Hsu)).
    destruct (schema_step (addIndex false indexName columns) wu (length (dbs w)) hu (value h) Hdu Hwfu)
      as (w1 & hd1 & Hrun & Htr & _).
    unfold mbind, M_bind in Hrun |- *.
    destruct (DB.NewScope _ _ wu) as [[sc wx]|]; [|done]. rewrite Hrun.
    eexists _, _. split; [reflexivity|].
    eapply ranSchema_one; [exact Htr|done|exact Hfu].
  - unfold DB.AddUniqueIndex. rewrite (run_bind _ _ _ _ _ Hu).
    rewrite (run_bind _ _ _ _ _ (run_get dbs _ _ _ Hsu)).
    destruct (schema_step (addIndex true indexName columns) wu (length (dbs w)) hu (value h) Hdu Hwfu)
      as (w1 & hd1 & Hrun & Htr & _).
    unfold mbind, M_bind in Hrun |- *.
    destruct (DB.NewScope _ _ wu) as [[sc wx]|]; [|done]. rewrite Hrun.
    eexists _, _. split; [reflexivity|].
    eapply ranSchema_one; [exact Htr|done|exact Hfu].
  - unfold DB.DropTable. rewrite (run_bind _ _ _ _ _ (Clone_run w s h Hs Hwf)).
    destruct (DropTable_loop_run targets (cloned w h) (length (dbs w)) (clonedDB w h))
      as (r & w' & Hrun & Hran); [apply lookup_snoc_new|apply wf_cloned|].
    exists r, w'. split; [done|]. by rewrite flagOf_cloned in Hran.
  - unfold DB.RemoveIndex. rewrite (run_bind _ _ _ _ _ (run_get dbs _ _ _ Hs)).
    destruct (schema_step (removeIndex indexName) w s h (value h) Hs Hwf)
      as (w1 & hd1 & Hrun & Htr & _).
    unfold mbind, M_bind in Hrun |- *.
    destruct (DB.NewScope _ _ w) as [[sc wx]|]; [|done]. rewrite Hrun.
    eexists _, _. split; [reflexivity|].
    eapply ranSchema_one; [exact Htr|done|done].
  - unfold DB.AddForeignKey. rewrite (run_bind _ _ _ _ _ (run_get dbs _ _ _ Hs)).
    destruct (schema_step (addForeignKey field dest onDelete onUpdate) w s h (value h) Hs Hwf)
      as (w1 & hd1 & Hrun & Htr & _).
    unfold mbind, M_bind in Hrun |- *.
    destruct (DB.NewScope _ _ w) as [[sc wx]|]; [|done]. rewrite Hrun.
    eexists _, _. split; [reflexivity|].
    eapply ranSchema_one; [exact Htr|done|done].
  - unfold DB.RemoveForeignKey.
    rewrite (run_bind _ _ _ _ _ (Clone_run w s h Hs Hwf)).
    erewrite run_bind by (apply run_get; cbn; by apply lookup_app_l_Some).
    destruct (schema_step (removeForeignKey field dest) (cloned w h) (length (dbs w)) (clonedDB w h)
                (value h)) as (w1 & hd1 & Hrun & Htr & _);
      [apply lookup_snoc_new|apply wf_cloned|].
    unfold mbind, M_bind in Hrun |- *.
    destruct (DB.NewScope _ _ (cloned w h)) as [[sc wx]|]; [|done]. rewrite Hrun.
    eexists _, _. split; [reflexivity|].
    eapply ranSchema_one; [exact Htr|done|].
    change (flagOf (cloned w h) (clonedDB w h) = flagOf w h). apply flagOf_cloned.
Qed.

(** *** Find-or-build operations, sample runs *)

(** C4: [FirstOrInit] and [FirstOrCreate] first run [First] (the query
    chain, limited to one row, with the receiver's and the inline
    conditions).  When its handle reports record-not-found, [FirstOrInit]
    initializes the value and runs no chain, and [FirstOrCreate]
    initializes it and runs the create chain, in both cases on a scope
    seeded with the receiver's conditions, the inline conditions and the
    Attrs and Assign values.  When [First] succeeds, [FirstOrInit] applies
    the Assign values, and [FirstOrCreate] runs the update chain with them
    when there are any and does nothing more otherwise.  When [First]
    fails with another error both return its handle at once: the store is
    the one [First] left. *)
Theorem FirstOr_flow w s h reg (out : iface) (where_ : list iface) :
  dbs w !! s = Some h → wf_handle w h → rooted w h reg →
  let base := default emptySearch (conditionSet w h) in
  (∃ c r w1 rh,
     (c ← DB.Clone s; r ← DB.First c out where_; mret (c, r)) w = Some ((c, r), w1) ∧
     dbs w1 !! r = Some rh ∧ ranFirst w w1 reg out base where_ ∧
     match DB.Error rh with
     | Some _ =>
         if DB.RecordNotFound rh
         then ∃ w2 sc snap,
                DB.FirstOrInit s out where_ w = Some (c, w2) ∧
                trace w2 = trace w1 ++ [mkEvent CallInitialize sc snap] ∧
                scope_Value sc = out ∧ seeded base where_ snap
         else DB.FirstOrInit s out where_ w = Some (r, w1)
     | None =>
         ∃ w2 sc snap,
           DB.FirstOrInit s out where_ w = Some (c, w2) ∧
           trace w2 = trace w1 ++ [mkEvent (CallUpdatedAttrs (assignAttrs base)) sc snap] ∧
           scope_Value sc = out
     end) ∧
  (∃ c r w1 rh,
     (c ← DB.Clone s; r ← DB.First s out where_; mret (c, r)) w = Some ((c, r), w1) ∧
     dbs w1 !! r = Some rh ∧ ranFirst w w1 reg out base where_ ∧
     match DB.Error rh with
     | Some _ =>
         if DB.RecordNotFound rh
         then ∃ r2 w2 sc snap,
                DB.FirstOrCreate s out where_ w = Some (r2, w2) ∧
                trace w2 = trace w1 ++ mkEvent CallInitialize sc snap
                                       :: chainEvents (creates reg) sc snap ∧
                scope_db sc = r2 ∧ scope_Value sc = out ∧ seeded base where_ snap
         else DB.FirstOrCreate s out where_ w = Some (r, w1)
     | None =>
         if bool_decide (0 < size (assignAttrs base))
         then ∃ r2 w2 sc snap,
                DB.FirstOrCreate s out where_ w = Some (r2, w2) ∧
                trace w2 = trace w1 ++ chainEvents (updates reg) sc snap ∧
                scope_db sc = r2 ∧ scope_Value sc = out ∧
                scope_instance sc !! "gorm:update_interface"
                  = Some (Map (map_to_list (assignAttrs base)))
         else DB.FirstOrCreate s out where_ w = Some (c, w1)
     end).
Proof.
  intros Hs Hwf Hroot base. split.
  - exact (FirstOrInit_flow w s h reg out where_ Hs Hwf Hroot).
  - exact (FirstOrCreate_flow w s h reg out where_ Hs Hwf Hroot).
Qed.

Lemma FirstOr_flow_witness :
  ∃ c r w1 rh,
    (c ← DB.Clone 0; r ← DB.First c (Struct "User" 0) [Map [("name", Str "jinzhu")]];
     mret (c, r)) (opened []) = Some ((c, r), w1) ∧
    dbs w1 !! r = Some rh.
Proof.
  destruct (proj1 (FirstOr_flow (opened []) 0 root0 sampleChains (Struct "User" 0)
                     [Map [("name", Str "jinzhu")]] eq_refl
                     (wf_handle_check (opened []) root0 eq_refl)
                     (ex_intro _ 0 (ex_intro _ root0 (ex_intro _ 0
                        (conj eq_refl (conj eq_refl (conj eq_refl eq_refl))))))))
    as (c & r & w1 & rh & H1 & H2 & _).
  exact (ex_intro _ c (ex_intro _ r (ex_intro _ w1 (ex_intro _ rh (conj H1 H2))))).
Defined.

Lemma Save_flow_witness :
  ∃ w1 snap,
    DB.Save 0 (Struct "User" 0) (opened []) = Some (1, w1) ∧
    trace w1 = trace (opened []) ++
               chainEvents (creates sampleChains)
                 (scopeOf (opened []) (Struct "User" 0)) snap.
Proof.
  exact (Save_flow (opened []) 0 root0 sampleChains (Struct "User" 0) eq_refl
           (wf_handle_check (opened []) root0 eq_refl)
           (ex_intro _ 0 (ex_intro _ root0 (ex_intro _ 0
              (conj eq_refl (conj eq_refl (conj eq_refl eq_refl))))))).
Defined.

(** Against C3 as stated: an update that fails.  The chain reports an
    error, no row is affected, and [Save] returns the update's handle; no
    query or create step follows. *)
Lemma Save_failed_update_no_fallback :
  ('(r, w1) ← DB.Save 0 (Struct "User" 7)
       (opened [mkOutcome None None; mkOutcome None None;
                mkOutcome (Some (ErrOther "constraint failed")) None]);
   h ← dbs w1 !! r;
   Some (DB.RowsAffected h, DB.Error h, map ev_call (trace w1)))
  = Some (0%Z, Some (ErrOther "constraint failed"),
          [CallCallback "begin-transaction"; CallCallback "build-update-sql";
           CallCallback "execute"; CallCallback "commit-transaction"]).
Proof. vm_compute. reflexivity. Qed.

Lemma schema_operations_direct_witness :
  ∃ r w', DB.CreateTable 0 [Struct "User" 0; Struct "Email" 0] (opened []) = Some (r, w') ∧
    ranSchema [createTable; createTable] [Struct "User" 0; Struct "Email" 0] true
      (opened []) w'.
Proof.
  exact (proj1 (schema_operations_direct (opened []) 0 root0
                  [Struct "User" 0; Struct "Email" 0] "idx" "f" "d" "r" "u" ["c"]
                  eq_refl (wf_handle_check (opened []) root0 eq_refl))).
Defined.

(** Against C8 as stated: [DropTable] on a handle that is not unscoped
    runs its statement against a scope that is not unscoped either. *)
Lemma DropTable_not_unscoped :
  ('(r, w1) ← DB.DropTable 0 [Struct "User" 0] (opened []);
   Some (map (λ e, (ev_call e, unscopedFlag (ev_search e))) (trace w1)))
  = Some [(CallSchema dropTable, false)].
Proof. vm_compute. reflexivity. Qed.

(** *** Chains of condition-building calls *)

Lemma mutation_withSearchDB b d x :
  mutation b (withSearchDB d x) = withSearchDB d (mutation b x).
Proof. by destruct b. Qed.

Lemma withSearchDB_twice d d' x : withSearchDB d (withSearchDB d' x) = withSearchDB d x.
Proof. done. Qed.

Lemma conditionsOf_built b w h :
  conditionsOf (built b w h) (set_value (targetValue b (value h)) (clonedDB w h))
  = mutation b (conditionsOf w h).
Proof.
  unfold conditionsOf. rewrite conditionSet_built. cbn [default].
  unfold clonedSearch. by rewrite !mutation_withSearchDB.
Qed.

Lemma settingsOf_built b w h :
  settingsOf (built b w h) (set_value (targetValue b (value h)) (clonedDB w h))
  = settingsOf w h.
Proof. unfold settingsOf at 1. cbn. by rewrite lookup_snoc_new. Qed.

(** X16: [Scopes] threads the handle through its functions from left to
    right, whatever the functions are: with no function it returns the
    receiver itself and leaves the store as it is, and [Scopes] of a list
    followed by another is [Scopes] of the first list, then [Scopes] of
    the second on the handle the first returned; a function that panics
    stops the rest. *)
Theorem Scopes_compose (fs gs : list (loc → M loc)) (s : loc) (w : World) :
  Gorm.Scopes s [] w = Some (s, w) ∧
  Gorm.Scopes s (fs ++ gs) w = (db ← Gorm.Scopes s fs; Gorm.Scopes db gs) w ∧
  (Gorm.Scopes s fs w = None → Gorm.Scopes s (fs ++ gs) w = None).
Proof.
  split; [done|].
  assert (H : ∀ fs s w,
    Gorm.Scopes s (fs ++ gs) w = (db ← Gorm.Scopes s fs; Gorm.Scopes db gs) w).
  { clear. induction fs as [|f fs IH]; intros s w; [done|].
    cbn [app Gorm.Scopes]. unfold mbind, M_bind.
    destruct (f s w) as [[db w1]|]; [|done]. apply IH. }
  split; [apply H|].
  intros Hn. rewrite H. unfold mbind, M_bind. by rewrite Hn.
Qed.

Lemma chain_run (bs : list builderCall) : ∀ w s h,
  dbs w !! s = Some h → wf_handle w h →
  ∃ r w' h',
    Gorm.Scopes s (map call bs) w = Some (r, w') ∧
    dbs w' !! r = Some h' ∧ wf_handle w' h' ∧
    conditionsOf w' h' = mutations bs (conditionsOf w h) ∧
    value h' = targetValues bs (value h) ∧
    settingsOf w' h' = settingsOf w h ∧
    err h' = err h ∧ db h' = db h ∧ parent h' = parent h ∧
    (bs = [] → r = s ∧ w' = w) ∧
    (bs ≠ [] → r = length (dbs w) + length bs - 1) ∧
    (∃ k, dbs w' = dbs w ++ k) ∧ (∃ k, searches w' = searches w ++ k) ∧
    (∃ k, settings w' = settings w ++ k) ∧ (∃ k, dialects w' = dialects w ++ k) ∧
    registries w' = registries w ∧
    trace w' = trace w ∧ connCalls w' = connCalls w ∧ script w' = script w ∧
    printed w' = printed w.
Proof.
  induction bs as [|b bs IH]; intros w s h Hs Hwf.
  - exists s, w, h. cbn.
    repeat (split; [first [done | by exists []; rewrite app_nil_r]|]). done.
  - cbn [map Gorm.Scopes].
    rewrite (run_bind _ _ _ _ _ (builder_run b w s h Hs Hwf)).
    destruct (IH (built b w h) (length (dbs w))
                (set_value (targetValue b (value h)) (clonedDB w h)))
      as (r & w' & h' & Hrun & Hr & Hwf' & Hc & Hv & Hset & He & Hdb & Hp & _ & Hne &
          [k1 H1] & [k2 H2] & [k3 H3] & [k4 H4] & Hreg & Htr & Hcc & Hscr & Hpr);
      [apply lookup_snoc_new|apply wf_handle_built|].
    exists r, w', h'. rewrite Hrun.
    rewrite conditionsOf_built in Hc. rewrite settingsOf_built in Hset.
    do 10 (split; [done|]). split.
    { intros _. destruct bs as [|b' bs'].
      - cbn in Hrun. injection Hrun as <- <-. cbn. lia.
      - rewrite Hne by done. cbn. rewrite length_snoc. lia. }
    split; [rewrite H1; cbn; rewrite <- app_assoc; by eexists|].
    split; [rewrite H2; cbn; rewrite <- app_assoc; by eexists|].
    split; [rewrite H3; cbn; rewrite <- app_assoc; by eexists|].
    split; [rewrite H4; cbn; rewrite <- app_assoc; by eexists|].
    done.
Qed.

Lemma chain_flags bs : ∀ w s h r w' h',
  dbs w !! s = Some h → wf_handle w h →
  Gorm.Scopes s (map call bs) w = Some (r, w') → dbs w' !! r = Some h' →
  blockGlobalUpdate h' = blockGlobalUpdate h ∧ logMode h' = logMode h.
Proof.
  induction bs as [|b bs IH]; intros w s h r w' h' Hs Hwf Hrun Hr.
  - cbn in Hrun. injection Hrun as <- <-. rewrite Hs in Hr. by injection Hr as <-.
  - cbn [map Gorm.Scopes] in Hrun.
    rewrite (run_bind _ _ _ _ _ (builder_run b w s h Hs Hwf)) in Hrun.
    destruct (IH (built b w h) (length (dbs w))
                (set_value (targetValue b (value h)) (clonedDB w h)) r w' h'
                (lookup_snoc_new _ _) (wf_handle_built b w h) Hrun Hr)
      as [H1 H2].
    by rewrite H1, H2.
Qed.

(** X7: condition-building calls compose.  [Scopes] applied to a list of
    condition-building calls - the same as chaining the calls - never
    panics on a well-formed handle and returns a well-formed handle whose
    conditions are the receiver's with the mutations applied in call order
    and whose value is the one the last [Model] or [Table] left.  The
    error, the connection, the parent and the settings entries are the
    receiver's.  With no function [Scopes] returns the receiver itself and
    allocates nothing; otherwise every call allocates one new handle.
    The log mode and the block-global-update flag are inherited.  No object
    that existed before is changed, nothing is executed and nothing is
    printed. *)
Theorem Scopes_builders (bs : list builderCall) : ∀ w s h,
  dbs w !! s = Some h → wf_handle w h →
  ∃ r w' h',
    Gorm.Scopes s (map call bs) w = Some (r, w') ∧
    dbs w' !! r = Some h' ∧ wf_handle w' h' ∧
    conditionsOf w' h' = mutations bs (conditionsOf w h) ∧
    value h' = targetValues bs (value h) ∧
    settingsOf w' h' = settingsOf w h ∧
    err h' = err h ∧ db h' = db h ∧ parent h' = parent h ∧
    (bs = [] → r = s ∧ w' = w) ∧
    (bs ≠ [] → r = length (dbs w) + length bs - 1) ∧
    (∃ k, dbs w' = dbs w ++ k) ∧ (∃ k, searches w' = searches w ++ k) ∧
    (∃ k, settings w' = settings w ++ k) ∧ (∃ k, dialects w' = dialects w ++ k) ∧
    registries w' = registries w ∧
    trace w' = trace w ∧ connCalls w' = connCalls w ∧ script w' = script w ∧
    printed w' = printed w ∧
    blockGlobalUpdate h' = blockGlobalUpdate h ∧ logMode h' = logMode h.
Proof.
  intros w s h Hs Hwf.
  destruct (chain_run bs w s h Hs Hwf) as (r & w' & h' & Hrun & Hr & Hrest).
  destruct (chain_flags bs w s h r w' h' Hs Hwf Hrun Hr) as [Hb Hl].
  exists r, w', h'. split; [exact Hrun|]. split; [exact Hr|].
  destruct Hrest as (H1 & H2 & H3 & H4 & H5 & H6 & H7 & H8 & H9 & H10 & H11 &
                     H12 & H13 & H14 & H15 & H16 & H17 & H18).
  do 17 (split; [assumption|]). split; [assumption|]. by split.
Qed.

Lemma Scopes_builders_witness :
  ∃ r w' h',
    Gorm.Scopes 0 (map call [bWhere (Str "age > ?") [Int 18]; bLimit (Int 5)])
      (opened []) = Some (r, w') ∧
    dbs w' !! r = Some h' ∧ wf_handle w' h' ∧
    conditionsOf w' h' =
      mutations [bWhere (Str "age > ?") [Int 18]; bLimit (Int 5)]
        (conditionsOf (opened []) root0).
Proof.
  destruct (Scopes_builders [bWhere (Str "age > ?") [Int 18]; bLimit (Int 5)]
              (opened []) 0 root0 eq_refl
              (wf_handle_check (opened []) root0 eq_refl))
    as (r & w' & h' & H1 & H2 & H3 & H4 & _).
  exact (ex_intro _ r (ex_intro _ w' (ex_intro _ h'
           (conj H1 (conj H2 (conj H3 H4)))))).
Defined.

(** *** The calls that run a callback chain *)

Lemma terminal_run t w s h reg :
  dbs w !! s = Some h → wf_handle w h → rooted w h reg →
  ∃ rh lg scr,
    run t s w =
      Some (length (dbs w),
            mkWorld (dbs w ++ [rh])
              (searches w ++ [clonedSearch w h; scopeSearchOf t (clonedSearch w h)])
              (settings w ++ [scopeSettingsOf t (settingsOf w h)])
              (registries w)
              (dialects w ++ [mkDialect (dialectName w h) (db h)])
              scr (connCalls w) (printed w ++ lg)
              (trace w ++ chainEvents (chainOf t reg)
                 (mkScope (length (dbs w)) (S (length (searches w)))
                    (targetOf t (value h)) (scopeInstanceOf t))
                 (scopeSearchOf t (clonedSearch w h)))) ∧
    sameSkeleton (set_value (targetOf t (value h)) (clonedDB w h)) rh.
Proof.
  intros Hs Hwf Hroot.
  destruct t; cbn [run chainOf targetOf scopeSearchOf scopeSettingsOf scopeInstanceOf];
    unfold DB.First, DB.Take, DB.Last, DB.Find, Gorm.Scan, DB.Create, DB.Delete,
      Gorm.Updates, Gorm.UpdateColumns;
    rewrite ?(run_bind _ _ _ _ _ (run_get dbs s w h Hs));
    rewrite (run_bind _ _ _ _ _ (NewScope_run w s h _ Hs Hwf));
    unfold Search_Limit, onSearch, DB.Scope_Set, DB.InstantSet, DB.InstanceSet;
    munfold; heap_simpl;
    try (erewrite inlineCondition_run by (cbn; apply lookup_snoc2_snd));
    cbn; rewrite ?insert_snoc2_snd;
    (erewrite parentCallbacks_rooted;
      [|cbn; by apply lookup_app_l_Some
       |eapply rooted_grow; [exact Hroot|grow..]]);
    match goal with
    | |- context [DB.callCallbacks ?fs ?sc ?w0] =>
        edestruct (callCallbacks_run fs sc w0) as (rh & lg & scr & Hrun & Hsk);
          [cbn; apply lookup_snoc_new|cbn; apply lookup_snoc2_snd|rewrite Hrun]
    end;
    exists rh, lg, scr; (split; [|done]);
    cbn; by rewrite insert_snoc_new.
Qed.

Lemma scopeSearchOf_withSearchDB t d x :
  scopeSearchOf t (withSearchDB d x) = withSearchDB d (scopeSearchOf t x).
Proof. destruct t; cbn; try done; by destruct where_. Qed.

Lemma conditionsOf_clonedSearch w h :
  withSearchDB None (clonedSearch w h) = conditionsOf w h.
Proof. done. Qed.

(** X8: [First], [Take], [Last], [Find], [Scan], [Create], [Delete],
    [Updates] and [UpdateColumns], called at the end of any chain of
    condition-building calls, never panic and run exactly one callback
    chain of the parent's registry, in registry order, against one scope:
    the query chain for the first five, the create chain for [Create], the
    delete chain for [Delete], the update chain for the last two.  The
    scope is for the value passed to the call ([Scan] and the updates use
    the value [Model] set), and its conditions are those of the receiver,
    then those of the chain in call order, then limit 1 for
    [First]/[Take]/[Last] and the inline conditions as one more where
    fragment; [Find] sets no limit.  The update calls pass their values as
    the scope's "gorm:update_interface".  Nothing is called on the
    connection by the handle itself, and the handle the chain started from
    is unchanged. *)
Theorem chain_then_terminal (bs : list builderCall) (t : terminalCall) w s h reg :
  dbs w !! s = Some h → wf_handle w h → rooted w h reg →
  ∃ r w' sc snap,
    (db ← Gorm.Scopes s (map call bs); run t db) w = Some (r, w') ∧
    trace w' = trace w ++ chainEvents (chainOf t reg) sc snap ∧
    scope_db sc = r ∧
    scope_Value sc = targetOf t (targetValues bs (value h)) ∧
    scope_instance sc = scopeInstanceOf t ∧
    withSearchDB None snap = scopeSearchOf t (mutations bs (conditionsOf w h)) ∧
    connCalls w' = connCalls w ∧
    dbs w' !! s = Some h.
Proof.
  intros Hs Hwf Hroot.
  destruct (chain_run bs w s h Hs Hwf)
    as (d & w1 & hd & Hrun & Hd & Hwf1 & Hc & Hv & _ & _ & _ & Hp & _ & _ &
        [k1 H1] & _ & _ & _ & Hreg & Htr & Hcc & _).
  rewrite (run_bind _ _ _ _ _ Hrun).
  assert (Hroot1 : rooted w1 hd reg).
  { eapply (rooted_parent _ h); [done|].
    eapply rooted_grow; [exact Hroot|by eexists|by exists []; rewrite app_nil_r, Hreg]. }
  destruct (terminal_run t w1 d hd reg Hd Hwf1 Hroot1) as (rh & lg & scr & Hrun' & Hsk).
  rewrite Hrun'. eexists _, _, _, _. split; [reflexivity|]. cbn.
  split; [by rewrite Htr|]. split; [done|]. split; [by rewrite Hv|].
  split; [done|].
  split; [by rewrite <- scopeSearchOf_withSearchDB, conditionsOf_clonedSearch, Hc|].
  split; [done|].
  rewrite H1, <- app_assoc. apply lookup_app_l_Some. exact Hs.
Qed.

Lemma chain_then_terminal_witness :
  ∃ r w' sc snap,
    (db ← Gorm.Scopes 0 (map call [bModel (Struct "User" 7); bWhere (Str "age > ?") [Int 18]]);
     run (tUpdates (Map [("name", Str "hello")]) []) db) (opened [])
      = Some (r, w') ∧
    trace w' = trace (opened []) ++
      chainEvents (chainOf (tUpdates (Map [("name", Str "hello")]) []) sampleChains) sc snap ∧
    scope_db sc = r ∧
    scope_Value sc = Struct "User" 7.
Proof.
  destruct (chain_then_terminal
              [bModel (Struct "User" 7); bWhere (Str "age > ?") [Int 18]]
              (tUpdates (Map [("name", Str "hello")]) [])
              (opened []) 0 root0 sampleChains eq_refl
              (wf_handle_check (opened []) root0 eq_refl)
              (ex_intro _ 0 (ex_intro _ root0 (ex_intro _ 0
                 (conj eq_refl (conj eq_refl (conj eq_refl eq_refl)))))))
    as (r & w' & sc & snap & H1 & H2 & H3 & H4 & _).
  exact (ex_intro _ r (ex_intro _ w' (ex_intro _ sc (ex_intro _ snap
           (conj H1 (conj H2 (conj H3 H4))))))).
Defined.

(** X9: a call that runs a chain changes no object that existed before:
    the receiver keeps its error, its rows-affected count, its conditions
    and its settings, so what the chain reports is to be read from the
    returned handle.  The returned handle is new; its value is the scope's
    value, its connection and parent are the receiver's, and its conditions
    are the receiver's: neither the limit 1 of [First]/[Take]/[Last] nor
    the inline conditions are carried over to a later call.  Its settings
    are the receiver's plus the entries the call sets on the scope
    ("gorm:order_by_primary_key" is "ASC" for [First], "DESC" for [Last]
    and not set by [Take]).  It is well-formed and has the same parent
    registry, so further calls can be made on it. *)
Theorem terminal_leaves_receiver (t : terminalCall) w s h reg :
  dbs w !! s = Some h → wf_handle w h → rooted w h reg →
  ∃ w' rh,
    run t s w = Some (length (dbs w), w') ∧
    dbs w' !! length (dbs w) = Some rh ∧
    (∀ i x, dbs w !! i = Some x → dbs w' !! i = Some x) ∧
    (∀ i x, searches w !! i = Some x → searches w' !! i = Some x) ∧
    (∀ i x, settings w !! i = Some x → settings w' !! i = Some x) ∧
    (∀ i x, dialects w !! i = Some x → dialects w' !! i = Some x) ∧
    registries w' = registries w ∧
    value rh = targetOf t (value h) ∧
    db rh = db h ∧ parent rh = parent h ∧
    conditionsOf w' rh = conditionsOf w h ∧
    settingsOf w' rh = scopeSettingsOf t (settingsOf w h) ∧
    wf_handle w' rh ∧ rooted w' rh reg.
Proof.
  intros Hs Hwf Hroot.
  destruct (terminal_run t w s h reg Hs Hwf Hroot) as (rh & lg & scr & Hrun & Hsk).
  apply sameSkeleton_fields in Hsk as (Hv & Hdb & Hse & Hvs & Hp & _ & Hdi & _).
  cbn in Hv, Hdb, Hse, Hvs, Hp, Hdi.
  eexists _, rh. split; [exact Hrun|]. cbn.
  split; [apply lookup_snoc_new|].
  split; [intros i x Hx; by apply lookup_app_l_Some|].
  split; [intros i x Hx; by apply lookup_app_l_Some|].
  split; [intros i x Hx; by apply lookup_app_l_Some|].
  split; [intros i x Hx; by apply lookup_app_l_Some|].
  split; [done|]. split; [done|]. split; [done|]. split; [done|].
  split.
  { unfold conditionsOf at 1, conditionSet. rewrite <- Hse. cbn.
    by rewrite lookup_snoc2_fst. }
  split.
  { unfold settingsOf at 1. rewrite <- Hvs. cbn. by rewrite lookup_snoc_new. }
  split.
  { split; [|split]; cbn.
    - eexists. split; [by rewrite <- Hdi|]. rewrite lookup_snoc_new. eauto.
    - intros m Hm. rewrite <- Hvs in Hm. injection Hm as <-.
      rewrite lookup_snoc_new. eauto.
    - intros p Hp'. rewrite <- Hse in Hp'. injection Hp' as <-.
      rewrite lookup_snoc2_fst. eauto. }
  eapply (rooted_parent _ h); [done|].
  eapply rooted_grow; [exact Hroot|grow..].
Qed.

Lemma terminal_leaves_receiver_witness :
  ∃ w' rh,
    run (tLast (Struct "User" 0) [Str "name = ?"; Str "jinzhu"]) 0 (opened [])
      = Some (1, w') ∧
    dbs w' !! 1 = Some rh.
Proof.
  destruct (terminal_leaves_receiver
              (tLast (Struct "User" 0) [Str "name = ?"; Str "jinzhu"])
              (opened []) 0 root0 sampleChains eq_refl
              (wf_handle_check (opened []) root0 eq_refl)
              (ex_intro _ 0 (ex_intro _ root0 (ex_intro _ 0
                 (conj eq_refl (conj eq_refl (conj eq_refl eq_refl)))))))
    as (w' & rh & H1 & H2 & _).
  exact (ex_intro _ w' (ex_intro _ rh (conj H1 H2))).
Defined.

(** *** Flags of a handle *)

Lemma BlockGlobalUpdate_run w s h enable :
  dbs w !! s = Some h →
  DB.BlockGlobalUpdate s enable w =
    Some (s, set_dbs (<[s := set_blockGlobalUpdate enable h]> (dbs w)) w).
Proof. intros Hs. unfold DB.BlockGlobalUpdate. munfold. heap_simpl. done. Qed.

Lemma rooted_flag w s h h0 enable reg :
  dbs w !! s = Some h → rooted w h0 reg →
  rooted (set_dbs (<[s := set_blockGlobalUpdate enable h]> (dbs w)) w) h0 reg.
Proof.
  intros Hs (p & ph & r & Hp & Hph & Hr & Hreg).
  assert (Hlt : s < length (dbs w)) by by eapply lookup_lt_Some.
  destruct (decide (p = s)) as [Heq|Hne].
  - subst p. assert (ph = h) as ->.
    { assert (Some ph = Some h) as [= ->] by (rewrite <- Hph; exact Hs). done. }
    exists s, (set_blockGlobalUpdate enable h), r.
    split; [done|]. split; [|done]. cbn. by apply list_lookup_insert_eq.
  - exists p, ph, r. split; [done|]. split; [|done]. cbn.
    by rewrite list_lookup_insert_ne.
Qed.

(** X15: [BlockGlobalUpdate] sets the flag on the receiver itself and
    returns the receiver; every handle derived from it afterwards inherits
    the flag.  After any chain of condition-building calls, the handle of
    the scope on which [First], [Find], [Create], [Delete], [Updates] and
    the other chain-running calls execute, which is the handle they return,
    reports the flag through [HasBlockGlobalUpdate]; it also has the log
    mode of the receiver. *)
Theorem BlockGlobalUpdate_inherited (enable : bool) (bs : list builderCall)
    (t : terminalCall) w s h reg :
  dbs w !! s = Some h → wf_handle w h → rooted w h reg →
  ∃ r w' rh,
    (s' ← DB.BlockGlobalUpdate s enable;
     db ← Gorm.Scopes s' (map call bs); run t db) w = Some (r, w') ∧
    dbs w' !! s = Some (set_blockGlobalUpdate enable h) ∧
    dbs w' !! r = Some rh ∧
    DB.HasBlockGlobalUpdate rh = enable ∧ logMode rh = logMode h.
Proof.
  intros Hs Hwf Hroot.
  assert (Hlt : s < length (dbs w)) by by eapply lookup_lt_Some.
  rewrite (run_bind _ _ _ _ _ (BlockGlobalUpdate_run w s h enable Hs)).
  set (w0 := set_dbs _ w). set (h0 := set_blockGlobalUpdate enable h).
  assert (Hs0 : dbs w0 !! s = Some h0) by by apply list_lookup_insert_eq.
  assert (Hwf0 : wf_handle w0 h0) by exact Hwf.
  assert (Hroot0 : rooted w0 h0 reg).
  { apply rooted_flag; [done|]. eapply rooted_parent; [|exact Hroot]. done. }
  destruct (chain_run bs w0 s h0 Hs0 Hwf0)
    as (d & w1 & hd & Hrun & Hd & Hwf1 & _ & _ & _ & _ & _ & Hp & _ & _ &
        [k1 H1] & _ & _ & _ & Hreg & _).
  destruct (chain_flags bs w0 s h0 d w1 hd Hs0 Hwf0 Hrun Hd) as [Hb Hl].
  rewrite (run_bind _ _ _ _ _ Hrun).
  assert (Hroot1 : rooted w1 hd reg).
  { eapply (rooted_parent _ h0); [done|].
    eapply rooted_grow; [exact Hroot0|by eexists|by exists []; rewrite app_nil_r, Hreg]. }
  destruct (terminal_run t w1 d hd reg Hd Hwf1 Hroot1) as (rh & lg & scr & Hrun' & Hsk).
  apply sameSkeleton_fields in Hsk as (_ & _ & _ & _ & _ & _ & _ & Hlm & Hbg).
  cbn in Hlm, Hbg.
  rewrite Hrun'. eexists (length (dbs w1)), _, rh. split; [reflexivity|]. cbn.
  split; [rewrite H1, <- app_assoc; by apply lookup_app_l_Some|].
  split; [apply lookup_snoc_new|].
  unfold DB.HasBlockGlobalUpdate. by rewrite <- Hbg, <- Hlm, Hb, Hl.
Qed.

Lemma BlockGlobalUpdate_inherited_witness :
  ∃ r w' rh,
    (s' ← DB.BlockGlobalUpdate 0 true;
     db ← Gorm.Scopes s' (map call [bModel (Struct "User" 0)]);
     run (tDelete (Struct "User" 0) []) db) (opened []) = Some (r, w') ∧
    dbs w' !! 0 = Some (set_blockGlobalUpdate true root0) ∧
    dbs w' !! r = Some rh ∧
    DB.HasBlockGlobalUpdate rh = true ∧ logMode rh = logMode root0.
Proof.
  exact (BlockGlobalUpdate_inherited true [bModel (Struct "User" 0)]
           (tDelete (Struct "User" 0) []) (opened []) 0 root0 sampleChains eq_refl
           (wf_handle_check (opened []) root0 eq_refl)
           (ex_intro _ 0 (ex_intro _ root0 (ex_intro _ 0
              (conj eq_refl (conj eq_refl (conj eq_refl eq_refl))))))).
Defined.

(** *** Log mode, [Debug] and [New] *)

Lemma LogMode_run w s h enable :
  dbs w !! s = Some h →
  DB.LogMode s enable w =
    Some (s, set_dbs (<[s := set_logMode (if enable then 2 else 1)%Z h]> (dbs w)) w).
Proof.
  intros Hs. unfold DB.LogMode. destruct enable; munfold; heap_simpl; done.
Qed.

Lemma error_eqb_not_sentinel e :
  e ≠ ErrRecordNotFound → error_eqb e ErrRecordNotFound = false.
Proof.
  intros Hne. destruct (error_eqb e ErrRecordNotFound) eqn:E; [|done].
  by apply error_eqb_sentinel in E.
Qed.

Lemma Debug_run w s h :
  dbs w !! s = Some h → wf_handle w h →
  DB.Debug s w =
    Some (length (dbs w),
          set_dbs (dbs w ++ [set_logMode 2 (clonedDB w h)]) (cloned w h)).
Proof.
  intros Hs Hwf. unfold DB.Debug.
  rewrite (run_bind _ _ _ _ _ (Clone_run w s h Hs Hwf)).
  erewrite LogMode_run by (cbn; apply lookup_snoc_new).
  cbn. by rewrite insert_snoc_new.
Qed.

(** X1: what [AddError] prints depends on the log mode alone.  A handle
    whose log mode was never set (mode 0) prints every error other than the
    record-not-found sentinel through its logger, in a goroutine.
    [LogMode] changes the mode of the receiver in place and returns the
    receiver: after [LogMode(false)] an added error prints nothing, after
    [LogMode(true)] it prints one synchronous entry that starts with
    "log". *)
Theorem LogMode_controls_error_log w s h (e : error) :
  dbs w !! s = Some h →
  e ≠ ErrRecordNotFound →
  (logMode h = 0%Z →
   ∃ r w', DB.AddError s (Some e) w = Some (r, w') ∧
     printed w' = printed w ++ [mkLog (logger h) true [LFileLine; LErr e]]) ∧
  (∀ enable : bool,
   ∃ r w' h',
     (db ← DB.LogMode s enable; DB.AddError db (Some e)) w = Some (r, w') ∧
     dbs w' !! s = Some h' ∧
     logMode h' = (if enable then 2 else 1)%Z ∧
     printed w' = printed w ++
       (if enable then [mkLog (logger h) false [LStr "log"; LFileLine; LErr e]] else [])).
Proof.
  intros Hs Hne. pose proof (error_eqb_not_sentinel e Hne) as E.
  assert (Hlt : s < length (dbs w)) by by eapply lookup_lt_Some.
  split.
  - intros H0. eexists _, _. split; [by rewrite (AddError_run _ _ _ _ Hs)|].
    cbn. unfold addedLog. by rewrite E, bool_decide_eq_true_2.
  - intros enable.
    rewrite (run_bind _ _ _ _ _ (LogMode_run w s h enable Hs)).
    erewrite AddError_run by (cbn; by apply list_lookup_insert_eq).
    eexists _, _, _. split; [reflexivity|]. cbn.
    rewrite list_insert_insert_eq. split; [by apply list_lookup_insert_eq|].
    split; [done|]. unfold addedLog. rewrite E. by destruct enable.
Qed.

Lemma LogMode_controls_error_log_witness :
  ∃ r w' h',
    (db ← DB.LogMode 0 false; DB.AddError db (Some (ErrOther "syntax error")))
      (opened []) = Some (r, w') ∧
    dbs w' !! 0 = Some h' ∧ logMode h' = 1%Z ∧
    printed w' = printed (opened []) ++ [].
Proof.
  exact (proj2 (LogMode_controls_error_log (opened []) 0 root0
                  (ErrOther "syntax error") eq_refl ltac:(discriminate)) false).
Defined.

(** X2: [Debug] does not touch the receiver: it returns a new handle, a
    clone of the receiver with log mode 2, and the receiver keeps its own
    log mode.  An error added to the returned handle is printed as one
    synchronous "log" entry whatever the receiver's mode is. *)
Theorem Debug_leaves_receiver w s h (e : error) :
  dbs w !! s = Some h → wf_handle w h →
  e ≠ ErrRecordNotFound →
  ∃ w1 hc,
    DB.Debug s w = Some (length (dbs w), w1) ∧
    dbs w1 !! length (dbs w) = Some hc ∧
    hc = set_logMode 2 (clonedDB w h) ∧
    conditionSet w1 hc = Some (clonedSearch w h) ∧
    dbs w1 !! s = Some h ∧
    ∃ r w2,
      DB.AddError (length (dbs w)) (Some e) w1 = Some (r, w2) ∧
      printed w2 = printed w ++ [mkLog (logger h) false [LStr "log"; LFileLine; LErr e]] ∧
      dbs w2 !! s = Some h.
Proof.
  intros Hs Hwf Hne. pose proof (error_eqb_not_sentinel e Hne) as E.
  assert (Hlt : s < length (dbs w)) by by eapply lookup_lt_Some.
  eexists _, _. split; [by apply Debug_run|].
  split; [apply lookup_snoc_new|]. split; [done|].
  split; [unfold conditionSet; cbn; apply lookup_snoc_new|].
  split; [cbn; by apply lookup_app_l_Some|].
  erewrite AddError_run by (cbn; apply lookup_snoc_new).
  eexists _, _. split; [reflexivity|]. cbn.
  split; [unfold addedLog; cbn; by rewrite E|].
  rewrite insert_snoc_new. by apply lookup_app_l_Some.
Qed.

Lemma Debug_leaves_receiver_witness :
  ∃ w1 hc,
    DB.Debug 0 (opened []) = Some (1, w1) ∧ dbs w1 !! 1 = Some hc ∧
    hc = set_logMode 2 (clonedDB (opened []) root0).
Proof.
  destruct (Debug_leaves_receiver (opened []) 0 root0 (ErrOther "syntax error")
              eq_refl (wf_handle_check (opened []) root0 eq_refl)
              ltac:(discriminate))
    as (w1 & hc & H1 & H2 & H3 & _).
  exact (ex_intro _ w1 (ex_intro _ hc (conj H1 (conj H2 H3)))).
Defined.

(** X3: [New] returns a new handle without conditions and without a
    value: its condition set is nil, whatever the receiver had accumulated,
    while the error, the connection, the parent and the settings entries
    are the receiver's.  The receiver is left as it was.  The next
    condition-building call on the new handle starts from the empty
    condition set (limit and offset -1). *)
Theorem New_drops_conditions w s h :
  dbs w !! s = Some h → wf_handle w h →
  ∃ w1 hn,
    DB.New s w = Some (length (dbs w), w1) ∧
    dbs w1 !! length (dbs w) = Some hn ∧
    conditionSet w1 hn = None ∧ value hn = Nil ∧
    err hn = err h ∧ db hn = db h ∧ parent hn = parent h ∧
    settingsOf w1 hn = settingsOf w h ∧
    dbs w1 !! s = Some h ∧ conditionSet w1 h = conditionSet w h ∧
    ∀ b : builderCall, ∃ w2 hb,
      call b (length (dbs w)) w1 = Some (S (length (dbs w)), w2) ∧
      dbs w2 !! S (length (dbs w)) = Some hb ∧
      conditionSet w2 hb =
        Some (mutation b (withSearchDB (Some (S (length (dbs w)))) emptySearch)).
Proof.
  intros Hs Hwf.
  eexists _, _. split; [by apply New_run|].
  split; [apply lookup_snoc_new|].
  split; [done|]. split; [done|]. split; [done|]. split; [done|]. split; [done|].
  split; [unfold settingsOf; cbn; by rewrite lookup_snoc_new|].
  split; [cbn; by apply lookup_app_l_Some|].
  split; [by apply (conditionSet_app w _ h [clonedSearch w h])|].
  intros b.
  set (w1 := set_dbs _ _).
  assert (Hn : dbs w1 !! length (dbs w) = Some (newDB w h)) by apply lookup_snoc_new.
  assert (Hwfn : wf_handle w1 (newDB w h)).
  { split; [|split]; cbn.
    - eexists. split; [done|]. rewrite lookup_snoc_new. eauto.
    - intros m [= <-]. rewrite lookup_snoc_new. eauto.
    - done. }
  eexists _, _. split.
  { rewrite (builder_run b w1 _ _ Hn Hwfn). cbn. by rewrite length_snoc. }
  split; [cbn; rewrite <- (length_snoc (dbs w) (newDB w h)); apply lookup_snoc_new|].
  rewrite conditionSet_built. unfold clonedSearch. cbn. by rewrite length_snoc.
Qed.

Lemma New_drops_conditions_witness :
  ∃ w1 hn,
    DB.New 0 (opened []) = Some (1, w1) ∧ dbs w1 !! 1 = Some hn ∧
    conditionSet w1 hn = None.
Proof.
  destruct (New_drops_conditions (opened []) 0 root0 eq_refl
              (wf_handle_check (opened []) root0 eq_refl))
    as (w1 & hn & H1 & H2 & H3 & _).
  exact (ex_intro _ w1 (ex_intro _ hn (conj H1 (conj H2 H3)))).
Defined.

(** *** Starting a transaction *)

Lemma Begin_cant_run w s h :
  dbs w !! s = Some h → wf_handle w h →
  DB.implementsSqlDb (db h) && negb (DB.isNilInterface (db h)) = false →
  DB.Begin s w =
    Some (length (dbs w),
          set_printed (printed w ++ addedLog (clonedDB w h) (Some ErrCantStartTransaction))
            (set_dbs (dbs w ++ [set_err (addedError (clonedDB w h) (Some ErrCantStartTransaction))
                                  (clonedDB w h)]) (cloned w h))).
Proof.
  intros Hs Hwf Hg. unfold DB.Begin.
  rewrite (run_bind _ _ _ _ _ (Clone_run w s h Hs Hwf)).
  erewrite run_bind by (apply run_get; cbn; apply lookup_snoc_new).
  unfold DB.SQLCommonDB. cbn [db clonedDB]. rewrite Hg.
  erewrite run_bind by (apply AddError_run; cbn; apply lookup_snoc_new).
  cbn. by rewrite insert_snoc_new.
Qed.

Lemma Begin_ok_run w s h :
  dbs w !! s = Some h → wf_handle w h →
  DB.implementsSqlDb (db h) = true → db h ≠ SqlDB None →
  DB.Begin s w = Some (length (dbs w), (begun w h).1).
Proof.
  intros Hs Hwf Hg Hnn. unfold DB.Begin.
  rewrite (run_bind _ _ _ _ _ (Clone_run w s h Hs Hwf)).
  erewrite run_bind by (apply run_get; cbn; apply lookup_snoc_new).
  unfold DB.SQLCommonDB, DB.Dialect. cbn [db clonedDB].
  assert (Hcb : DB.connBegin (db h) (cloned w h) =
    Some ((match out_err (default (mkOutcome None None) (head (script w))) with
           | None => SqlTx (Some (S (length (connCalls w))))
           | Some _ => SqlTx None
           end, out_err (default (mkOutcome None None) (head (script w)))),
          set_script (tail (script w))
            (set_connCalls (connCalls w ++ [(db h, mBegin)]) (cloned w h)))).
  { destruct (db h) as [|[d|]|t|id b1 b2]; try done;
      unfold DB.connBegin; munfold; cbn;
      rewrite nextOutcome_run; cbn;
      destruct (out_err _); cbn; rewrite ?(length_snoc (connCalls w)); reflexivity. }
  replace (DB.implementsSqlDb (db h) && negb (DB.isNilInterface (db h))) with true
    by (revert Hg; destruct (db h) as [|[d|]|t|id b1 b2]; cbn; intros Hg;
        rewrite ?Hg; done).
  unfold mbind at 2, M_bind at 1. unfold mbind at 1, M_bind at 1.
  rewrite Hcb. cbn [fst snd].
  unfold DB.SetSQLCommonDB, Dialect_SetDB. munfold. heap_simpl.
  erewrite AddError_run by (cbn; apply lookup_snoc_new).
  cbn. by rewrite !insert_snoc_new.
Qed.

(** X4: [Begin] on a connection that cannot start a transaction (the nil
    interface, a [*sql.Tx] - so a handle that is already in a transaction -
    or a connection type without [Begin]) does not panic and makes no call
    on the connection: it returns a new clone that carries
    [ErrCantStartTransaction] and still holds the receiver's connection.
    The receiver is left as it was. *)
Theorem Begin_unsupported w s h :
  dbs w !! s = Some h → wf_handle w h →
  DB.implementsSqlDb (db h) && negb (DB.isNilInterface (db h)) = false →
  ∃ w' h',
    DB.Begin s w = Some (length (dbs w), w') ∧
    dbs w' !! length (dbs w) = Some h' ∧
    ErrCantStartTransaction ∈ DB.GetErrors h' ∧
    db h' = db h ∧
    connCalls w' = connCalls w ∧ script w' = script w ∧
    dbs w' !! s = Some h.
Proof.
  intros Hs Hwf Hg.
  eexists _, _. split; [by apply Begin_cant_run|].
  split; [apply lookup_snoc_new|].
  split; [|split; [done|split; [done|split; [done|cbn; by apply lookup_app_l_Some]]]].
  rewrite GetErrors_added by done. by apply Errors_Add_last.
Qed.

Lemma Begin_unsupported_witness :
  ∃ w' h',
    DB.Begin 1 (begun (opened []) root0).1 = Some (2, w') ∧
    dbs w' !! 2 = Some h' ∧ ErrCantStartTransaction ∈ DB.GetErrors h' ∧
    connCalls w' = [(SqlDB (Some 0), mBegin)].
Proof.
  destruct (Begin_unsupported (begun (opened []) root0).1 1 (begun (opened []) root0).2
              eq_refl
              (wf_handle_check (begun (opened []) root0).1 (begun (opened []) root0).2 eq_refl)
              eq_refl)
    as (w' & h' & H1 & H2 & H3 & _ & H5 & _).
  exists w', h'. split; [exact H1|]. split; [exact H2|]. split; [exact H3|exact H5].
Defined.

(** X5: [Begin] on a connection that offers [Begin] (a non-nil [*sql.DB]
    or a caller's type with [Begin]) calls it exactly once and returns a new
    clone.  The clone's connection is what the call returned: a new
    transaction, with the receiver's error unchanged, or the nil [*sql.Tx]
    with the reported error added.  The clone's own dialect object is
    rebound to that connection; the receiver and every dialect object that
    existed before - the receiver's included - stay as they were. *)
Theorem Begin_starts_transaction w s h :
  dbs w !! s = Some h → wf_handle w h →
  DB.implementsSqlDb (db h) = true → db h ≠ SqlDB None →
  ∃ w' h' d' dl,
    DB.Begin s w = Some (length (dbs w), w') ∧
    dbs w' !! length (dbs w) = Some h' ∧
    connCalls w' = connCalls w ++ [(db h, mBegin)] ∧
    script w' = tail (script w) ∧
    dialect h' = Some d' ∧ dialects w' !! d' = Some dl ∧
    dialect_db dl = db h' ∧ dialect_name dl = dialectName w h ∧
    dbs w' !! s = Some h ∧
    (∀ d x, dialects w !! d = Some x → dialects w' !! d = Some x) ∧
    match out_err (default (mkOutcome None None) (head (script w))) with
    | None =>
        db h' = SqlTx (Some (S (length (connCalls w)))) ∧ err h' = err h
    | Some e =>
        db h' = SqlTx None ∧ DB.Error h' ≠ None ∧
        (isErrors e = false → e ∈ DB.GetErrors h')
    end.
Proof.
  intros Hs Hwf Hg Hnn.
  eexists _, _, _, _. split; [by apply Begin_ok_run|]. cbn.
  split; [apply lookup_snoc_new|]. split; [done|]. split; [done|].
  split; [done|]. split; [apply lookup_snoc_new|].
  split; [by destruct (out_err _)|]. split; [done|].
  split; [by apply lookup_app_l_Some|].
  split; [intros d x Hx; by apply lookup_app_l_Some|].
  destruct (out_err _) as [e|]; [|done].
  split; [done|]. split.
  - unfold DB.Error. cbn. by destruct (error_eqb e ErrRecordNotFound).
  - intros He. destruct (error_eqb e ErrRecordNotFound) eqn:E.
    + apply error_eqb_sentinel in E. subst.
      by apply list_elem_of_singleton.
    + rewrite GetErrors_added by done. by apply Errors_Add_last.
Qed.

Lemma Begin_starts_transaction_witness :
  ∃ w' h' d' dl,
    DB.Begin 0 (opened []) = Some (1, w') ∧ dbs w' !! 1 = Some h' ∧
    connCalls w' = [(SqlDB (Some 0), mBegin)] ∧ script w' = [] ∧
    dialect h' = Some d' ∧ dialects w' !! d' = Some dl ∧
    dialect_db dl = db h' ∧ dialect_name dl = "sqlite3".
Proof.
  destruct (Begin_starts_transaction (opened []) 0 root0 eq_refl
              (wf_handle_check (opened []) root0 eq_refl) eq_refl
              ltac:(discriminate))
    as (w' & h' & d' & dl & H1 & H2 & H3 & H4 & H5 & H6 & H7 & H8 & _).
  exists w', h', d', dl.
  exact (conj H1 (conj H2 (conj H3 (conj H4 (conj H5 (conj H6 (conj H7 H8))))))).
Defined.

(** X6: [Begin] followed by [Commit] or [Rollback] on the returned handle
    never panics.  When the connection started the transaction, the second
    call reaches the new transaction exactly once; when it reported an
    error, the handle holds the nil [*sql.Tx], the second call does not
    reach the connection and adds [ErrInvalidTransaction].  The handle
    [Begin] was called on is left as it was in both cases. *)
Theorem Begin_then_end w s h (commit : bool) :
  dbs w !! s = Some h → wf_handle w h →
  DB.implementsSqlDb (db h) = true → db h ≠ SqlDB None →
  ∃ w' h',
    (tx ← DB.Begin s; if commit then DB.Commit tx else DB.Rollback tx) w
      = Some (length (dbs w), w') ∧
    dbs w' !! length (dbs w) = Some h' ∧
    dbs w' !! s = Some h ∧
    match out_err (default (mkOutcome None None) (head (script w))) with
    | None =>
        connCalls w' = connCalls w ++
          [(db h, mBegin);
           (SqlTx (Some (S (length (connCalls w)))), if commit then mCommit else mRollback)] ∧
        script w' = tail (tail (script w))
    | Some _ =>
        connCalls w' = connCalls w ++ [(db h, mBegin)] ∧
        script w' = tail (script w) ∧
        ErrInvalidTransaction ∈ DB.GetErrors h'
    end.
Proof.
  intros Hs Hwf Hg Hnn.
  assert (Hlt : s < length (dbs w)) by by eapply lookup_lt_Some.
  rewrite (run_bind _ _ _ _ _ (Begin_ok_run w s h Hs Hwf Hg Hnn)).
  assert (Hc : dbs (begun w h).1 !! length (dbs w) = Some (begun w h).2)
    by apply lookup_snoc_new.
  assert (Hend : ∀ m,
    ∃ w' h',
      ((if activeTx (db (begun w h).2)
        then r ← DB.connCall (db (begun w h).2) m; DB.AddError (length (dbs w)) r
        else DB.AddError (length (dbs w)) (Some ErrInvalidTransaction)) ;;
       mret (length (dbs w))) (begun w h).1 = Some (length (dbs w), w') ∧
      dbs w' !! length (dbs w) = Some h' ∧ dbs w' !! s = Some h ∧
      match out_err (default (mkOutcome None None) (head (script w))) with
      | None =>
          connCalls w' = connCalls w ++
            [(db h, mBegin); (SqlTx (Some (S (length (connCalls w)))), m)] ∧
          script w' = tail (tail (script w))
      | Some _ =>
          connCalls w' = connCalls w ++ [(db h, mBegin)] ∧
          script w' = tail (script w) ∧
          ErrInvalidTransaction ∈ DB.GetErrors h'
      end).
  { intros m. unfold mbind, M_bind.
    destruct (out_err (default (mkOutcome None None) (head (script w)))) as [e|] eqn:Eo.
    - assert (Ha : activeTx (db (begun w h).2) = false)
        by (unfold begun; cbn; by rewrite Eo).
      rewrite Ha.
      destruct (AddError_elem _ _ _ ErrInvalidTransaction Hc eq_refl)
        as (r & h' & w' & Hrun & Hh' & Hin & Hcalls & Hscr); [done|].
      rewrite Hrun. exists w', h'. split; [done|]. split; [done|].
      rewrite Hcalls, Hscr. split; [|done].
      rewrite (AddError_run _ _ _ _ Hc) in Hrun. injection Hrun as _ <-.
      cbn. rewrite insert_snoc_new. by apply lookup_app_l_Some.
    - assert (Hdb : db (begun w h).2 = SqlTx (Some (S (length (connCalls w)))))
        by (unfold begun; cbn; by rewrite Eo).
      rewrite Hdb. cbn [activeTx].
      rewrite (connCall_active (SqlTx (Some (S (length (connCalls w))))) m _ eq_refl).
      erewrite AddError_run by (cbn; exact Hc).
      eexists _, _. split; [reflexivity|]. cbn.
      rewrite insert_snoc_new.
      split; [apply lookup_snoc_new|]. split; [by apply lookup_app_l_Some|].
      by rewrite <- app_assoc. }
  unfold DB.Commit, DB.Rollback.
  destruct commit;
    rewrite (run_bind _ _ _ _ _ (run_get dbs _ _ _ Hc)), guard_activeTx;
    apply Hend.
Qed.

Lemma Begin_then_end_witness :
  ∃ w' h',
    (tx ← DB.Begin 0; DB.Rollback tx) (opened []) = Some (1, w') ∧
    dbs w' !! 1 = Some h' ∧ dbs w' !! 0 = Some root0 ∧
    connCalls w' = [(SqlDB (Some 0), mBegin); (SqlTx (Some 1), mRollback)] ∧
    script w' = [].
Proof.
  exact (Begin_then_end (opened []) 0 root0 false eq_refl
           (wf_handle_check (opened []) root0 eq_refl) eq_refl ltac:(discriminate)).
Defined.

(** *** [Save] of a new record, column operations, [DropTable] *)

(** X10: [NewRecord] never panics on a well-formed handle, executes
    nothing and changes no handle that existed before.  [Save] inserts
    exactly the records it calls new: whenever [NewRecord] reports true for
    a value, [Save] of that value does what [Create] does - same returned
    handle, same store, same calls - and runs no update chain and no
    query. *)
Theorem Save_new_record_is_Create w s h (value : iface) :
  dbs w !! s = Some h → wf_handle w h →
  ∃ b w0,
    Gorm.NewRecord s value w = Some (b, w0) ∧
    (∀ i x, dbs w !! i = Some x → dbs w0 !! i = Some x) ∧
    trace w0 = trace w ∧ script w0 = script w ∧ connCalls w0 = connCalls w ∧
    (b = true → DB.Save s value w = DB.Create s value w).
Proof.
  intros Hs Hwf. unfold Gorm.NewRecord, DB.Save, DB.Create.
  rewrite !(run_bind _ _ _ _ _ (NewScope_run w s h value Hs Hwf)).
  eexists _, _. split; [reflexivity|]. cbn.
  split; [intros i x Hx; by apply lookup_app_l_Some|].
  do 3 (split; [done|]).
  by intros ->.
Qed.

Lemma Save_new_record_is_Create_witness :
  ∃ b w0,
    Gorm.NewRecord 0 (Struct "User" 0) (opened []) = Some (b, w0) ∧
    (b = true → DB.Save 0 (Struct "User" 0) (opened []) =
                DB.Create 0 (Struct "User" 0) (opened [])).
Proof.
  destruct (Save_new_record_is_Create (opened []) 0 root0 (Struct "User" 0) eq_refl
              (wf_handle_check (opened []) root0 eq_refl))
    as (b & w0 & H1 & _ & _ & _ & _ & H2).
  exact (ex_intro _ b (ex_intro _ w0 (conj H1 H2))).
Defined.

Lemma schema_on_value op w s h :
  dbs w !! s = Some h → wf_handle w h →
  ∃ w' rh,
    (scope ← DB.NewScope s (value h); scope ← DB.schema op scope;
     mret (scope_db scope)) w = Some (length (dbs w), w') ∧
    trace w' = trace w ++
      [mkEvent (CallSchema op) (scopeOf w (value h)) (clonedSearch w h)] ∧
    dbs w' !! s = Some h ∧
    dbs w' !! length (dbs w) = Some rh ∧
    sameSkeleton (clonedDB w h) rh ∧
    connCalls w' = connCalls w.
Proof.
  intros Hs Hwf.
  rewrite (run_bind _ _ _ _ _ (NewScope_run w s h _ Hs Hwf)).
  destruct (schema_run op (scopeOf w (value h)) (scoped w h (value h))
              (set_value (value h) (clonedDB w h)) (clonedSearch w h))
    as (ch' & lg & scr & Hrun & Hsk);
    [apply lookup_snoc_new|apply lookup_snoc2_snd|].
  rewrite (run_bind _ _ _ _ _ Hrun).
  eexists _, ch'. split; [reflexivity|]. cbn.
  rewrite insert_snoc_new.
  split; [done|]. split; [by apply lookup_app_l_Some|].
  split; [apply lookup_snoc_new|]. split; [|done].
  by destruct h.
Qed.

(** X11: [ModifyColumn] and [DropColumn] execute one statement directly
    against one scope for the handle's own value (the one [Model] set) under
    the receiver's conditions, table override included; no callback chain
    runs and the connection is not called by the handle itself.  They
    return a new handle that is a clone of the receiver up to the error and
    the rows-affected count the statement reports; the receiver is left as
    it was. *)
Theorem column_operations_direct w s h (column typ : string) :
  dbs w !! s = Some h → wf_handle w h →
  (∃ w' rh,
     DB.ModifyColumn s column typ w = Some (length (dbs w), w') ∧
     trace w' = trace w ++
       [mkEvent (CallSchema (modifyColumn column typ)) (scopeOf w (value h))
          (clonedSearch w h)] ∧
     dbs w' !! s = Some h ∧ dbs w' !! length (dbs w) = Some rh ∧
     sameSkeleton (clonedDB w h) rh ∧ connCalls w' = connCalls w) ∧
  (∃ w' rh,
     DB.DropColumn s column w = Some (length (dbs w), w') ∧
     trace w' = trace w ++
       [mkEvent (CallSchema (dropColumn column)) (scopeOf w (value h))
          (clonedSearch w h)] ∧
     dbs w' !! s = Some h ∧ dbs w' !! length (dbs w) = Some rh ∧
     sameSkeleton (clonedDB w h) rh ∧ connCalls w' = connCalls w).
Proof.
  intros Hs Hwf. unfold DB.ModifyColumn, DB.DropColumn.
  rewrite !(run_bind _ _ _ _ _ (run_get dbs _ _ _ Hs)).
  split; by apply schema_on_value.
Qed.

Lemma column_operations_direct_witness :
  ∃ w' rh,
    DB.DropColumn 0 "age" (opened []) = Some (1, w') ∧
    trace w' = trace (opened []) ++
      [mkEvent (CallSchema (dropColumn "age")) (scopeOf (opened []) Nil)
         (clonedSearch (opened []) root0)] ∧
    dbs w' !! 0 = Some root0 ∧ dbs w' !! 1 = Some rh ∧
    sameSkeleton (clonedDB (opened []) root0) rh ∧
    connCalls w' = connCalls (opened []).
Proof.
  exact (proj2 (column_operations_direct (opened []) 0 root0 "age" "text" eq_refl
                  (wf_handle_check (opened []) root0 eq_refl))).
Defined.

Lemma schema_step_conditions op w d hd v :
  dbs w !! d = Some hd → wf_handle w hd →
  ∃ w' hd',
    (scope ← DB.NewScope d v; DB.schema op scope) w = Some (scopeOf w v, w') ∧
    trace w' = trace w ++ [mkEvent (CallSchema op) (scopeOf w v) (clonedSearch w hd)] ∧
    dbs w' !! length (dbs w) = Some hd' ∧ wf_handle w' hd' ∧
    conditionSet w' hd' = Some (clonedSearch w hd).
Proof.
  intros Hd Hwf.
  rewrite (run_bind _ _ _ _ _ (NewScope_run w d hd v Hd Hwf)).
  destruct (schema_run op (scopeOf w v) (scoped w hd v)
              (set_value v (clonedDB w hd)) (clonedSearch w hd))
    as (ch' & lg & scr & Hrun & Hsk);
    [apply lookup_snoc_new|apply lookup_snoc2_snd|].
  rewrite Hrun. eexists _, ch'. split; [reflexivity|]. split; [reflexivity|].
  cbn [dbs scope_db scopeOf scoped]. rewrite insert_snoc_new.
  split; [apply lookup_snoc_new|]. split.
  - eapply wf_handle_skeleton; [exact Hsk|].
    split; [|split]; cbn.
    + eexists. split; [done|]. rewrite lookup_snoc_new. eauto.
    + intros m [= <-]. rewrite lookup_snoc_new. eauto.
    + intros p [= <-]. rewrite lookup_snoc2_fst. eauto.
  - rewrite <- (conditionSet_skeleton _ _ _ Hsk).
    unfold conditionSet. cbn. by rewrite lookup_snoc2_fst.
Qed.

Lemma DropTable_switch_table w d hd v :
  dbs w !! d = Some hd → wf_handle w hd →
  ∃ d1 w1 hd1,
    match v with
    | Str tableName => DB.Table d tableName
    | _ => mret d
    end w = Some (d1, w1) ∧
    trace w1 = trace w ∧ dbs w1 !! d1 = Some hd1 ∧ wf_handle w1 hd1 ∧
    tableOf w1 hd1 = match v with Str name => name | _ => tableOf w hd end.
Proof.
  intros Hd Hwf.
  assert (Hid : ∃ d1 w1 hd1, (mret d : M loc) w = Some (d1, w1) ∧
            trace w1 = trace w ∧ dbs w1 !! d1 = Some hd1 ∧ wf_handle w1 hd1 ∧
            tableOf w1 hd1 = tableOf w hd) by (by exists d, w, hd).
  destruct v; try exact Hid.
  eexists _, _, _. split; [exact (builder_run (bTable s) w d hd Hd Hwf)|].
  split; [done|]. split; [apply lookup_snoc_new|].
  split; [apply wf_handle_built|].
  unfold tableOf. by rewrite conditionSet_built.
Qed.

Lemma DropTable_loop_tables values : ∀ w d hd,
  dbs w !! d = Some hd → wf_handle w hd →
  ∃ r w' evs,
    DB.DropTable_loop d values w = Some (r, w') ∧
    trace w' = trace w ++ evs ∧
    map ev_call evs = map (λ _, CallSchema dropTable) values ∧
    map (λ e, scope_Value (ev_scope e)) evs = values ∧
    map (λ e, tableName (ev_search e)) evs = droppedTables (tableOf w hd) values.
Proof.
  induction values as [|v rest IH]; intros w d hd Hd Hwf.
  - exists d, w, []. cbn. by rewrite app_nil_r.
  - cbn [DB.DropTable_loop].
    destruct (DropTable_switch_table w d hd v Hd Hwf)
      as (d0 & w0 & hd0 & Hsw & Htr0 & Hd0 & Hwf0 & Htab0).
    rewrite (run_bind _ _ _ _ _ Hsw).
    destruct (schema_step_conditions dropTable w0 d0 hd0 v Hd0 Hwf0)
      as (w1 & hd1 & Hrun & Htr & Hd1 & Hwf1 & Hcond).
    unfold mbind, M_bind in Hrun |- *.
    destruct (DB.NewScope d0 v w0) as [[sc wx]|]; [|done].
    rewrite Hrun. cbn [scope_db scopeOf].
    destruct (IH w1 _ hd1 Hd1 Hwf1) as (r & w' & evs & Hloop & Htr' & Hc & Hv & Ht).
    exists r, w', (mkEvent (CallSchema dropTable) (scopeOf w0 v) (clonedSearch w0 hd0) :: evs).
    split; [done|].
    split; [by rewrite Htr', Htr, Htr0, <- app_assoc|].
    split; [cbn; by rewrite Hc|]. split; [cbn; by rewrite Hv|].
    cbn [map droppedTables ev_search]. rewrite Ht. f_equal.
    + rewrite <- Htab0. done.
    + f_equal. unfold tableOf at 1. rewrite Hcond. cbn. by rewrite <- Htab0.
Qed.

(** X12: [DropTable] drops its targets one after the other on one chain of
    handles: a target given as a string sets the table override to that
    name, and the override stays in force for every later target that is
    not a string.  So the scope of each target carries the name of the last
    string target up to it, or the receiver's own override when there was
    none. *)
Theorem DropTable_table_override w s h (values : list iface) :
  dbs w !! s = Some h → wf_handle w h →
  ∃ r w' evs,
    DB.DropTable s values w = Some (r, w') ∧
    trace w' = trace w ++ evs ∧
    map ev_call evs = map (λ _, CallSchema dropTable) values ∧
    map (λ e, scope_Value (ev_scope e)) evs = values ∧
    map (λ e, tableName (ev_search e)) evs = droppedTables (tableOf w h) values.
Proof.
  intros Hs Hwf. unfold DB.DropTable.
  rewrite (run_bind _ _ _ _ _ (Clone_run w s h Hs Hwf)).
  destruct (DropTable_loop_tables values (cloned w h) (length (dbs w)) (clonedDB w h))
    as (r & w' & evs & Hrun & Htr & Hc & Hv & Ht);
    [apply lookup_snoc_new|apply wf_cloned|].
  exists r, w', evs. split; [done|]. split; [done|]. split; [done|].
  split; [done|].
  rewrite Ht. f_equal. unfold tableOf. by rewrite conditionSet_cloned.
Qed.

Lemma DropTable_table_override_witness :
  ∃ r w' evs,
    DB.DropTable 0 [Str "emails"; Struct "User" 0] (opened []) = Some (r, w') ∧
    trace w' = trace (opened []) ++ evs ∧
    map ev_call evs = [CallSchema dropTable; CallSchema dropTable] ∧
    map (λ e, scope_Value (ev_scope e)) evs = [Str "emails"; Struct "User" 0] ∧
    map (λ e, tableName (ev_search e)) evs = ["emails"; "emails"].
Proof.
  exact (DropTable_table_override (opened []) 0 root0 [Str "emails"; Struct "User" 0]
           eq_refl (wf_handle_check (opened []) root0 eq_refl)).
Defined.

(** *** [Open] *)

Lemma root_run dialect dbSQL err own calls w :
  Gorm.root dialect dbSQL err own calls w =
    match err with
    | Some _ => Some ((Some (length (dbs w)), err, calls), rootWorld w dialect dbSQL)
    | None =>
        match dbSQL with
        | SqlDB (Some _) =>
            let o := default (mkOutcome None None) (head (script w)) in
            Some ((Some (length (dbs w)), out_err o,
                   calls ++ dbPing dbSQL ::
                     match out_err o with
                     | Some _ => if own then [dbClose dbSQL] else []
                     | None => []
                     end),
                  set_script (tail (script w)) (rootWorld w dialect dbSQL))
        | SqlDB None => None
        | _ => Some ((Some (length (dbs w)), None, calls), rootWorld w dialect dbSQL)
        end
    end.
Proof.
  unfold Gorm.root, DB.SetSQLCommonDB, DB.SetLogger, DB.SetValues, DB.SetCallbacks,
    DB.SetDialect, DB.SetParent, newDialect.
  munfold. heap_simpl.
  destruct err as [e|]; [done|].
  destruct dbSQL as [|[d|]|t|id b1 b2]; try done.
  cbn. rewrite nextOutcome_run. cbn.
  by destruct (out_err _).
Qed.

Lemma sql_Open_run driver source w :
  sql_Open driver source w =
    Some ((match out_err (default (mkOutcome None None) (head (script w))) with
           | None => SqlDB (Some (length (connCalls w)))
           | Some _ => SqlDB None
           end,
           out_err (default (mkOutcome None None) (head (script w)))),
          set_script (tail (script w)) w).
Proof.
  unfold sql_Open. unfold mbind, M_bind. rewrite nextOutcome_run.
  by destruct (out_err _).
Qed.

Lemma rootDB_wf w dialect dbSQL scr :
  wf_handle (set_script scr (rootWorld w dialect dbSQL)) (rootDB w dbSQL).
Proof.
  split; [|split]; cbn.
  - eexists. split; [done|]. rewrite lookup_snoc_new. eauto.
  - intros m [= <-]. rewrite lookup_snoc_new. eauto.
  - done.
Qed.

Lemma rootDB_rooted w dialect dbSQL scr reg :
  registries w !! DefaultCallback = Some reg →
  rooted (set_script scr (rootWorld w dialect dbSQL)) (rootDB w dbSQL) reg.
Proof.
  intros Hreg. exists (length (dbs w)), (rootDB w dbSQL), DefaultCallback.
  split; [done|]. split; [cbn; apply lookup_snoc_new|]. done.
Qed.

Lemma Open_shape dialect args w :
  validSource args = true →
  ∃ dbSQL err calls scr,
    Gorm.Open dialect args w =
      Some ((Some (length (dbs w)), err, calls),
            set_script scr (rootWorld w dialect dbSQL)).
Proof.
  intros Hv.
  destruct args as [|[value|c|v] rest]; try done.
  - assert (Hds : ∃ driver source,
      Gorm.Open dialect (ArgString value :: rest) w =
        ('(dbSQL, err) ← sql_Open driver source;
         Gorm.root dialect dbSQL err true [sqlOpen driver source]) w).
    { destruct rest as [|[src|?|?] more]; try done; by eexists _, _. }
    destruct Hds as (driver & source & ->).
    rewrite (run_bind _ _ _ _ _ (sql_Open_run driver source w)).
    rewrite root_run.
    destruct (out_err (default _ (head (script w)))) as [e|] eqn:E1; cbn.
    + by eexists _, _, _, _.
    + by eexists _, _, _, _.
  - destruct c as [|[d|]|t|id b1 b2]; try done; cbn [Gorm.Open];
      rewrite root_run; cbn.
    + by eexists _, _, _, _.
    + eexists _, _, _, (script w). by destruct w.
    + eexists _, _, _, (script w). by destruct w.
Qed.

(** X13: from one string, a string followed by a string, or a connection
    other than the nil interface and the nil [*sql.DB], [Open] returns a
    handle without panic, whether or not it also returns an error.  The
    handle is new and is its own parent; it holds no error (a failure of
    [sql.Open] or of the ping is returned, not stored), no value, no
    conditions, log mode 0, a new empty settings map, the default callback
    registry, and a new dialect object with the given name bound to the
    handle's connection.  So it is a well-formed root handle in the sense
    every other theorem assumes.  No handle that existed before is changed
    and nothing is executed through a scope or a transaction call. *)
Theorem Open_root_handle (dname : string) (args : list openArg) w reg :
  registries w !! DefaultCallback = Some reg →
  validSource args = true →
  ∃ r err calls w' h d dl,
    Gorm.Open dname args w = Some ((Some r, err, calls), w') ∧
    r = length (dbs w) ∧ dbs w' !! r = Some h ∧
    parent h = Some r ∧
    DB.Error h = None ∧ value h = Nil ∧ logMode h = 0%Z ∧
    conditionSet w' h = None ∧ settingsOf w' h = ∅ ∧
    dialect h = Some d ∧ dialects w' !! d = Some dl ∧
    dialect_name dl = dname ∧ dialect_db dl = db h ∧
    wf_handle w' h ∧ rooted w' h reg ∧
    (∀ i x, dbs w !! i = Some x → dbs w' !! i = Some x) ∧
    searches w' = searches w ∧ registries w' = registries w ∧
    connCalls w' = connCalls w ∧ trace w' = trace w.
Proof.
  intros Hreg Hv.
  destruct (Open_shape dname args w Hv) as (dbSQL & err & calls & scr & Hrun).
  exists (length (dbs w)), err, calls, (set_script scr (rootWorld w dname dbSQL)),
    (rootDB w dbSQL), (length (dialects w)), (mkDialect dname dbSQL).
  split; [exact Hrun|]. split; [done|].
  split; [cbn; apply lookup_snoc_new|].
  do 5 (split; [done|]).
  split; [unfold settingsOf; cbn; by rewrite lookup_snoc_new|].
  split; [done|]. split; [cbn; apply lookup_snoc_new|].
  split; [done|]. split; [done|].
  split; [apply rootDB_wf|]. split; [by apply rootDB_rooted|].
  split; [intros i x Hx; cbn; by apply lookup_app_l_Some|]. done.
Qed.

Lemma Open_root_handle_witness :
  ∃ r err calls w' h,
    Gorm.Open "sqlite3" [ArgString "test.db"] (opened []) = Some ((Some r, err, calls), w') ∧
    r = 1 ∧ dbs w' !! r = Some h ∧ parent h = Some r.
Proof.
  destruct (Open_root_handle "sqlite3" [ArgString "test.db"] (opened []) sampleChains
              eq_refl eq_refl)
    as (r & err & calls & w' & h & d & dl & H1 & H2 & H3 & H4 & _).
  exact (ex_intro _ r (ex_intro _ err (ex_intro _ calls (ex_intro _ w'
           (ex_intro _ h (conj H1 (conj H2 (conj H3 H4)))))))).
Defined.

(** X14: what [Open] asks of database/sql and which error it returns.
    With no source, or with a first argument that is neither a string nor a
    connection, it returns no handle and an error, makes no call and leaves
    the store as it was.  With a string it calls [sql.Open] once - with the
    dialect as driver and the string as source, or, when a second string
    follows, with the first string as driver and the second as source; if
    that fails it returns the error with a handle on the nil [*sql.DB] and
    does not ping; otherwise it pings once, returns what the ping reports,
    and closes the connection exactly when the ping failed.  With a
    connection of the caller it pings only a [*sql.DB], returns what the
    ping reports and never closes the connection.  The returned handle
    never carries the error. *)
Theorem Open_source_protocol (dname : string) w :
  let o1 := default (mkOutcome None None) (head (script w)) in
  let o2 := default (mkOutcome None None) (head (tail (script w))) in
  (Gorm.Open dname [] w = Some ((None, Some (ErrOther "invalid database source"), []), w)) ∧
  (∀ v rest, ∃ e, Gorm.Open dname (ArgOther v :: rest) w = Some ((None, Some e, []), w)) ∧
  (∀ value rest driver source,
     (rest = [] ∧ driver = dname ∧ source = value) ∨
     (∃ more, rest = ArgString source :: more ∧ driver = value) →
     ∃ r w',
       Gorm.Open dname (ArgString value :: rest) w =
         Some ((Some r,
                match out_err o1 with Some e => Some e | None => out_err o2 end,
                match out_err o1 with
                | Some _ => [sqlOpen driver source]
                | None =>
                    sqlOpen driver source :: dbPing (SqlDB (Some (length (connCalls w)))) ::
                    match out_err o2 with
                    | Some _ => [dbClose (SqlDB (Some (length (connCalls w))))]
                    | None => []
                    end
                end), w') ∧
       ∃ h, dbs w' !! r = Some h ∧ DB.Error h = None ∧
         db h = match out_err o1 with
                | Some _ => SqlDB None
                | None => SqlDB (Some (length (connCalls w)))
                end) ∧
  (∀ c rest, validSource (ArgConn c :: rest) = true →
     ∃ r w',
       Gorm.Open dname (ArgConn c :: rest) w =
         Some ((Some r,
                match c with SqlDB _ => out_err o1 | _ => None end,
                match c with SqlDB _ => [dbPing c] | _ => [] end), w') ∧
       ∃ h, dbs w' !! r = Some h ∧ DB.Error h = None ∧ db h = c).
Proof.
  intros o1 o2. split; [reflexivity|].
  split; [intros v rest; eexists; reflexivity|]. split.
  - intros value rest driver source Hrest.
    assert (Hds :
      Gorm.Open dname (ArgString value :: rest) w =
        ('(dbSQL, err) ← sql_Open driver source;
         Gorm.root dname dbSQL err true [sqlOpen driver source]) w).
    { destruct Hrest as [(-> & -> & ->)|(more & -> & ->)]; done. }
    rewrite Hds, (run_bind _ _ _ _ _ (sql_Open_run driver source w)), root_run.
    fold o1. destruct (out_err o1) as [e|]; cbn.
    + eexists _, _. split; [reflexivity|]. eexists. cbn.
      split; [apply lookup_snoc_new|done].
    + fold o2. eexists _, _. split.
      { destruct (out_err o2); reflexivity. }
      eexists. cbn. split; [apply lookup_snoc_new|done].
  - intros c rest Hv.
    destruct c as [|[d|]|t|id b1 b2]; try done; cbn [Gorm.Open];
      rewrite root_run; cbn; fold o1.
    + eexists _, _. split; [by destruct (out_err o1)|].
      eexists. cbn. split; [apply lookup_snoc_new|done].
    + eexists _, _. split; [reflexivity|].
      eexists. cbn. split; [apply lookup_snoc_new|done].
    + eexists _, _. split; [reflexivity|].
      eexists. cbn. split; [apply lookup_snoc_new|done].
Qed.

Lemma Open_source_protocol_witness :
  ∃ r w',
    Gorm.Open "sqlite3" [ArgString "mysql"; ArgString "user@/db"]
      (opened [mkOutcome None None; mkOutcome (Some (ErrOther "connection refused")) None])
    = Some ((Some r, Some (ErrOther "connection refused"),
             [sqlOpen "mysql" "user@/db"; dbPing (SqlDB (Some 0)); dbClose (SqlDB (Some 0))]),
            w') ∧
    ∃ h, dbs w' !! r = Some h ∧ DB.Error h = None ∧ db h = SqlDB (Some 0).
Proof.
  exact (proj1 (proj2 (proj2
    (Open_source_protocol "sqlite3"
       (opened [mkOutcome None None; mkOutcome (Some (ErrOther "connection refused")) None]))))
    "mysql" [ArgString "user@/db"] "mysql" "user@/db"
    (or_intror (ex_intro _ [] (conj eq_refl eq_refl)))).
Defined.
